(** * ArborX / DataTransferKit search kernel: fixed-capacity containers,
      the cartesian grid helper and the batched query driver.

    Shallow embedding of

      - [src/misc/ArborX_Containers.hpp]      (StaticVector, UnmanagedStaticVector)
      - [src/details/ArborX_DetailsCartesianGrid.hpp]  (CartesianGrid)
      - [examples/bvh_driver/bvh_driver.cpp]  (make_stuctured_cloud,
        make_random_cloud, query, main_)

    C++ arrays and Kokkos views are lists read with [!!] and written with
    [<[i:=x]>]; every access carries the bounds check that the C++ leaves
    to the caller, an access outside the storage being [Undefined].
    [float] and [double] are the IEEE-754 binary32 and binary64 formats of
    [SpecFloat]. *)

From Stdlib Require Import ZArith Lia Bool.
From Stdlib Require Import Floats.SpecFloat.
From stdpp Require Import base list strings gmap.

Local Open Scope Z_scope.

(** ** Outcome of a C++ computation *)

(** A call either returns, stops on a failed assertion ([ARBORX_ASSERT],
    [KOKKOS_ASSERT], [assert]), or runs into undefined behaviour (signed
    overflow, access outside an array, float-to-integer conversion of a
    value that does not fit); [Raised] is an exception thrown by the
    standard library or by Kokkos (a container asked for a negative
    size). *)
Inductive result (A : Type) : Type :=
  | Ok (a : A)
  | AssertionFailed
  | Raised
  | Undefined.
Arguments Ok {A} a.
Arguments AssertionFailed {A}.
Arguments Raised {A}.
Arguments Undefined {A}.

#[global] Instance result_ret : MRet result := fun A a => Ok a.
#[global] Instance result_bind : MBind result := fun A B f r =>
  match r with
  | Ok a => f a
  | AssertionFailed => AssertionFailed
  | Raised => Raised
  | Undefined => Undefined
  end.

#[global] Instance result_fmap : FMap result := fun A B f r =>
  match r with
  | Ok a => Ok (f a)
  | AssertionFailed => AssertionFailed
  | Raised => Raised
  | Undefined => Undefined
  end.

(** [KOKKOS_ASSERT(c)] / [ARBORX_ASSERT(c)] with the check enabled. *)
Definition assert_ (c : bool) : result unit :=
  if c then Ok tt else AssertionFailed.

(** Reading an lvalue that may lie outside its storage. *)
Definition deref {A} (o : option A) : result A :=
  match o with
  | Some a => Ok a
  | None => Undefined
  end.

(** [a[i] = x] on an array of known length. *)
Definition store {A} (a : list A) (i : nat) (x : A) : result (list A) :=
  if (i <? length a)%nat then Ok (<[i:=x]> a) else Undefined.

(** [for (i = 0; i < n; ++i) body(i)], threading the state [s]. *)
Fixpoint for_loop {S} (n : nat) (body : nat -> S -> result S) (s : S) : result S :=
  match n with
  | O => Ok s
  | S n' => s' ← for_loop n' body s; body n' s'
  end.

(** ** Small containers ([ArborX_Containers.hpp]) *)

(** [KOKKOS_ASSERT] is modelled with the check compiled in; sizes and
    positions are [size_t] values which the assertions keep inside
    [0, capacity], so no arithmetic on them wraps. *)

(** The behaviour the two vectors are measured against: a stack of at
    most [N] elements, a list with the top at its end. *)
Inductive stack_op (T : Type) : Type :=
  | Push (value : T)
  | Pop
  | Clear.
Arguments Push {T} value.
Arguments Pop {T}.
Arguments Clear {T}.

Definition stack_apply {T} (N : nat) (o : stack_op T) (l : list T) : option (list T) :=
  match o with
  | Push value => if (length l <? N)%nat then Some (l ++ [value]) else None
  | Pop => match l with [] => None | _ => Some (removelast l) end
  | Clear => Some []
  end.

Definition stack_run {T} (N : nat) (ops : list (stack_op T)) (l : list T)
  : option (list T) :=
  foldl (fun r o => l ← r; stack_apply N o l) (Some l) ops.

Module StaticVector.
(** [template <typename T, std::size_t N> class StaticVector] with members
    [value_type _data[N]; size_type _size = 0;] *)
Record t (T : Type) (N : nat) : Type := Build { _data : list T; _size : nat }.
Arguments Build {T N} _data _size.
Arguments _data {T N} v : rename.
Arguments _size {T N} v : rename.

Section Owned.
Context {T : Type} {N : nat}.
Implicit Type v : t T N.

(** The storage really is an array of [N] elements and the size never
    exceeds it. *)
Definition wf v : Prop := length (_data v) = N /\ (_size v <= N)%nat.

(** [StaticVector() = default]: the array is left unspecified. *)
Definition default (uninit : list T) : t T N := {| _data := uninit; _size := 0 |}.

Definition empty v : bool := (_size v =? 0)%nat.
Definition size v : nat := _size v.
Definition maxSize v : nat := N.
Definition capacity v : nat := N.

(** [operator[]( pos )] *)
Definition at_ v (pos : nat) : result T :=
  _ ← assert_ ((pos <? size v)%nat);
  deref (_data v !! pos).

Definition back v : result T :=
  _ ← assert_ ((0 <? size v)%nat);
  deref (_data v !! (_size v - 1)%nat).

Definition pushBack v (value : T) : result (t T N) :=
  _ ← assert_ ((size v <? maxSize v)%nat);
  d ← store (_data v) (_size v) value;
  Ok {| _data := d; _size := S (_size v) |}.

(** [emplaceBack(args...)] constructs [T(args...)] in the next slot. *)
Definition emplaceBack {Args} (ctor : Args -> T) (args : Args) v : result (t T N) :=
  _ ← assert_ ((size v <? maxSize v)%nat);
  d ← store (_data v) (_size v) (ctor args);
  Ok {| _data := d; _size := S (_size v) |}.

Definition popBack v : result (t T N) :=
  _ ← assert_ ((0 <? size v)%nat);
  Ok {| _data := _data v; _size := (_size v - 1)%nat |}.

Definition front v : result T :=
  _ ← assert_ ((0 <? size v)%nat);
  deref (_data v !! 0%nat).

Definition clear v : t T N := {| _data := _data v; _size := 0 |}.
Definition data v : list T := _data v.

(** The elements in use: the first [size()] slots of the array. *)
Definition contents v : list T := take (_size v) (_data v).

(** A call of one of the mutating member functions, and a run of them. *)
Definition apply (o : stack_op T) v : result (t T N) :=
  match o with
  | Push value => pushBack v value
  | Pop => popBack v
  | Clear => Ok (clear v)
  end.
Definition run (ops : list (stack_op T)) v : result (t T N) :=
  foldl (fun r o => v ← r; apply o v) (Ok v) ops.
End Owned.
End StaticVector.

Module UnmanagedStaticVector.
(** [template <typename T> class UnmanagedStaticVector] with members
    [pointer _ptr; size_type const _max_size; size_type _size = 0;]
    [_ptr] is the caller's storage as seen through the pointer. *)
Record t (T : Type) : Type := Build { _ptr : list T; _max_size : nat; _size : nat }.
Arguments Build {T} _ptr _max_size _size.
Arguments _ptr {T} v : rename.
Arguments _max_size {T} v : rename.
Arguments _size {T} v : rename.

Section Borrowed.
Context {T : Type}.
Implicit Type v : t T.

(** The caller's side of the contract: the borrowed storage holds at
    least [_max_size] elements. *)
Definition wf v : Prop :=
  (_max_size v <= length (_ptr v))%nat /\ (_size v <= _max_size v)%nat.

(** [UnmanagedStaticVector( ptr, max_size )]; [None] is [nullptr]. *)
Definition make (ptr : option (list T)) (max_size : nat) : result (t T) :=
  _ ← assert_ (match ptr with Some _ => true | None => false end);
  storage ← deref ptr;
  Ok {| _ptr := storage; _max_size := max_size; _size := 0 |}.

Definition empty v : bool := (_size v =? 0)%nat.
Definition size v : nat := _size v.
Definition maxSize v : nat := _max_size v.
Definition capacity v : nat := _max_size v.

Definition at_ v (pos : nat) : result T :=
  _ ← assert_ ((pos <? size v)%nat);
  deref (_ptr v !! pos).

Definition back v : result T :=
  _ ← assert_ ((0 <? size v)%nat);
  deref (_ptr v !! (_size v - 1)%nat).

Definition pushBack v (value : T) : result (t T) :=
  _ ← assert_ ((size v <? maxSize v)%nat);
  d ← store (_ptr v) (_size v) value;
  Ok {| _ptr := d; _max_size := _max_size v; _size := S (_size v) |}.

Definition emplaceBack {Args} (ctor : Args -> T) (args : Args) v : result (t T) :=
  _ ← assert_ ((size v <? maxSize v)%nat);
  d ← store (_ptr v) (_size v) (ctor args);
  Ok {| _ptr := d; _max_size := _max_size v; _size := S (_size v) |}.

Definition popBack v : result (t T) :=
  _ ← assert_ ((0 <? size v)%nat);
  Ok {| _ptr := _ptr v; _max_size := _max_size v; _size := (_size v - 1)%nat |}.

Definition front v : result T :=
  _ ← assert_ ((0 <? size v)%nat);
  deref (_ptr v !! 0%nat).

Definition clear v : t T :=
  {| _ptr := _ptr v; _max_size := _max_size v; _size := 0 |}.
Definition data v : list T := _ptr v.

(** The elements in use: the first [size()] slots of the caller's
    storage. *)
Definition contents v : list T := take (_size v) (_ptr v).

(** A call of one of the mutating member functions, and a run of them. *)
Definition apply (o : stack_op T) v : result (t T) :=
  match o with
  | Push value => pushBack v value
  | Pop => popBack v
  | Clear => Ok (clear v)
  end.
Definition run (ops : list (stack_op T)) v : result (t T) :=
  foldl (fun r o => v ← r; apply o v) (Ok v) ops.

(** What a member function may change of a borrowed vector: the
    capacity and the extent of the caller's storage stay, and so does
    every slot of it from the capacity on. *)
Definition same_frame v v' : Prop :=
  _max_size v' = _max_size v /\ length (_ptr v') = length (_ptr v) /\
  drop (_max_size v) (_ptr v') = drop (_max_size v) (_ptr v).
End Borrowed.
End UnmanagedStaticVector.

(** ** Cartesian grid ([ArborX_DetailsCartesianGrid.hpp]) *)

Module CartesianGrid.

(** [float] is IEEE-754 binary32. *)
Definition float : Type := spec_float.
Definition prec : Z := 24.
Definition emax : Z := 128.

Definition fadd : float -> float -> float := SFadd prec emax.
Definition fsub : float -> float -> float := SFsub prec emax.
Definition fmul : float -> float -> float := SFmul prec emax.
Definition fdiv : float -> float -> float := SFdiv prec emax.
(** [a > b] and [a != b]; a NaN operand makes [>] false and [!=] true. *)
Definition fgt (a b : float) : bool := SFltb b a.
Definition fne (a b : float) : bool := negb (SFeqb a b).
(** The literal [0] converted to [float]. *)
Definition fzero : float := S754_zero false.
(** Integer-to-[float] conversion, rounding to nearest even. *)
Definition float_of_Z (z : Z) : float := binary_normalize prec emax z 0 false.

(** The integer part of a finite value, rounding toward zero, toward
    +infinity and toward -infinity. *)
Definition trunc_Z (x : float) : option Z :=
  match x with
  | S754_zero _ => Some 0
  | S754_finite s m e =>
      Some (cond_Zopp s (if 0 <=? e then Zpos m * 2 ^ e else Zpos m / 2 ^ (- e)))
  | _ => None
  end.
Definition ceil_Z (x : float) : option Z :=
  match x with
  | S754_zero _ => Some 0
  | S754_finite s m e =>
      let z := cond_Zopp s (Zpos m) in
      Some (if 0 <=? e then z * 2 ^ e else - ((- z) / 2 ^ (- e)))
  | _ => None
  end.
Definition floor_Z (x : float) : option Z :=
  match x with
  | S754_zero _ => Some 0
  | S754_finite s m e =>
      let z := cond_Zopp s (Zpos m) in
      Some (if 0 <=? e then z * 2 ^ e else z / 2 ^ (- e))
  | _ => None
  end.

(** [std::ceil] and [KokkosExt::floor] on [float]: zeros, infinities and
    NaN are returned unchanged, a value in (-1, 0) gives -0. *)
Definition ceil (x : float) : float :=
  match x, ceil_Z x with
  | S754_finite s _ _, Some c => binary_normalize prec emax c 0 s
  | _, _ => x
  end.
Definition floor (x : float) : float :=
  match x, floor_Z x with
  | S754_finite s _ _, Some c => binary_normalize prec emax c 0 s
  | _, _ => x
  end.

Definition max_size_t : Z := 2 ^ 64 - 1.
Definition INT_MIN : Z := - 2 ^ 31.
Definition INT_MAX : Z := 2 ^ 31 - 1.

(** Unsigned [size_t] arithmetic wraps modulo 2^64. *)
Definition wrap_size_t (z : Z) : Z := z mod 2 ^ 64.

(** Floating-to-integer conversion truncates; the behaviour is undefined
    when the truncated value is not representable in the target type. *)
Definition float_to_size_t (x : float) : result Z :=
  match trunc_Z x with
  | Some z => if (0 <=? z) && (z <=? max_size_t) then Ok z else Undefined
  | None => Undefined
  end.
Definition float_to_int (x : float) : result Z :=
  match trunc_Z x with
  | Some z => if (INT_MIN <=? z) && (z <=? INT_MAX) then Ok z else Undefined
  | None => Undefined
  end.

(** Modelled from the spec: [ExperimentalHyperGeometry::Box<DIM>]
    (ArborX_HyperBox.hpp is not among the sources), a pair of points
    (min corner, max corner), each an array of [DIM] coordinates. *)
Record Box : Type := { minCorner : list float; maxCorner : list float }.

(** [Box _bounds; float _h[DIM]; size_t _n[DIM];] *)
Record t : Type := Build { _bounds : Box; _h : list float; _n : list Z }.

Section Grid.
(** The template parameter [DIM]. *)
Variable DIM : nat.

(** First loop of [buildGrid]: the number of cells per axis. *)
Definition buildGrid_counts (bounds : Box) (h : list float) (n : list Z)
  : result (list Z) :=
  let min_corner := minCorner bounds in
  let max_corner := maxCorner bounds in
  for_loop DIM (fun d _n =>
    hi ← deref (max_corner !! d);
    lo ← deref (min_corner !! d);
    let delta := fsub hi lo in
    if fne delta fzero then
      hd ← deref (h !! d);
      c ← float_to_size_t (ceil (fdiv delta hd));
      _n ← store _n d c;
      nd ← deref (_n !! d);
      _ ← assert_ (0 <? nd);
      Ok _n
    else
      store _n d 1) n.

(** Second loop of [buildGrid]: the conservative overflow check, run
    for [d = 1 .. DIM-1] on the running quotient [m]. *)
Definition buildGrid_check (n : list Z) : result Z :=
  for_loop (DIM - 1) (fun i m =>
    let d := S i in
    prev ← deref (n !! (d - 1)%nat);
    m ← (if prev =? 0 then Undefined else Ok (m / prev));
    nd ← deref (n !! d);
    _ ← assert_ (nd <? m);
    Ok m) max_size_t.

Definition buildGrid (g : t) : result t :=
  n ← buildGrid_counts (_bounds g) (_h g) (_n g);
  _ ← buildGrid_check n;
  Ok {| _bounds := _bounds g; _h := _h g; _n := n |}.

(** [CartesianGrid(Box const &bounds, float h)].  [raw] is the object's
    storage before the constructor runs: [_h] and [_n] are arrays of
    [DIM] elements with indeterminate contents. *)
Definition make_uniform (bounds : Box) (h : float) (raw : t) : result t :=
  _ ← assert_ (fgt h fzero);
  hs ← for_loop DIM (fun d _h => store _h d h) (_h raw);
  buildGrid {| _bounds := bounds; _h := hs; _n := _n raw |}.

(** [CartesianGrid(Box const &bounds, float const h[DIM])].  The
    assertion reads the member [_h[d]], which is assigned from the
    argument [h[d]] only on the following line. *)
Definition make_array (bounds : Box) (h : list float) (raw : t) : result t :=
  hs ← for_loop DIM (fun d _h =>
    member ← deref (_h !! d);
    _ ← assert_ (fgt member fzero);
    hd ← deref (h !! d);
    store _h d hd) (_h raw);
  buildGrid {| _bounds := bounds; _h := hs; _n := _n raw |}.

(** A grid that one of the two constructors returned. *)
Definition constructed (g : t) : Prop :=
  exists bounds raw,
    (exists h, make_uniform bounds h raw = Ok g) \/
    (exists h, make_array bounds h raw = Ok g).

(** [cellIndex(point)]: the loop runs [d = DIM-1 .. 0]. *)
Definition cellIndex (g : t) (point : list float) : result Z :=
  let min_corner := minCorner (_bounds g) in
  for_loop DIM (fun k s =>
    let d := (DIM - 1 - k)%nat in
    p ← deref (point !! d);
    lo ← deref (min_corner !! d);
    hd ← deref (_h g !! d);
    i ← float_to_int (floor (fdiv (fsub p lo) hd));
    nd ← deref (_n g !! d);
    Ok (wrap_size_t (wrap_size_t (s * nd) + i))) 0.

(** [cellBox(cell_index)]; the local [max] starts out indeterminate and
    is overwritten on every axis, it is started here from [min]. *)
Definition cellBox (g : t) (cell_index : Z) : result Box :=
  let min := minCorner (_bounds g) in
  '(_, lo, hi) ← for_loop DIM (fun d '(cell_index, min, max) =>
    nd ← deref (_n g !! d);
    _ ← (if nd =? 0 then Undefined else Ok tt);
    let i := cell_index mod nd in
    let cell_index := cell_index / nd in
    md ← deref (min !! d);
    hd ← deref (_h g !! d);
    max ← store max d (fadd md (fmul (float_of_Z (wrap_size_t (i + 1))) hd));
    min ← store min d (fadd md (fmul (float_of_Z i) hd));
    Ok (cell_index, min, max)) (cell_index, min, min);
  Ok {| minCorner := lo; maxCorner := hi |}.

(** [extent(d)], with [d] an [int]. *)
Definition extent (g : t) (d : Z) : result Z :=
  _ ← assert_ ((0 <=? d) && (d <? Z.of_nat DIM));
  deref (_n g !! Z.to_nat d).

(** The public interface after construction.  Every member function is
    [const]: as a transformer of the object it hands the grid back as
    it received it. *)
Inductive request : Type :=
  | CellIndex (point : list float)
  | CellBox (cell_index : Z)
  | Extent (d : Z).
Inductive answer : Type :=
  | Index (s : Z)
  | Cell (b : Box)
  | Count (n : Z).

Definition invoke (g : t) (r : request) : t * result answer :=
  match r with
  | CellIndex p => (g, Index <$> cellIndex g p)
  | CellBox i => (g, Cell <$> cellBox g i)
  | Extent d => (g, Count <$> extent g d)
  end.

Definition invoke_all (g : t) (rs : list request) : t :=
  foldl (fun g r => fst (invoke g r)) g rs.
End Grid.

(** Product of the per-axis cell counts, in unbounded arithmetic. *)
Definition cell_count (n : list Z) : Z := foldr Z.mul 1 n.

(** *** Loop invariants of [buildGrid] *)

(** What the first loop leaves in [_n] below index [upto]: counts of at
    least one cell, exactly one where the corners compare equal. *)
Definition counted (bounds : Box) (upto : nat) (n : list Z) : Prop :=
  forall d, (d < upto)%nat ->
    exists c, n !! d = Some c /\ 1 <= c <= max_size_t /\
      (forall hi lo, maxCorner bounds !! d = Some hi ->
                     minCorner bounds !! d = Some lo ->
                     SFeqb hi lo = true -> c = 1).

(** The running quotient [m] of the overflow check after [k] rounds. *)
Definition checked (n : list Z) (k : nat) (m : Z) : Prop :=
  m = max_size_t / cell_count (take k n) /\
  cell_count (take (S k) n) <= max_size_t.

(** *** The cells of a grid *)

(** The count that the first loop of [buildGrid] gives axis [d], and
    the counts of the axes below [k]. *)
Definition axis_count (bounds : Box) (h : list float) (d : nat) : result Z :=
  hi ← deref (maxCorner bounds !! d);
  lo ← deref (minCorner bounds !! d);
  let delta := fsub hi lo in
  if fne delta fzero then
    hd ← deref (h !! d);
    c ← float_to_size_t (ceil (fdiv delta hd));
    _ ← assert_ (0 <? c);
    Ok c
  else Ok 1.

Fixpoint axis_counts (bounds : Box) (h : list float) (k : nat) : result (list Z) :=
  match k with
  | O => Ok []
  | S k' =>
      cs ← axis_counts bounds h k';
      c ← axis_count bounds h k';
      Ok (cs ++ [c])
  end.

(** What the second loop of [buildGrid] asks of the counts: every axis
    but the first has fewer cells than [max_size_t] divided by the
    number of cells of the axes before it. *)
Definition accepted (DIM : nat) (n : list Z) : bool :=
  forallb (fun d => default 0 (n !! d) <? max_size_t / cell_count (take d n))
          (seq 1 (DIM - 1)).

(** The cell along axis [d] in which [cellIndex] places a point. *)
Definition axis_cell (g : t) (point : list float) (d : nat) : result Z :=
  p ← deref (point !! d);
  lo ← deref (minCorner (_bounds g) !! d);
  hd ← deref (_h g !! d);
  float_to_int (floor (fdiv (fsub p lo) hd)).

(** The mixed-radix number with digits [cells] in the bases [n], the
    first axis being the least significant. *)
Fixpoint encode (cells n : list Z) : Z :=
  match cells, n with
  | i :: cells, nd :: n => i + nd * encode cells n
  | _, _ => 0
  end.

(** Per-axis cells that lie inside a grid of [n] cells per axis. *)
Definition inside (cells n : list Z) : Prop :=
  forall d i, cells !! d = Some i -> exists nd, n !! d = Some nd /\ 0 <= i < nd.


(** The corners that [cellBox] gives the cell [i] of axis [d]. *)
Definition cell_lo (lo hd : float) (i : Z) : float :=
  fadd lo (fmul (float_of_Z i) hd).
Definition cell_hi (lo hd : float) (i : Z) : float :=
  fadd lo (fmul (float_of_Z (i + 1)) hd).

(** Loop invariant of [cellBox] after [k] axes, for the index of the
    cells [cells]: the index left to decode, and the two corners. *)
Definition cellBox_inv (g : t) (cells : list Z) (k : nat)
    (st : Z * list float * list float) : Prop :=
  let '(cell_index, min, max) := st in
  let min_corner := minCorner (_bounds g) in
  cell_index = encode (drop k cells) (drop k (_n g)) /\
  length min = length min_corner /\ length max = length min_corner /\
  (forall d, (k <= d)%nat -> min !! d = min_corner !! d) /\
  (forall d, (d < k)%nat ->
     exists lo hd i,
       min_corner !! d = Some lo /\ _h g !! d = Some hd /\ cells !! d = Some i /\
       min !! d = Some (cell_lo lo hd i) /\ max !! d = Some (cell_hi lo hd i)).

End CartesianGrid.

(** ** The example driver ([bvh_driver.cpp]) *)

Module Driver.

(** [double] is IEEE-754 binary64. *)
Definition double : Type := spec_float.
Definition prec : Z := 53.
Definition emax : Z := 1024.
Definition dmul : double -> double -> double := SFmul prec emax.
Definition ddiv : double -> double -> double := SFdiv prec emax.
(** Conversion of an [int] to [double] (exact). *)
Definition double_of_int (z : Z) : double := binary_normalize prec emax z 0 false.

(** *** [int] arithmetic *)

Definition INT_MIN : Z := - 2 ^ 31.
Definition INT_MAX : Z := 2 ^ 31 - 1.
Definition in_int (z : Z) : bool := (INT_MIN <=? z) && (z <=? INT_MAX).

(** Signed overflow is undefined behaviour. *)
Definition int_of (z : Z) : result Z := if in_int z then Ok z else Undefined.
Definition int_add (a b : Z) : result Z := int_of (a + b).
Definition int_sub (a b : Z) : result Z := int_of (a - b).
Definition int_mul (a b : Z) : result Z := int_of (a * b).

(** Narrowing a [size_t] to [int] keeps a value that fits; for one that
    does not the result is left to the implementation, and the model
    stops there. *)
Definition to_int (z : Z) : result Z := int_of z.

(** *** Kokkos views of [int] *)

(** [v(i)] read and written with an [int] index; Kokkos does not check
    the index. *)
Definition view_get (v : list Z) (i : Z) : result Z :=
  if 0 <=? i then deref (v !! Z.to_nat i) else Undefined.
Definition view_set (v : list Z) (i : Z) (x : Z) : result (list Z) :=
  if 0 <=? i then store v (Z.to_nat i) x else Undefined.

(** [Kokkos::resize(v, n)]: the entries below the smaller of the two
    extents are kept, new entries are value-initialised. *)
Definition Kokkos_resize (v : list Z) (n : Z) : result (list Z) :=
  if 0 <=? n then Ok (resize (Z.to_nat n) 0 v) else Raised.

(** [for ( int i = 0; i < n; ++i ) f( i )] *)
Definition for_int {S} (n : Z) (f : Z -> S -> result S) (s : S) : result S :=
  for_loop (Z.to_nat n) (fun i => f (Z.of_nat i)) s.

(** An execution space decides in which order the iterations of a range
    are run: [space n] lists the indices of the range [0, n) in that
    order.  [Serial] runs them in increasing order; any permutation of
    the indices is a valid choice. *)
Definition ExecutionSpace : Type := nat -> list nat.
Definition Serial : ExecutionSpace := seq 0.
Definition valid_space (space : ExecutionSpace) : Prop :=
  forall n, space n ≡ₚ seq 0 n.

(** [Kokkos::RangePolicy<ExecutionSpace>( 0, n )] *)
Definition RangePolicy (space : ExecutionSpace) (n : Z) : list nat :=
  space (Z.to_nat n).

(** [Kokkos::parallel_for( policy, f )]: one call of [f] per index, in
    the order of the policy. *)
Definition parallel_for {S} (policy : list nat) (f : Z -> S -> result S) (s : S)
  : result S :=
  foldl (fun r i => s ← r; f (Z.of_nat i) s) (Ok s) policy.

(** [Kokkos::parallel_scan( RangePolicy( 0, n ), f )] through its result:
    [f] applied from left to right with [final_pass = true], [update]
    starting from 0.  (A backend that first makes a pass with
    [final_pass = false] calls a functor that writes nothing in that
    pass.) *)
Definition parallel_scan {S} (n : Z) (f : Z -> Z -> bool -> S -> result (Z * S)) (s : S)
  : result S :=
  snd <$> for_loop (Z.to_nat n)
            (fun i '(update, s) => f (Z.of_nat i) update true s) (0, s).

(** *** Structured point cloud *)

(** [std::array<double, 3>] *)
Definition point : Type := double * double * double.

Definition zero_point : point := (S754_zero false, S754_zero false, S754_zero false).

(** The lambda [ind]: [i + j * nx + k * ( nx * ny )]. *)
Definition ind (nx ny nz : Z) (i j k : Z) : result Z :=
  jnx ← int_mul j nx;
  ij ← int_add i jnx;
  nxy ← int_mul nx ny;
  knxy ← int_mul k nxy;
  int_add ij knxy.

(** [std::vector<T> v( n )] from an [int]: a negative [n] becomes a huge
    [size_type] and the constructor throws. *)
Definition vector_of_size {A} (n : Z) (x : A) : result (list A) :=
  if 0 <=? n then Ok (replicate (Z.to_nat n) x) else Raised.

(** [i * L / ( n - 1 )] *)
Definition coordinate (i : Z) (L : double) (n : Z) : result double :=
  d ← int_sub n 1;
  Ok (ddiv (dmul (double_of_int i) L) (double_of_int d)).

Definition make_stuctured_cloud (Lx Ly Lz : double) (nx ny nz : Z)
  : result (list point) :=
  nxy ← int_mul nx ny;
  n ← int_mul nxy nz;
  cloud ← vector_of_size n zero_point;
  for_int nx (fun i cloud =>
    for_int ny (fun j cloud =>
      for_int nz (fun k cloud =>
        x ← coordinate i Lx nx;
        y ← coordinate j Ly ny;
        z ← coordinate k Lz nz;
        pos ← ind nx ny nz i j k;
        if 0 <=? pos then store cloud (Z.to_nat pos) (x, y, z) else Undefined)
      cloud) cloud) cloud.

(** *** Random point cloud *)

Section RandomCloud.
(** The standard library's random numbers: the state of a
    [std::default_random_engine], the state of a default-constructed
    one, and a call [distribution( generator )] of a
    [std::uniform_real_distribution<double>( a, b )], which returns a
    value and advances the engine. *)
Variable Engine : Type.
Variable default_random_engine : Engine.
Variable uniform_real_distribution : double -> double -> Engine -> double * Engine.

Definition make_random_cloud (Lx Ly Lz : double) (n : Z) : result (list point) :=
  cloud ← vector_of_size n zero_point;
  let generator := default_random_engine in
  let distribution_x := uniform_real_distribution (S754_zero false) Lz in
  let distribution_y := uniform_real_distribution (S754_zero false) Ly in
  let distribution_z := uniform_real_distribution (S754_zero false) Lz in
  fst <$> for_int n (fun i '(cloud, generator) =>
    let '(x, generator) := distribution_x generator in
    let '(y, generator) := distribution_y generator in
    let '(z, generator) := distribution_z generator in
    cloud ← (if 0 <=? i then store cloud (Z.to_nat i) (x, y, z) else Undefined);
    Ok (cloud, generator)) (cloud, generator).
End RandomCloud.

(** Modelled from the spec: [DataTransferKit::Box] (DTK_Box.hpp is not
    among the sources), an axis-aligned box given by its min and max
    corners; the initializer list is
    [{xmin, xmax, ymin, ymax, zmin, zmax}], and a default-constructed box
    is the empty box, the neutral element for union, with min = +inf and
    max = -inf. *)
Record Box : Type := { min_corner : point; max_corner : point }.
Definition Box_of (xmin xmax ymin ymax zmin zmax : double) : Box :=
  {| min_corner := (xmin, ymin, zmin); max_corner := (xmax, ymax, zmax) |}.
Definition Box_default : Box :=
  let hi := S754_infinity false in
  let lo := S754_infinity true in
  Box_of hi lo hi lo hi lo.

(** Lines 170-188 of [main_]: the bounding boxes handed to the [BVH]
    constructor ([n] is the [int] taken from [cloud.size()]; the view
    starts out as [n] default-constructed boxes). *)
Definition bounding_boxes (Lx Ly Lz : double) (nx ny nz : Z) : result (list Box) :=
  cloud ← make_stuctured_cloud Lx Ly Lz nx ny nz;
  n ← to_int (Z.of_nat (length cloud));
  boxes ← vector_of_size n Box_default;
  for_int n (fun i boxes =>
    '(x, y, z) ← deref (cloud !! Z.to_nat i);
    store boxes (Z.to_nat i) (Box_of x x y y z z)) boxes.

(** *** Command line *)

(** The variable an option is bound to, with its current value. *)
Inductive option_value : Type :=
  | IntValue (z : Z)
  | StringValue (s : string).

Inductive EParseCommandLineReturn : Type :=
  | PARSE_SUCCESSFUL
  | PARSE_HELP_PRINTED
  | PARSE_UNRECOGNIZED_OPTION
  | PARSE_ERROR.

(** One command-line argument: [--help] or [--name=value]. *)
Inductive argument : Type :=
  | Help
  | Option_ (name : string) (value : option_value).

(** Modelled from the spec: [Teuchos::CommandLineProcessor] (an external
    collaborator of the driver).  The processor keeps the registered
    options, each bound to a variable of the caller; [parse] walks the
    arguments in order and writes the value of each supplied option into
    the variable it is bound to.  An option that is not supplied leaves
    its variable alone. *)
Record CommandLineProcessor : Type := {
  options : gmap string option_value;
  recognise_all : bool
}.

Definition setOption (name : string) (var : option_value) (clp : CommandLineProcessor)
  : CommandLineProcessor :=
  {| options := <[name := var]> (options clp); recognise_all := recognise_all clp |}.

Definition recogniseAllOptions (b : bool) (clp : CommandLineProcessor)
  : CommandLineProcessor :=
  {| options := options clp; recognise_all := b |}.

Definition same_kind (a b : option_value) : bool :=
  match a, b with
  | IntValue _, IntValue _ | StringValue _, StringValue _ => true
  | _, _ => false
  end.

Fixpoint parse (argv : list argument) (clp : CommandLineProcessor)
  : EParseCommandLineReturn * CommandLineProcessor :=
  match argv with
  | [] => (PARSE_SUCCESSFUL, clp)
  | Help :: _ => (PARSE_HELP_PRINTED, clp)
  | Option_ name value :: rest =>
      match options clp !! name with
      | Some var =>
          if same_kind var value
          then parse rest (setOption name value clp)
          else (PARSE_ERROR, clp)
      | None =>
          if recognise_all clp then (PARSE_UNRECOGNIZED_OPTION, clp)
          else parse rest clp
      end
  end.

Definition int_option (name : string) (clp : CommandLineProcessor) : Z :=
  match options clp !! name with
  | Some (IntValue z) => z
  | _ => 0
  end.
Definition string_option (name : string) (clp : CommandLineProcessor) : string :=
  match options clp !! name with
  | Some (StringValue s) => s
  | _ => ""
  end.

(** The local variables of [main_] that the options are bound to. *)
Record Settings : Type := {
  Lx : double; Ly : double; Lz : double;
  nx : Z; ny : Z; nz : Z;
  n_points : Z;
  mode : string
}.

(** Lines 142-168 of [main_]: the initial values, the registration of
    the options and the parse.  [clp] arrives from [main] with the
    [node] option registered. *)
Definition main_settings (clp : CommandLineProcessor) (argv : list argument)
  : EParseCommandLineReturn * Settings :=
  let clp := setOption "nx" (IntValue 11) clp in
  let clp := setOption "ny" (IntValue 11) clp in
  let clp := setOption "nz" (IntValue 11) clp in
  let clp := setOption "N" (IntValue 100) clp in
  let clp := setOption "mode" (StringValue "radius") clp in
  let clp := recogniseAllOptions true clp in
  let '(status, clp) := parse argv clp in
  (status,
   {| Lx := double_of_int 100; Ly := double_of_int 100; Lz := double_of_int 100;
      nx := int_option "nx" clp; ny := int_option "ny" clp; nz := int_option "nz" clp;
      n_points := int_option "N" clp;
      mode := string_option "mode" clp |}).

(** [main_] up to the construction of the hierarchy: the exit on a
    failed parse, otherwise the boxes the [BVH] is built over. *)
Inductive main_outcome : Type :=
  | Exit (code : Z)
  | Build (boxes : list Box).

Definition EXIT_SUCCESS : Z := 0.
Definition EXIT_FAILURE : Z := 1.

Definition main_ (clp : CommandLineProcessor) (argv : list argument)
  : result main_outcome :=
  let '(status, s) := main_settings clp argv in
  match status with
  | PARSE_HELP_PRINTED => Ok (Exit EXIT_SUCCESS)
  | PARSE_ERROR | PARSE_UNRECOGNIZED_OPTION => Ok (Exit EXIT_FAILURE)
  | PARSE_SUCCESSFUL =>
      Build <$> bounding_boxes (Lx s) (Ly s) (Lz s) (nx s) (ny s) (nz s)
  end.

(** The processor as [main] hands it over. *)
Definition main_clp : CommandLineProcessor :=
  setOption "node" (StringValue "") {| options := ∅; recognise_all := true |}.

(** *** Batched query *)

Definition sumZ (l : list Z) : Z := foldr Z.add 0 l.

Section Query.
(** [DataTransferKit::BVH<NO>] and the predicate type [Query]. *)
Variables BVH Query : Type.

(** The primitive indices the tree traversal reports for a predicate,
    in the order it reports them. *)
Variable matches : BVH -> Query -> list Z.

(** [typename DeviceType::execution_space] *)
Variable space : ExecutionSpace.

(** Modelled from the spec: [details::TreeTraversal<NO>::query]
    (DTK_DetailsTreeTraversal.hpp is not among the sources) runs the
    traversal for one predicate, calls the visitor on every matching
    primitive index in traversal order and returns the number of
    matches as an [int]. *)
Definition TreeTraversal_query {S} (bvh : BVH) (q : Query)
    (visit : Z -> S -> result S) (s : S) : result (Z * S) :=
  s ← foldl (fun r index => s ← r; visit index s) (Ok s) (matches bvh q);
  count ← int_of (Z.of_nat (length (matches bvh q)));
  Ok (count, s).

(** Lines 76-81: resize, then the loop labelled "initialize offset (set
    all entries to zero)", whose body is the expression [offset[i];]. *)
Definition query_init (n_queries : Z) (offset : list Z) : result (list Z) :=
  n1 ← int_add n_queries 1;
  offset ← Kokkos_resize offset n1;
  parallel_for (RangePolicy space n1)
    (fun i offset => _ ← view_get offset i; Ok offset) offset.

(** Lines 87-94: first pass, the number of matches of each query. *)
Definition query_count (bvh : BVH) (queries : list Query) (n_queries : Z)
    (offset : list Z) : result (list Z) :=
  parallel_for (RangePolicy space n_queries) (fun i offset =>
    q ← deref (queries !! Z.to_nat i);
    '(count, _) ← TreeTraversal_query bvh q (fun _ u => Ok u) tt;
    view_set offset i count) offset.

(** Lines 100-109: the scan. *)
Definition query_scan (n_queries : Z) (offset : list Z) : result (list Z) :=
  n1 ← int_add n_queries 1;
  parallel_scan n1 (fun i update final_pass offset =>
    offset_i ← view_get offset i;
    offset ← (if final_pass : bool then view_set offset i update else Ok offset);
    update ← int_add update offset_i;
    Ok (update, offset)) offset.

(** Lines 115-133: allocation of [indices] and second pass. *)
Definition query_fill (bvh : BVH) (queries : list Query) (n_queries : Z)
    (indices offset : list Z) : result (list Z) :=
  total_count ← view_get offset n_queries;
  indices ← Kokkos_resize indices total_count;
  parallel_for (RangePolicy space n_queries) (fun i indices =>
    q ← deref (queries !! Z.to_nat i);
    '(_, (_, indices)) ← TreeTraversal_query bvh q
      (fun index '(count, indices) =>
         offset_i ← view_get offset i;
         pos ← int_add offset_i count;
         indices ← view_set indices pos index;
         count ← int_add count 1;
         Ok (count, indices)) (0, indices);
    Ok indices) indices.

(** [query( bvh, queries, indices, offset )]; returns the two views it
    was given by reference. *)
Definition query (bvh : BVH) (queries : list Query) (indices offset : list Z)
  : result (list Z * list Z) :=
  n_queries ← to_int (Z.of_nat (length queries));
  offset ← query_init n_queries offset;
  offset ← query_count bvh queries n_queries offset;
  offset ← query_scan n_queries offset;
  indices ← query_fill bvh queries n_queries indices offset;
  Ok (indices, offset).

(** The compressed-row result the queries call for: the number of
    matches of each query, the matches of all queries one after the
    other, and the start of each query's row. *)
Definition match_counts (bvh : BVH) (queries : list Query) : list Z :=
  (fun q => Z.of_nat (length (matches bvh q))) <$> queries.
Definition all_matches (bvh : BVH) (queries : list Query) : list Z :=
  concat (matches bvh <$> queries).
Definition row_starts (bvh : BVH) (queries : list Query) : list Z :=
  (fun q => sumZ (take q (match_counts bvh queries))) <$> seq 0 (S (length queries)).
End Query.

(** *** Specification vocabulary *)

(** An option is supplied when some argument names it. *)
Definition supplied (name : string) (argv : list argument) : Prop :=
  exists value, Option_ name value ∈ argv.

(** The zero-extent box at a point. *)
Definition box_at (p : point) : Box := {| min_corner := p; max_corner := p |}.

(** The points [(10 i, 10 j, 10 k)], [0 <= i, j, k <= 10], listed with
    [i] running fastest: the 11 x 11 x 11 cloud spanning [0,100]^3. *)
Definition default_cloud : list point :=
  k ← seqZ 0 11; j ← seqZ 0 11; i ← seqZ 0 11;
  [(double_of_int (10 * i), double_of_int (10 * j), double_of_int (10 * k))].

(** [l[a .. b]] *)
Definition slice {A} (l : list A) (a b : Z) : list A :=
  take (Z.to_nat (b - a)) (drop (Z.to_nat a) l).

(** The grid point [(i, j, k)] of the structured cloud. *)
Definition grid_point (Lx Ly Lz : double) (nx ny nz : Z) (i j k : Z) : point :=
  (ddiv (dmul (double_of_int i) Lx) (double_of_int (nx - 1)),
   ddiv (dmul (double_of_int j) Ly) (double_of_int (ny - 1)),
   ddiv (dmul (double_of_int k) Lz) (double_of_int (nz - 1))).

(** *** Loop invariants *)

(** State [(update, offset)] of the scan before index [i]: the running
    sum, the entries below [i] already replaced, the others untouched. *)
Definition scan_inv (off0 : list Z) (i : nat) (st : Z * list Z) : Prop :=
  st.1 = sumZ (take i off0) /\
  length st.2 = length off0 /\
  (forall q, (q < i)%nat -> st.2 !! q = Some (sumZ (take q off0))) /\
  (forall q, (i <= q)%nat -> st.2 !! q = off0 !! q).

(** One step of the scan with [final_pass = true]. *)
Definition scan_body (i : nat) (st : Z * list Z) : result (Z * list Z) :=
  let '(update, offset) := st in
  offset_i ← view_get offset (Z.of_nat i);
  offset ← view_set offset (Z.of_nat i) update;
  update ← int_add update offset_i;
  Ok (update, offset).

(** [a <= x < b] on [double]. *)
Definition in_interval (a b x : double) : bool := SFleb a x && SFltb x b.

(** A point of the box [0, Lx) x [0, Ly) x [0, Lz). *)
Definition in_box (Lx Ly Lz : double) (p : point) : Prop :=
  let '(x, y, z) := p in
  in_interval (S754_zero false) Lx x = true /\
  in_interval (S754_zero false) Ly y = true /\
  in_interval (S754_zero false) Lz z = true.

(** Linear index of the grid point [(i, j, k)] of an [NX] x [NY] x ...
    cloud. *)
Definition cloud_pos (NX NY : nat) (i j k : nat) : nat :=
  (i + j * NX + k * (NX * NY))%nat.

(** [(i', j', k')] is visited before the loops of
    [make_stuctured_cloud] reach [(i, j, k)]. *)
Definition visited (i j k i' j' k' : nat) : Prop :=
  (i' < i \/ (i' = i /\ j' < j) \/ (i' = i /\ j' = j /\ k' < k))%nat.

Definition cloud_pt (Lx Ly Lz : double) (NX NY NZ : nat) (i j k : nat) : point :=
  grid_point Lx Ly Lz (Z.of_nat NX) (Z.of_nat NY) (Z.of_nat NZ)
    (Z.of_nat i) (Z.of_nat j) (Z.of_nat k).

(** The cloud when the loops reach [(i, j, k)]: every point visited so
    far is in its place. *)
Definition cloud_inv (Lx Ly Lz : double) (NX NY NZ : nat) (i j k : nat)
    (cloud : list point) : Prop :=
  length cloud = (NX * NY * NZ)%nat /\
  forall i' j' k', (i' < NX)%nat -> (j' < NY)%nat -> (k' < NZ)%nat ->
    visited i j k i' j' k' ->
    cloud !! cloud_pos NX NY i' j' k' = Some (cloud_pt Lx Ly Lz NX NY NZ i' j' k').

End Driver.

(** * Properties *)

(** ** The outcome monad and loops *)

Lemma bind_Ok_inv {A B} (r : result A) (f : A -> result B) (b : B) :
  r ≫= f = Ok b -> exists a, r = Ok a /\ f a = Ok b.
Proof. destruct r; simpl; intros H; try discriminate; eauto. Qed.

Lemma fmap_Ok_inv {A B} (f : A -> B) (r : result A) (b : B) :
  f <$> r = Ok b -> exists a, r = Ok a /\ b = f a.
Proof. destruct r; simpl; intros H; inversion H; eauto. Qed.

Lemma assert_Ok_inv (c : bool) (u : unit) : assert_ c = Ok u -> c = true.
Proof. destruct c; simpl; [done | discriminate]. Qed.

Lemma deref_Ok_inv {A} (o : option A) (a : A) : deref o = Ok a -> o = Some a.
Proof. destruct o; simpl; congruence. Qed.

Lemma store_Ok_inv {A} (a : list A) i x a' :
  store a i x = Ok a' -> (i < length a)%nat /\ a' = <[i:=x]> a.
Proof.
  unfold store. destruct (Nat.ltb_spec i (length a)) as [Hlt|Hge]; intros Heq;
    [split; congruence | discriminate].
Qed.

Lemma store_in_range {A} (a : list A) i x :
  (i < length a)%nat -> store a i x = Ok (<[i:=x]> a).
Proof. unfold store. destruct (Nat.ltb_spec i (length a)); [done | lia]. Qed.

Lemma for_loop_S {S} n (body : nat -> S -> result S) s :
  for_loop (Datatypes.S n) body s = for_loop n body s ≫= body n.
Proof. reflexivity. Qed.

(** Invariant rule for a loop that is known to have completed. *)
Lemma for_loop_inv {S} (P : nat -> S -> Prop) n (body : nat -> S -> result S) s r :
  P 0%nat s ->
  (forall i s s', (i < n)%nat -> P i s -> body i s = Ok s' -> P (Datatypes.S i) s') ->
  for_loop n body s = Ok r -> P n r.
Proof.
  intros H0 Hstep. revert r. induction n as [|n IH]; intros r Hr.
  - simpl in Hr. congruence.
  - rewrite for_loop_S in Hr. apply bind_Ok_inv in Hr as (s1 & H1 & H2).
    apply (Hstep n s1 r); [lia | | done].
    apply IH; [|done]. intros i u u' Hi. apply Hstep. lia.
Qed.

(** Invariant rule that also shows the loop completes. *)
Lemma for_loop_total {S} (P : nat -> S -> Prop) n (body : nat -> S -> result S) s :
  P 0%nat s ->
  (forall i s, (i < n)%nat -> P i s -> exists s', body i s = Ok s' /\ P (Datatypes.S i) s') ->
  exists r, for_loop n body s = Ok r /\ P n r.
Proof.
  intros H0 Hstep. induction n as [|n IH].
  - exists s. done.
  - destruct IH as (r & Hr & HP); [intros i u Hi; apply Hstep; lia|].
    destruct (Hstep n r) as (r' & Hr' & HP'); [lia | done |].
    exists r'. rewrite for_loop_S, Hr. done.
Qed.

(** The same two rules for a computation folded over a list. *)
Lemma fold_inv {A S} (P : list A -> S -> Prop) (step : A -> S -> result S)
    (l : list A) (s r : S) :
  P [] s ->
  (forall seen x s s',
     (exists rest, l = seen ++ x :: rest) ->
     P seen s -> step x s = Ok s' -> P (seen ++ [x]) s') ->
  foldl (fun r x => s ← r; step x s) (Ok s) l = Ok r -> P l r.
Proof.
  intros H0. revert r. induction l as [|x l IH] using rev_ind; intros r Hstep Hr.
  - simpl in Hr. congruence.
  - rewrite foldl_app in Hr. simpl in Hr.
    apply bind_Ok_inv in Hr as (s1 & H1 & H2).
    apply (Hstep l x s1 r); [by exists [] | | done].
    apply IH; [|done].
    intros seen y u u' [rest ->] Hu Hv. apply (Hstep seen y u u'); [|done..].
    exists (rest ++ [x]). by rewrite <- (assoc_L (++)).
Qed.

Lemma fold_total {A S} (P : list A -> S -> Prop) (step : A -> S -> result S)
    (l : list A) (s : S) :
  P [] s ->
  (forall seen x s,
     (exists rest, l = seen ++ x :: rest) ->
     P seen s -> exists s', step x s = Ok s' /\ P (seen ++ [x]) s') ->
  exists r, foldl (fun r x => s ← r; step x s) (Ok s) l = Ok r /\ P l r.
Proof.
  intros H0. induction l as [|x l IH] using rev_ind; intros Hstep.
  - exists s. done.
  - destruct IH as (r & Hr & HP).
    { intros seen y u [rest ->]. apply Hstep.
      exists (rest ++ [x]). by rewrite <- (assoc_L (++)). }
    destruct (Hstep l x r) as (r' & Hr' & HP'); [by exists [] | done |].
    exists r'. rewrite foldl_app. simpl. rewrite Hr. done.
Qed.

(** ** Small containers *)

Section OwnedFacts.
Context {T : Type} {N : nat}.
Implicit Type v : StaticVector.t T N.
Import StaticVector.

Lemma owned_push_full v value :
  size v = capacity v -> pushBack v value = AssertionFailed.
Proof.
  unfold pushBack, size, capacity, maxSize. intros ->.
  by rewrite Nat.ltb_irrefl.
Qed.

Lemma owned_emplace_full {Args} (ctor : Args -> T) args v :
  size v = capacity v -> emplaceBack ctor args v = AssertionFailed.
Proof.
  unfold emplaceBack, size, capacity, maxSize. intros ->.
  by rewrite Nat.ltb_irrefl.
Qed.

Lemma owned_push_room v value :
  wf v -> (size v < capacity v)%nat ->
  let v' := {| _data := <[_size v := value]> (_data v); _size := S (_size v) |} in
  pushBack v value = Ok v' /\ wf v' /\ size v' = S (size v) /\ back v' = Ok value.
Proof.
  unfold wf, pushBack, back, size, capacity, maxSize. intros [Hlen Hle] Hlt. simpl.
  destruct (Nat.ltb_spec (_size v) N); [|lia]. simpl.
  rewrite store_in_range by lia. simpl.
  rewrite length_insert. repeat split; try lia.
  rewrite Nat.sub_0_r, list_lookup_insert_eq by lia. done.
Qed.

Lemma owned_emplace_eq {Args} (ctor : Args -> T) args v :
  emplaceBack ctor args v = pushBack v (ctor args).
Proof. reflexivity. Qed.

Lemma owned_at_guard v pos :
  at_ v pos = AssertionFailed <-> (size v <= pos)%nat.
Proof.
  unfold at_. destruct (Nat.ltb_spec pos (size v)); simpl.
  - split; [|lia]. destruct (_data v !! pos); discriminate.
  - done.
Qed.

Lemma owned_front_guard v : front v = AssertionFailed <-> size v = 0%nat.
Proof.
  unfold front. destruct (Nat.ltb_spec 0 (size v)); simpl.
  - split; [|lia]. destruct (_data v !! 0%nat); discriminate.
  - split; [lia | done].
Qed.

Lemma owned_back_guard v : back v = AssertionFailed <-> size v = 0%nat.
Proof.
  unfold back. destruct (Nat.ltb_spec 0 (size v)); simpl.
  - split; [|lia]. destruct (_data v !! _); discriminate.
  - split; [lia | done].
Qed.

Lemma owned_at_in_size v pos :
  wf v -> (pos < size v)%nat -> exists x, _data v !! pos = Some x /\ at_ v pos = Ok x.
Proof.
  unfold wf, at_, size. intros [Hlen Hle] Hlt.
  destruct (lookup_lt_is_Some_2 (_data v) pos) as [x Hx]; [lia|].
  exists x. destruct (Nat.ltb_spec pos (_size v)); [|lia]. simpl. by rewrite Hx.
Qed.
End OwnedFacts.

Section BorrowedFacts.
Context {T : Type}.
Implicit Type v : UnmanagedStaticVector.t T.
Import UnmanagedStaticVector.

Lemma borrowed_push_full v value :
  size v = capacity v -> pushBack v value = AssertionFailed.
Proof.
  unfold pushBack, size, capacity, maxSize. intros ->.
  by rewrite Nat.ltb_irrefl.
Qed.

Lemma borrowed_emplace_full {Args} (ctor : Args -> T) args v :
  size v = capacity v -> emplaceBack ctor args v = AssertionFailed.
Proof.
  unfold emplaceBack, size, capacity, maxSize. intros ->.
  by rewrite Nat.ltb_irrefl.
Qed.

Lemma borrowed_push_room v value :
  wf v -> (size v < capacity v)%nat ->
  let v' := {| _ptr := <[_size v := value]> (_ptr v);
               _max_size := _max_size v; _size := S (_size v) |} in
  pushBack v value = Ok v' /\ wf v' /\ size v' = S (size v) /\ back v' = Ok value.
Proof.
  unfold wf, pushBack, back, size, capacity, maxSize. intros [Hlen Hle] Hlt. simpl.
  destruct (Nat.ltb_spec (_size v) (_max_size v)); [|lia]. simpl.
  rewrite store_in_range by lia. simpl.
  rewrite length_insert. repeat split; try lia.
  rewrite Nat.sub_0_r, list_lookup_insert_eq by lia. done.
Qed.

Lemma borrowed_emplace_eq {Args} (ctor : Args -> T) args v :
  emplaceBack ctor args v = pushBack v (ctor args).
Proof. reflexivity. Qed.

Lemma borrowed_at_guard v pos :
  at_ v pos = AssertionFailed <-> (size v <= pos)%nat.
Proof.
  unfold at_. destruct (Nat.ltb_spec pos (size v)); simpl.
  - split; [|lia]. destruct (_ptr v !! pos); discriminate.
  - done.
Qed.

Lemma borrowed_front_guard v : front v = AssertionFailed <-> size v = 0%nat.
Proof.
  unfold front. destruct (Nat.ltb_spec 0 (size v)); simpl.
  - split; [|lia]. destruct (_ptr v !! 0%nat); discriminate.
  - split; [lia | done].
Qed.

Lemma borrowed_back_guard v : back v = AssertionFailed <-> size v = 0%nat.
Proof.
  unfold back. destruct (Nat.ltb_spec 0 (size v)); simpl.
  - split; [|lia]. destruct (_ptr v !! _); discriminate.
  - split; [lia | done].
Qed.
End BorrowedFacts.

(** C4.  On a full fixed-capacity vector (owned [StaticVector<T, N>] or
    borrowed [UnmanagedStaticVector<T>]) [pushBack] and [emplaceBack] stop
    on the assertion; with room left they succeed, the size grows by
    exactly one and the value pushed (or constructed from the arguments)
    is the new [back()]. *)
Theorem pushBack_emplaceBack_bounded
    {T Args : Type} {N : nat} (ctor : Args -> T) (args : Args) (value : T)
    (vo : StaticVector.t T N) (vb : UnmanagedStaticVector.t T)
    (Ho : StaticVector.wf vo) (Hb : UnmanagedStaticVector.wf vb) :
  ((StaticVector.size vo = StaticVector.capacity vo ->
      StaticVector.pushBack vo value = AssertionFailed /\
      StaticVector.emplaceBack ctor args vo = AssertionFailed) /\
   ((StaticVector.size vo < StaticVector.capacity vo)%nat ->
      exists v1 v2,
        StaticVector.pushBack vo value = Ok v1 /\
        StaticVector.size v1 = S (StaticVector.size vo) /\
        StaticVector.back v1 = Ok value /\
        StaticVector.emplaceBack ctor args vo = Ok v2 /\
        StaticVector.size v2 = S (StaticVector.size vo) /\
        StaticVector.back v2 = Ok (ctor args))) /\
  ((UnmanagedStaticVector.size vb = UnmanagedStaticVector.capacity vb ->
      UnmanagedStaticVector.pushBack vb value = AssertionFailed /\
      UnmanagedStaticVector.emplaceBack ctor args vb = AssertionFailed) /\
   ((UnmanagedStaticVector.size vb < UnmanagedStaticVector.capacity vb)%nat ->
      exists v1 v2,
        UnmanagedStaticVector.pushBack vb value = Ok v1 /\
        UnmanagedStaticVector.size v1 = S (UnmanagedStaticVector.size vb) /\
        UnmanagedStaticVector.back v1 = Ok value /\
        UnmanagedStaticVector.emplaceBack ctor args vb = Ok v2 /\
        UnmanagedStaticVector.size v2 = S (UnmanagedStaticVector.size vb) /\
        UnmanagedStaticVector.back v2 = Ok (ctor args))).
Proof.
  split; split.
  - intros Hfull. split; [by apply owned_push_full | by apply owned_emplace_full].
  - intros Hroom.
    destruct (owned_push_room vo value Ho Hroom) as (H1 & _ & H2 & H3).
    destruct (owned_push_room vo (ctor args) Ho Hroom) as (H4 & _ & H5 & H6).
    eexists _, _. rewrite owned_emplace_eq. eauto 10.
  - intros Hfull. split; [by apply borrowed_push_full | by apply borrowed_emplace_full].
  - intros Hroom.
    destruct (borrowed_push_room vb value Hb Hroom) as (H1 & _ & H2 & H3).
    destruct (borrowed_push_room vb (ctor args) Hb Hroom) as (H4 & _ & H5 & H6).
    eexists _, _. rewrite borrowed_emplace_eq. eauto 10.
Qed.

(** C10.  Element access is guarded by the current size and not by the
    capacity: [operator[]] stops on the assertion exactly when
    [pos >= size()], whatever the capacity, and [front()] and [back()]
    exactly when the vector is empty. *)
Theorem element_access_guarded_by_size
    {T : Type} {N : nat} (vo : StaticVector.t T N) (vb : UnmanagedStaticVector.t T)
    (pos : nat) :
  ((StaticVector.at_ vo pos = AssertionFailed <-> (StaticVector.size vo <= pos)%nat) /\
   (StaticVector.front vo = AssertionFailed <-> StaticVector.size vo = 0%nat) /\
   (StaticVector.back vo = AssertionFailed <-> StaticVector.size vo = 0%nat)) /\
  ((UnmanagedStaticVector.at_ vb pos = AssertionFailed <->
      (UnmanagedStaticVector.size vb <= pos)%nat) /\
   (UnmanagedStaticVector.front vb = AssertionFailed <->
      UnmanagedStaticVector.size vb = 0%nat) /\
   (UnmanagedStaticVector.back vb = AssertionFailed <->
      UnmanagedStaticVector.size vb = 0%nat)).
Proof.
  repeat split;
    first [ apply owned_at_guard | apply owned_front_guard | apply owned_back_guard
          | apply borrowed_at_guard | apply borrowed_front_guard
          | apply borrowed_back_guard ].
Qed.

(** A full and a half-full vector of capacity 2, owned and borrowed. *)
Lemma pushBack_emplaceBack_bounded_witness :
  let full_o : StaticVector.t Z 2 := StaticVector.Build [1; 2] 2 in
  let room_o : StaticVector.t Z 2 := StaticVector.Build [1; 0] 1 in
  let full_b := UnmanagedStaticVector.Build [1; 2] 2 2 in
  let room_b := UnmanagedStaticVector.Build [1; 0] 2 1 in
  (StaticVector.pushBack full_o 9 = AssertionFailed /\
   StaticVector.emplaceBack Z.succ 8 full_o = AssertionFailed) /\
  (exists v1 v2,
     StaticVector.pushBack room_o 9 = Ok v1 /\
     StaticVector.size v1 = 2%nat /\ StaticVector.back v1 = Ok 9 /\
     StaticVector.emplaceBack Z.succ 8 room_o = Ok v2 /\
     StaticVector.size v2 = 2%nat /\ StaticVector.back v2 = Ok (Z.succ 8)) /\
  (UnmanagedStaticVector.pushBack full_b 9 = AssertionFailed /\
   UnmanagedStaticVector.emplaceBack Z.succ 8 full_b = AssertionFailed) /\
  (exists v1 v2,
     UnmanagedStaticVector.pushBack room_b 9 = Ok v1 /\
     UnmanagedStaticVector.size v1 = 2%nat /\ UnmanagedStaticVector.back v1 = Ok 9 /\
     UnmanagedStaticVector.emplaceBack Z.succ 8 room_b = Ok v2 /\
     UnmanagedStaticVector.size v2 = 2%nat /\
     UnmanagedStaticVector.back v2 = Ok (Z.succ 8)).
Proof.
  intros full_o room_o full_b room_b.
  assert (Hfo : StaticVector.wf full_o) by (split; simpl; lia).
  assert (Hro : StaticVector.wf room_o) by (split; simpl; lia).
  assert (Hfb : UnmanagedStaticVector.wf full_b) by (split; simpl; lia).
  assert (Hrb : UnmanagedStaticVector.wf room_b) by (split; simpl; lia).
  destruct (pushBack_emplaceBack_bounded Z.succ 8 9 full_o full_b Hfo Hfb)
    as [[Hfull_o _] [Hfull_b _]].
  destruct (pushBack_emplaceBack_bounded Z.succ 8 9 room_o room_b Hro Hrb)
    as [[_ Hroom_o] [_ Hroom_b]].
  split; [apply Hfull_o; reflexivity|].
  split; [apply Hroom_o; cbv; lia|].
  split; [apply Hfull_b; reflexivity|].
  apply Hroom_b; cbv; lia.
Defined.

(** Capacity 4, size 1: position 2 lies inside the storage and is still
    refused; an empty vector has neither front nor back. *)
Lemma element_access_guarded_by_size_witness :
  let one_o : StaticVector.t Z 4 := StaticVector.Build [7; 0; 0; 0] 1 in
  let none_o : StaticVector.t Z 4 := StaticVector.Build [7; 0; 0; 0] 0 in
  let one_b := UnmanagedStaticVector.Build [7; 0; 0; 0] 4 1 in
  let none_b := UnmanagedStaticVector.Build [7; 0; 0; 0] 4 0 in
  (2 < StaticVector.capacity one_o)%nat /\
  StaticVector.at_ one_o 2 = AssertionFailed /\
  StaticVector.front none_o = AssertionFailed /\
  StaticVector.back none_o = AssertionFailed /\
  (2 < UnmanagedStaticVector.capacity one_b)%nat /\
  UnmanagedStaticVector.at_ one_b 2 = AssertionFailed /\
  UnmanagedStaticVector.front none_b = AssertionFailed /\
  UnmanagedStaticVector.back none_b = AssertionFailed.
Proof.
  intros one_o none_o one_b none_b.
  destruct (element_access_guarded_by_size one_o one_b 2)
    as [(Ho & _ & _) (Hb & _ & _)].
  destruct (element_access_guarded_by_size none_o none_b 0)
    as [(_ & Hfo & Hbo) (_ & Hfb & Hbb)].
  split; [cbv; lia|].
  split; [apply Ho; cbv; lia|].
  split; [apply Hfo; reflexivity|].
  split; [apply Hbo; reflexivity|].
  split; [cbv; lia|].
  split; [apply Hb; cbv; lia|].
  split; [apply Hfb; reflexivity|].
  apply Hbb; reflexivity.
Defined.

(** ** Cartesian grid *)

Section GridFacts.
Import CartesianGrid.

(** [hi == lo] leaves two possibilities for [hi - lo]: a zero, or the
    NaN that two equal infinities give. *)
Lemma fsub_of_equal (hi lo : float) :
  SFeqb hi lo = true ->
  fne (fsub hi lo) fzero = false \/ fsub hi lo = S754_nan.
Proof.
  unfold SFeqb. destruct hi as [s1|s1| |s1 m1 e1], lo as [s2|s2| |s2 m2 e2];
    simpl; try discriminate;
    try (destruct s1, s2; simpl; try discriminate; intros _;
         first [by left | by right]).
  intros H. left.
  assert (s1 = s2 /\ e1 = e2 /\ m1 = m2) as (-> & -> & ->).
  { destruct s1, s2; try discriminate;
      destruct (Z.compare_spec e1 e2); try discriminate;
      rewrite Pos.compare_cont_spec in H; simpl in H;
      destruct (Pos.compare_spec m1 m2); try discriminate; done. }
    unfold fsub, SFsub. rewrite Z.sub_diag. reflexivity.
Qed.

Lemma float_to_size_t_Ok x z :
  float_to_size_t x = Ok z -> 0 <= z <= max_size_t.
Proof.
  unfold float_to_size_t. destruct (trunc_Z x) as [t|]; [|discriminate].
  destruct (Z.leb_spec 0 t), (Z.leb_spec t max_size_t); simpl;
    intros Heq; inversion Heq; subst; lia.
Qed.

Lemma float_to_size_t_nan : float_to_size_t (ceil (fdiv S754_nan S754_nan)) = Undefined.
Proof. reflexivity. Qed.

Variable DIM : nat.

Lemma counted_insert bounds i n c :
  (i < length n)%nat -> counted bounds i n -> 1 <= c <= max_size_t ->
  (forall hi lo, maxCorner bounds !! i = Some hi ->
                 minCorner bounds !! i = Some lo ->
                 SFeqb hi lo = true -> c = 1) ->
  counted bounds (S i) (<[i:=c]> n).
Proof.
  intros Hi Hn Hc Heq d Hd. destruct (decide (d = i)) as [->|Hne].
  - exists c. rewrite list_lookup_insert_eq by done. done.
  - rewrite list_lookup_insert_ne by done. apply Hn. lia.
Qed.

Lemma buildGrid_counts_spec bounds h n0 n :
  buildGrid_counts DIM bounds h n0 = Ok n ->
  length n = length n0 /\ counted bounds DIM n.
Proof.
  unfold buildGrid_counts.
  apply (for_loop_inv (fun i n => length n = length n0 /\ counted bounds i n)).
  - split; [done|]. intros d Hd. lia.
  - intros i s s' Hi [Hlen Hs] Hbody.
    apply bind_Ok_inv in Hbody as (hi & Hhi%deref_Ok_inv & Hbody).
    apply bind_Ok_inv in Hbody as (lo & Hlo%deref_Ok_inv & Hbody).
    destruct (fne (fsub hi lo) fzero) eqn:Hne.
    + apply bind_Ok_inv in Hbody as (hd & _ & Hbody).
      apply bind_Ok_inv in Hbody as (c & Hc & Hbody).
      apply bind_Ok_inv in Hbody as (s1 & [Hlt ->]%store_Ok_inv & Hbody).
      apply bind_Ok_inv in Hbody as (nd & Hnd%deref_Ok_inv & Hbody).
      apply bind_Ok_inv in Hbody as (u & Hpos%assert_Ok_inv & Hbody).
      inversion Hbody; subst s'. clear Hbody.
      rewrite list_lookup_insert_eq in Hnd by done. inversion Hnd; subst nd.
      apply Z.ltb_lt in Hpos. pose proof (float_to_size_t_Ok _ _ Hc) as Hrange.
      split; [by rewrite length_insert|].
      apply counted_insert; [done | done | lia |].
      intros hi' lo' Hhi' Hlo' Heq.
      pose proof (eq_trans (eq_sym Hhi) Hhi') as Ehi. inversion Ehi; subst hi'.
      pose proof (eq_trans (eq_sym Hlo) Hlo') as Elo. inversion Elo; subst lo'.
      destruct (fsub_of_equal _ _ Heq) as [Hz|Hnan]; [congruence|].
      rewrite Hnan in Hc. destruct hd; discriminate.
    + apply store_Ok_inv in Hbody as [Hlt ->].
      split; [by rewrite length_insert|].
      apply counted_insert; [done | done | unfold max_size_t; lia | done].
Qed.

Lemma cell_count_snoc n c : cell_count (n ++ [c]) = cell_count n * c.
Proof.
  unfold cell_count. induction n as [|x n IH]; simpl; [lia|]. rewrite IH. lia.
Qed.

Lemma cell_count_take_S n k c :
  n !! k = Some c -> cell_count (take (S k) n) = cell_count (take k n) * c.
Proof. intros H. rewrite (take_S_r _ _ _ H). apply cell_count_snoc. Qed.

Lemma cell_count_pos bounds n k :
  counted bounds DIM n -> (k <= DIM)%nat -> 1 <= cell_count (take k n).
Proof.
  intros Hn. induction k as [|k IH]; intros Hk.
  - rewrite take_0. unfold cell_count. simpl. lia.
  - destruct (Hn k) as (c & Hc & Hr & _); [lia|].
    rewrite (cell_count_take_S _ _ _ Hc). specialize (IH ltac:(lia)). nia.
Qed.

Lemma buildGrid_check_step bounds n k m c :
  counted bounds DIM n -> (S k < DIM)%nat -> checked n k m ->
  n !! S k = Some c ->
  let m' := max_size_t / cell_count (take (S k) n) in
  (c <? m') = true -> checked n (S k) m'.
Proof.
  intros Hn Hk [Hm Hle] Hc m' Hlt. apply Z.ltb_lt in Hlt.
  destruct (Hn (S k)) as (c' & Hc' & Hr & _); [lia|].
  rewrite Hc in Hc'. inversion Hc'; subst c'.
  pose proof (cell_count_pos bounds n (S k) Hn ltac:(lia)) as Hpos.
  split; [done|].
  rewrite (cell_count_take_S _ _ _ Hc).
  subst m'. set (P := cell_count (take (S k) n)) in *.
  assert (P * (c + 1) <= max_size_t); [|nia].
  etransitivity; [|apply (Z.mul_div_le max_size_t P); lia].
  apply Z.mul_le_mono_nonneg_l; lia.
Qed.

(** The check loop reads only initialised counts and never divides by
    zero: it completes or stops on its assertion, and when it
    completes the product of the counts fits in [size_t]. *)
Lemma buildGrid_check_rounds bounds n k :
  counted bounds DIM n -> (1 <= DIM)%nat -> (k <= DIM - 1)%nat ->
  let body := fun (i : nat) (m : Z) =>
    prev ← deref (n !! (S i - 1)%nat);
    m ← (if prev =? 0 then Undefined else Ok (m / prev));
    nd ← deref (n !! S i);
    _ ← assert_ (nd <? m);
    Ok m in
  (exists m, for_loop k body max_size_t = Ok m /\ checked n k m) \/
  for_loop k body max_size_t = AssertionFailed.
Proof.
  intros Hn HDIM. induction k as [|k IH]; intros Hk body.
  - left. exists max_size_t. split; [done|]. split.
    + rewrite take_0. unfold cell_count. simpl. by rewrite Z.div_1_r.
    + destruct (Hn 0%nat) as (c & Hc & Hr & _); [lia|].
      rewrite (cell_count_take_S _ _ _ Hc), take_0. unfold cell_count. simpl. lia.
  - rewrite for_loop_S. specialize (IH ltac:(lia)). cbv zeta in IH. fold body in IH.
    destruct IH as [(m & Hfl & Hm)|Hfl]; rewrite Hfl; [|by right].
    simpl. unfold body. replace (S k - 1)%nat with k by lia.
    destruct (Hn k) as (prev & Hprev & Hrp & _); [lia|].
    destruct (Hn (S k)) as (c & Hc & Hrc & _); [lia|].
    rewrite Hprev. simpl.
    destruct (Z.eqb_spec prev 0) as [?|_]; [lia|]. simpl. rewrite Hc. simpl.
    assert (m / prev = max_size_t / cell_count (take (S k) n)) as Hdiv.
    { destruct Hm as [-> _]. rewrite (cell_count_take_S _ _ _ Hprev).
      pose proof (cell_count_pos bounds n k Hn ltac:(lia)).
      rewrite Z.div_div by lia. done. }
    rewrite Hdiv.
    destruct (c <? max_size_t / cell_count (take (S k) n)) eqn:Hlt; simpl.
    + left. eexists. split; [done|].
      apply (buildGrid_check_step bounds n k m c); [done | lia | done..].
    + by right.
Qed.

Lemma buildGrid_check_outcome bounds n :
  counted bounds DIM n ->
  (exists m, buildGrid_check DIM n = Ok m /\
               cell_count (take DIM n) <= max_size_t) \/
  buildGrid_check DIM n = AssertionFailed.
Proof.
  intros Hn. destruct DIM as [|D] eqn:HD.
  - left. exists max_size_t. split; [done|]. rewrite take_0. done.
  - rewrite <- HD in *.
    destruct (buildGrid_check_rounds bounds n (DIM - 1) Hn) as [(m & Hm & Hc)|Hf];
      [lia | lia | |].
    + left. exists m. split; [done|]. destruct Hc as [_ Hc].
      by replace (S (DIM - 1)) with DIM in Hc by lia.
    + by right.
Qed.

Lemma buildGrid_Ok g g' :
  buildGrid DIM g = Ok g' ->
  _bounds g' = _bounds g /\ _h g' = _h g /\
  buildGrid_counts DIM (_bounds g) (_h g) (_n g) = Ok (_n g') /\
  counted (_bounds g) DIM (_n g') /\
  cell_count (take DIM (_n g')) <= max_size_t.
Proof.
  unfold buildGrid. intros H.
  apply bind_Ok_inv in H as (n & Hn & H).
  apply bind_Ok_inv in H as (m & Hm & H). inversion H; subst g'; simpl.
  destruct (buildGrid_counts_spec _ _ _ _ Hn) as [_ Hcounted].
  repeat split; try done.
  destruct (buildGrid_check_outcome _ _ Hcounted) as [(m' & _ & Hle)|Hf];
    [done | congruence].
Qed.

Lemma constructed_buildGrid g :
  constructed DIM g -> exists g0, buildGrid DIM g0 = Ok g.
Proof.
  intros (bounds & raw & [[h H]|[h H]]).
  - unfold make_uniform in H.
    apply bind_Ok_inv in H as (u & _ & H).
    apply bind_Ok_inv in H as (hs & _ & H). eauto.
  - unfold make_array in H.
    apply bind_Ok_inv in H as (hs & _ & H). eauto.
Qed.

Lemma invoke_all_const g rs : invoke_all DIM g rs = g.
Proof.
  unfold invoke_all. induction rs as [|r rs IH]; simpl; [done|].
  by destruct r.
Qed.
End GridFacts.

(** C9.  A grid returned by either constructor has at least one cell on
    every axis; an axis on which the two corners of the bounds compare
    equal has exactly one; and no member function changes the grid, so
    the extents stay what construction made them. *)
Theorem extent_at_least_one (DIM : nat) (g : CartesianGrid.t) (d : nat)
    (Hg : CartesianGrid.constructed DIM g) (Hd : (d < DIM)%nat) :
  (exists n, CartesianGrid.extent DIM g (Z.of_nat d) = Ok n /\ 1 <= n /\
     (forall hi lo,
        CartesianGrid.maxCorner (CartesianGrid._bounds g) !! d = Some hi ->
        CartesianGrid.minCorner (CartesianGrid._bounds g) !! d = Some lo ->
        SFeqb hi lo = true -> n = 1)) /\
  (forall rs, CartesianGrid.invoke_all DIM g rs = g).
Proof.
  split; [|intros rs; apply invoke_all_const].
  destruct (constructed_buildGrid DIM g Hg) as (g0 & Hb).
  destruct (buildGrid_Ok DIM g0 g Hb) as (Hbounds & _ & _ & Hcounted & _).
  destruct (Hcounted d Hd) as (c & Hc & Hr & Heq).
  exists c. unfold CartesianGrid.extent.
  destruct (Z.leb_spec 0 (Z.of_nat d)); [|lia].
  destruct (Z.ltb_spec (Z.of_nat d) (Z.of_nat DIM)); [|lia]. simpl.
  rewrite Nat2Z.id, Hc. simpl. split; [done|]. split; [lia|].
  rewrite Hbounds. done.
Qed.

(** A 2 x 1 grid: bounds [0,2] x [5,5] with unit spacing. *)
Lemma extent_at_least_one_witness :
  let f := CartesianGrid.float_of_Z in
  let bounds := {| CartesianGrid.minCorner := [f 0; f 5];
                   CartesianGrid.maxCorner := [f 2; f 5] |} in
  let g := CartesianGrid.Build bounds [f 1; f 1] [2; 1] in
  CartesianGrid.constructed 2 g /\
  CartesianGrid.extent 2 g 0 = Ok 2 /\
  (exists n, CartesianGrid.extent 2 g 1 = Ok n /\ 1 <= n /\ n = 1).
Proof.
  intros f bounds g.
  assert (Hg : CartesianGrid.constructed 2 g).
  { exists bounds, (CartesianGrid.Build bounds [f 0; f 0] [0; 0]).
    left. exists (f 1). reflexivity. }
  split; [exact Hg|]. split; [reflexivity|].
  destruct (extent_at_least_one 2 g 1 Hg ltac:(lia)) as [(n & Hn & Hge & Heq) _].
  exists n. split; [exact Hn|]. split; [exact Hge|].
  apply (Heq (f 5) (f 5)); reflexivity.
Defined.

(** C5, amended.  When the first loop of [buildGrid] completes, that is
    when every per-axis cell count converts to a [size_t] and is
    positive, [buildGrid] refuses, on its assertion, counts whose
    product does not fit in [size_t] (which takes two axes at least);
    and no constructed grid has such a product. *)
Theorem buildGrid_overflow_check (DIM : nat) (g : CartesianGrid.t) (n : list Z)
    (Hcounts : CartesianGrid.buildGrid_counts DIM (CartesianGrid._bounds g)
                 (CartesianGrid._h g) (CartesianGrid._n g) = Ok n)
    (Hover : CartesianGrid.max_size_t < CartesianGrid.cell_count (take DIM n)) :
  CartesianGrid.buildGrid DIM g = AssertionFailed /\
  (forall g', CartesianGrid.constructed DIM g' ->
     CartesianGrid.cell_count (take DIM (CartesianGrid._n g'))
       <= CartesianGrid.max_size_t).
Proof.
  split.
  - unfold CartesianGrid.buildGrid. rewrite Hcounts. simpl.
    destruct (buildGrid_counts_spec DIM _ _ _ _ Hcounts) as [_ Hcounted].
    destruct (buildGrid_check_outcome DIM _ _ Hcounted) as [(m & _ & Hle)|Hf].
    + lia.
    + by rewrite Hf.
  - intros g' Hg'. destruct (constructed_buildGrid DIM g' Hg') as (g0 & Hb).
    by destruct (buildGrid_Ok DIM g0 g' Hb) as (_ & _ & _ & _ & Hle).
Qed.

(** Bounds [0, 2^22]^3 with unit spacing: 2^22 cells per axis, 2^66 in
    all. *)
Lemma buildGrid_overflow_check_witness :
  let f := CartesianGrid.float_of_Z in
  let bounds := {| CartesianGrid.minCorner := [f 0; f 0; f 0];
                   CartesianGrid.maxCorner := [f 4194304; f 4194304; f 4194304] |} in
  let g := CartesianGrid.Build bounds [f 1; f 1; f 1] [0; 0; 0] in
  CartesianGrid.buildGrid_counts 3 bounds [f 1; f 1; f 1] [0; 0; 0]
    = Ok [4194304; 4194304; 4194304] /\
  CartesianGrid.buildGrid 3 g = AssertionFailed.
Proof.
  intros f bounds g.
  assert (Hc : CartesianGrid.buildGrid_counts 3 (CartesianGrid._bounds g)
                 (CartesianGrid._h g) (CartesianGrid._n g)
               = Ok [4194304; 4194304; 4194304]) by (vm_compute; reflexivity).
  split; [exact Hc|].
  apply (buildGrid_overflow_check 3 g _ Hc). vm_compute. reflexivity.
Defined.

(** C5 as stated fails where a single axis already has more cells than
    a [size_t] holds.  The bounds [0, 1] with spacing 2^-70 call for
    2^70 cells; so do the bounds [0, 2^70] x [0, 8] with spacing 1 along
    their first axis.  In both the conversion of the count to [size_t]
    in the first loop is undefined and no assertion is reached. *)
Lemma buildGrid_axis_count_overflow :
  let f := CartesianGrid.float_of_Z in
  let h := CartesianGrid.fdiv (f 1) (f (2 ^ 70)) in
  let line := {| CartesianGrid.minCorner := [f 0];
                 CartesianGrid.maxCorner := [f 1] |} in
  let plane := {| CartesianGrid.minCorner := [f 0; f 0];
                  CartesianGrid.maxCorner := [f (2 ^ 70); f 8] |} in
  CartesianGrid.ceil_Z (CartesianGrid.fdiv (CartesianGrid.fsub (f 1) (f 0)) h)
    = Some (2 ^ 70) /\
  CartesianGrid.max_size_t < 2 ^ 70 /\
  CartesianGrid.make_uniform 1 line h (CartesianGrid.Build line [f 0] [0])
    = Undefined /\
  CartesianGrid.make_uniform 2 plane (f 1)
      (CartesianGrid.Build plane [f 0; f 0] [0; 0])
    = Undefined.
Proof.
  intros f h line plane. split; [vm_compute; reflexivity|].
  split; [vm_compute; reflexivity|]. split; vm_compute; reflexivity.
Qed.

(** The uniform-spacing constructor checks the spacing it is given ... *)
Lemma make_uniform_checks_argument (DIM : nat) bounds h raw :
  CartesianGrid.fgt h CartesianGrid.fzero = false ->
  CartesianGrid.make_uniform DIM bounds h raw = AssertionFailed.
Proof. unfold CartesianGrid.make_uniform. by intros ->. Qed.

(** ... while in the per-axis constructor the outcome of the spacing
    assertions is decided by what the member [_h] held before
    construction: with positive stale contents the loop accepts any
    spacings whatsoever. *)
Lemma make_array_checks_member (DIM : nat) (h stale : list CartesianGrid.float) :
  length h = DIM -> length stale = DIM ->
  Forall (fun x => CartesianGrid.fgt x CartesianGrid.fzero = true) stale ->
  for_loop DIM (fun d _h =>
      member ← deref (_h !! d);
      _ ← assert_ (CartesianGrid.fgt member CartesianGrid.fzero);
      hd ← deref (h !! d);
      store _h d hd) stale = Ok h.
Proof.
  intros Hh Hs Hpos.
  match goal with |- for_loop _ ?body _ = _ =>
    destruct (for_loop_total (fun i s => s = take i h ++ drop i stale) DIM body stale)
      as (r & Hr & ->); [reflexivity | | ]
  end.
  - intros i s Hi ->.
    destruct (lookup_lt_is_Some_2 stale i) as [x Hx]; [lia|].
    destruct (lookup_lt_is_Some_2 h i) as [y Hy]; [lia|].
    assert (Hlen : length (take i h) = i) by (rewrite length_take; lia).
    eexists. split.
    + rewrite lookup_app_r by lia. rewrite Hlen, Nat.sub_diag, lookup_drop, Nat.add_0_r, Hx.
      simpl. rewrite (proj1 (Forall_lookup _ _) Hpos i x Hx). simpl.
      rewrite Hy. simpl. apply store_in_range.
      rewrite length_app, length_drop. lia.
    + rewrite (take_S_r _ _ _ Hy), <- (assoc_L (++)). simpl.
      rewrite insert_app_r_alt by lia. rewrite Hlen, Nat.sub_diag.
      rewrite (drop_S _ _ _ Hx). done.
  - rewrite Hr, take_ge, drop_ge by lia. by rewrite app_nil_r.
Qed.

(** C8 (per-axis constructor).  Stale member contents [1, 1]: the
    constructor accepts the spacings [-1, -1] and returns a grid that
    carries them; stale contents [0, 0]: it rejects the positive
    spacings [1, 1].  The uniform constructor rejects [-1]. *)
Lemma make_array_spacing_unchecked :
  let f := CartesianGrid.float_of_Z in
  let bounds := {| CartesianGrid.minCorner := [f 3; f 3];
                   CartesianGrid.maxCorner := [f 3; f 3] |} in
  CartesianGrid.make_array 2 bounds [f (-1); f (-1)]
      (CartesianGrid.Build bounds [f 1; f 1] [0; 0])
    = Ok (CartesianGrid.Build bounds [f (-1); f (-1)] [1; 1]) /\
  CartesianGrid.make_array 2 bounds [f 1; f 1]
      (CartesianGrid.Build bounds [f 0; f 0] [0; 0])
    = AssertionFailed /\
  CartesianGrid.make_uniform 2 bounds (f (-1))
      (CartesianGrid.Build bounds [f 1; f 1] [0; 0])
    = AssertionFailed.
Proof. vm_compute. done. Qed.

(** ** The driver: command line *)

Section CommandLineFacts.
Import Driver.

(** [parse] writes only the variables of the options it is given. *)
Lemma parse_not_supplied name argv clp :
  ~ supplied name argv ->
  options (parse argv clp).2 !! name = options clp !! name.
Proof.
  revert clp. induction argv as [|a argv IH]; intros clp Hns; [done|].
  assert (Hrest : ~ supplied name argv).
  { intros [v Hv]. apply Hns. exists v. apply elem_of_cons. by right. }
  destruct a as [|name' value]; simpl; [done|].
  destruct (options clp !! name') as [var|] eqn:Hvar.
  - destruct (same_kind var value); [|done].
    rewrite IH by done. simpl. apply lookup_insert_ne.
    intros ->. apply Hns. exists value. apply elem_of_cons. by left.
  - destruct (recognise_all clp); [done|]. by apply IH.
Qed.

Lemma main_settings_lookup clp argv name :
  ~ supplied name argv ->
  let registered :=
    recogniseAllOptions true
      (setOption "mode" (StringValue "radius")
        (setOption "N" (IntValue 100)
          (setOption "nz" (IntValue 11)
            (setOption "ny" (IntValue 11)
              (setOption "nx" (IntValue 11) clp))))) in
  options (parse argv registered).2 !! name = options registered !! name.
Proof. intros Hns registered. by apply parse_not_supplied. Qed.
End CommandLineFacts.

(** C6.  Whatever the command line, an option of [main_] that it does
    not supply keeps its default: 11 for [nx], [ny] and [nz], 100 for
    [N], "radius" for [mode]. *)
Theorem main_option_defaults (clp : Driver.CommandLineProcessor)
    (argv : list Driver.argument) :
  let s := (Driver.main_settings clp argv).2 in
  (~ Driver.supplied "nx" argv -> Driver.nx s = 11) /\
  (~ Driver.supplied "ny" argv -> Driver.ny s = 11) /\
  (~ Driver.supplied "nz" argv -> Driver.nz s = 11) /\
  (~ Driver.supplied "N" argv -> Driver.n_points s = 100) /\
  (~ Driver.supplied "mode" argv -> Driver.mode s = "radius").
Proof.
  unfold Driver.main_settings.
  pose proof (fun name => main_settings_lookup clp argv name) as Hl.
  cbv zeta in Hl.
  destruct (Driver.parse argv _) as [status clp'] eqn:Hp. simpl in *.
  unfold Driver.int_option, Driver.string_option.
  repeat split; intros Hns; rewrite (Hl _ Hns);
    repeat (rewrite lookup_insert_ne by discriminate);
    by rewrite lookup_insert_eq.
Qed.

(** No arguments at all, and [--nx=5] alone. *)
Lemma main_option_defaults_witness :
  let s := (Driver.main_settings Driver.main_clp []).2 in
  let s' := (Driver.main_settings Driver.main_clp
               [Driver.Option_ "nx" (Driver.IntValue 5)]).2 in
  (Driver.nx s = 11 /\ Driver.ny s = 11 /\ Driver.nz s = 11 /\
   Driver.n_points s = 100 /\ Driver.mode s = "radius") /\
  (Driver.nx s' = 5 /\ Driver.ny s' = 11 /\ Driver.nz s' = 11 /\
   Driver.n_points s' = 100 /\ Driver.mode s' = "radius").
Proof.
  intros s s'.
  assert (Hnone : forall name, ~ Driver.supplied name []).
  { intros name [v Hv]. by apply elem_of_nil in Hv. }
  assert (Hnx : forall name, name <> "nx" ->
            ~ Driver.supplied name [Driver.Option_ "nx" (Driver.IntValue 5)]).
  { intros name Hne [v Hv]. apply list_elem_of_singleton in Hv. congruence. }
  destruct (main_option_defaults Driver.main_clp []) as (H1 & H2 & H3 & H4 & H5).
  destruct (main_option_defaults Driver.main_clp
              [Driver.Option_ "nx" (Driver.IntValue 5)]) as (_ & G2 & G3 & G4 & G5).
  split.
  - split; [apply H1, Hnone|]. split; [apply H2, Hnone|].
    split; [apply H3, Hnone|]. split; [apply H4, Hnone | apply H5, Hnone].
  - split; [vm_compute; reflexivity|].
    split; [apply G2, Hnx; discriminate|]. split; [apply G3, Hnx; discriminate|].
    split; [apply G4, Hnx; discriminate | apply G5, Hnx; discriminate].
Defined.

(** ** The driver: views and [int] arithmetic *)

Section ViewFacts.
Import Driver.

Lemma int_of_Ok z r : int_of z = Ok r -> r = z /\ INT_MIN <= z <= INT_MAX.
Proof.
  unfold int_of, in_int.
  destruct (Z.leb_spec INT_MIN z), (Z.leb_spec z INT_MAX); simpl;
    intros Heq; inversion Heq; lia.
Qed.

Lemma int_of_in z : INT_MIN <= z <= INT_MAX -> int_of z = Ok z.
Proof.
  unfold int_of, in_int. intros [H1 H2].
  destruct (Z.leb_spec INT_MIN z), (Z.leb_spec z INT_MAX); simpl; try lia. done.
Qed.

Lemma view_get_nat v (i : nat) : view_get v (Z.of_nat i) = deref (v !! i).
Proof.
  unfold view_get. destruct (Z.leb_spec 0 (Z.of_nat i)); [|lia].
  by rewrite Nat2Z.id.
Qed.

Lemma view_set_nat v (i : nat) x : view_set v (Z.of_nat i) x = store v i x.
Proof.
  unfold view_set. destruct (Z.leb_spec 0 (Z.of_nat i)); [|lia].
  by rewrite Nat2Z.id.
Qed.

Lemma view_get_Ok v i x :
  view_get v i = Ok x -> 0 <= i /\ v !! Z.to_nat i = Some x.
Proof.
  unfold view_get. destruct (Z.leb_spec 0 i); [|discriminate].
  intros Hd%deref_Ok_inv. done.
Qed.

Lemma view_set_Ok v i x v' :
  view_set v i x = Ok v' ->
  0 <= i /\ (Z.to_nat i < length v)%nat /\ v' = <[Z.to_nat i := x]> v.
Proof.
  unfold view_set. destruct (Z.leb_spec 0 i); [|discriminate].
  intros [? ?]%store_Ok_inv. done.
Qed.

Lemma Kokkos_resize_Ok v n r :
  Kokkos_resize v n = Ok r -> 0 <= n /\ r = resize (Z.to_nat n) 0 v.
Proof.
  unfold Kokkos_resize. destruct (Z.leb_spec 0 n); intros Heq; inversion Heq. done.
Qed.

Lemma sumZ_app l1 l2 : sumZ (l1 ++ l2) = sumZ l1 + sumZ l2.
Proof. unfold sumZ. induction l1 as [|x l1 IH]; simpl; lia. Qed.

Lemma sumZ_take_S l i x :
  l !! i = Some x -> sumZ (take (S i) l) = sumZ (take i l) + x.
Proof.
  intros H. rewrite (take_S_r _ _ _ H), sumZ_app. unfold sumZ. simpl. lia.
Qed.

(** *** Execution spaces *)

Lemma valid_space_elem space n i : valid_space space -> i ∈ space n <-> (i < n)%nat.
Proof. intros Hv. rewrite (Hv n), elem_of_seq. lia. Qed.

Lemma Serial_valid : valid_space Serial.
Proof. intros n. done. Qed.

(** *** Initialisation *)

(** The loop labelled "set all entries to zero" returns the view as it
    found it. *)
Lemma query_init_loop policy offset :
  Forall (fun i => (i < length offset)%nat) policy ->
  parallel_for policy (fun i offset => _ ← view_get offset i; Ok offset) offset
    = Ok offset.
Proof.
  unfold parallel_for. induction 1 as [|i policy Hi _ IH]; [done|].
  simpl. rewrite view_get_nat.
  destruct (lookup_lt_is_Some_2 offset i) as [x ->]; [done|]. apply IH.
Qed.

Lemma query_init_eq space n_queries offset :
  valid_space space ->
  -1 <= n_queries -> n_queries + 1 <= INT_MAX ->
  query_init space n_queries offset = Ok (resize (Z.to_nat (n_queries + 1)) 0 offset).
Proof.
  intros Hspace Hlo Hhi. unfold query_init, int_add.
  rewrite int_of_in by (unfold INT_MIN; lia). simpl.
  unfold Kokkos_resize. destruct (Z.leb_spec 0 (n_queries + 1)); [|lia]. simpl.
  apply query_init_loop. apply Forall_forall. intros i Hi.
  apply (valid_space_elem _ _ _ Hspace) in Hi. by rewrite length_resize.
Qed.

Lemma query_init_Ok space n_queries offset r :
  valid_space space ->
  query_init space n_queries offset = Ok r ->
  -1 <= n_queries /\ n_queries + 1 <= INT_MAX /\
  r = resize (Z.to_nat (n_queries + 1)) 0 offset.
Proof.
  intros Hspace H. assert (-1 <= n_queries /\ n_queries + 1 <= INT_MAX) as [Hlo Hhi].
  { unfold query_init in H.
    apply bind_Ok_inv in H as (n1 & [-> Hr]%int_of_Ok & H).
    apply bind_Ok_inv in H as (o & [Hpos _]%Kokkos_resize_Ok & _). lia. }
  rewrite query_init_eq in H by done. inversion H. done.
Qed.

(** A view that already has [n_queries + 1] entries comes out of the
    initialisation with its old contents. *)
Lemma query_init_keeps space (Q : nat) offset :
  valid_space space ->
  length offset = S Q -> Z.of_nat Q + 1 <= INT_MAX ->
  query_init space (Z.of_nat Q) offset = Ok offset.
Proof.
  intros Hspace Hlen Hhi. rewrite query_init_eq by (done || lia).
  replace (Z.to_nat (Z.of_nat Q + 1)) with (S Q) by lia.
  by rewrite <- Hlen, resize_all.
Qed.

(** Started from an empty view, the entries are the zeros that
    [Kokkos::resize] put there. *)
Lemma query_init_empty space (Q : nat) :
  valid_space space ->
  Z.of_nat Q + 1 <= INT_MAX ->
  query_init space (Z.of_nat Q) [] = Ok (replicate (S Q) 0).
Proof.
  intros Hspace Hhi. rewrite query_init_eq by (done || lia).
  replace (Z.to_nat (Z.of_nat Q + 1)) with (S Q) by lia. by rewrite resize_nil.
Qed.

(** *** Scan *)

Lemma query_scan_unfold (Q : nat) off0 :
  Z.of_nat Q + 1 <= INT_MAX ->
  query_scan (Z.of_nat Q) off0 = snd <$> for_loop (S Q) scan_body (0, off0).
Proof.
  intros Hhi. unfold query_scan, int_add.
  rewrite int_of_in by (unfold INT_MIN; lia). simpl.
  unfold parallel_scan. replace (Z.to_nat (Z.of_nat Q + 1)) with (S Q) by lia.
  reflexivity.
Qed.

Lemma scan_body_eq off0 i u s x :
  scan_inv off0 i (u, s) -> off0 !! i = Some x ->
  scan_body i (u, s) = (u' ← int_add u x; Ok (u', <[i:=u]> s)) /\
  scan_inv off0 (S i) (u + x, <[i:=u]> s).
Proof.
  intros (Hu & Hlen & Hlo & Hhi) Hx. simpl in *.
  assert (Hi : (i < length s)%nat).
  { rewrite Hlen. by eapply lookup_lt_Some. }
  split.
  - rewrite view_get_nat, Hhi, Hx by lia. simpl.
    rewrite view_set_nat, store_in_range by done. done.
  - split; [|split; [|split]]; simpl.
    + rewrite (sumZ_take_S _ _ _ Hx). lia.
    + by rewrite length_insert.
    + intros q Hq. destruct (decide (q = i)) as [->|Hne].
      * rewrite list_lookup_insert_eq by done. by rewrite Hu.
      * rewrite list_lookup_insert_ne by done. apply Hlo. lia.
    + intros q Hq. rewrite list_lookup_insert_ne by lia. apply Hhi. lia.
Qed.

Lemma scan_inv_0 off0 : scan_inv off0 0 (0, off0).
Proof. repeat split; simpl; try done. intros q Hq. lia. Qed.

Lemma scan_loop_Ok off0 n st :
  (n <= length off0)%nat ->
  for_loop n scan_body (0, off0) = Ok st ->
  scan_inv off0 n st /\
  (forall q, (1 <= q <= n)%nat -> INT_MIN <= sumZ (take q off0) <= INT_MAX).
Proof.
  intros Hn. revert st. induction n as [|n IH]; intros st Hst.
  - inversion Hst. split; [apply scan_inv_0 | lia].
  - rewrite for_loop_S in Hst. apply bind_Ok_inv in Hst as ([u s] & Hprev & Hst).
    destruct (IH ltac:(lia) _ Hprev) as [Hinv Hrange].
    destruct (lookup_lt_is_Some_2 off0 n) as [x Hx]; [lia|].
    destruct (scan_body_eq off0 n u s x Hinv Hx) as [Heq Hinv'].
    rewrite Heq in Hst. apply bind_Ok_inv in Hst as (u' & [-> Hr]%int_of_Ok & Hst).
    inversion Hst; subst st. split; [done|].
    intros q Hq. destruct (decide (q = S n)) as [->|Hne]; [|apply Hrange; lia].
    rewrite (sumZ_take_S _ _ _ Hx). destruct Hinv as [Hu _]. simpl in Hu. lia.
Qed.

Lemma scan_loop_total off0 n :
  (n <= length off0)%nat ->
  (forall q, (1 <= q <= n)%nat -> INT_MIN <= sumZ (take q off0) <= INT_MAX) ->
  exists st, for_loop n scan_body (0, off0) = Ok st /\ scan_inv off0 n st.
Proof.
  intros Hn Hrange. induction n as [|n IH].
  - eexists. split; [done | apply scan_inv_0].
  - destruct IH as ([u s] & Hprev & Hinv); [lia | intros q Hq; apply Hrange; lia|].
    destruct (lookup_lt_is_Some_2 off0 n) as [x Hx]; [lia|].
    destruct (scan_body_eq off0 n u s x Hinv Hx) as [Heq Hinv'].
    exists (u + x, <[n:=u]> s). split; [|done].
    rewrite for_loop_S, Hprev.
    change (scan_body n (u, s) = Ok (u + x, <[n:=u]> s)).
    rewrite Heq. unfold int_add.
    rewrite int_of_in; [done|].
    specialize (Hrange (S n) ltac:(lia)).
    rewrite (sumZ_take_S _ _ _ Hx) in Hrange.
    destruct Hinv as [Hu _]. simpl in Hu. lia.
Qed.
End ViewFacts.

(** C3.  On an [offset] view that is empty on entry, which is the input
    condition of the batched query, the initialisation step of a call
    with [Q] queries ([Q + 1] fitting in an [int]) completes, in
    whatever order the execution space runs its loop, and returns a
    view of [Q + 1] entries that are all zero, [offset[Q]] among them.
    The zeros are those that [Kokkos::resize] puts into the new
    entries; the loop after it reads each entry and assigns none. *)
Theorem query_init_zeroes_empty_view (space : Driver.ExecutionSpace) (Q : nat)
    (Hspace : Driver.valid_space space)
    (HQ : Z.of_nat Q + 1 <= Driver.INT_MAX) :
  exists offset,
    Driver.query_init space (Z.of_nat Q) [] = Ok offset /\
    length offset = S Q /\
    (forall i, (i <= Q)%nat -> offset !! i = Some 0) /\
    Forall (fun x => x = 0) offset.
Proof.
  exists (replicate (S Q) 0). split; [by apply query_init_empty|].
  split; [by rewrite length_replicate|]. split.
  - intros i Hi. apply lookup_replicate_2. lia.
  - by apply Forall_replicate.
Qed.

(** Two queries, the loop run last index first. *)
Lemma query_init_zeroes_empty_view_witness :
  let space : Driver.ExecutionSpace := fun n => reverse (seq 0 n) in
  exists offset,
    Driver.query_init space 2 [] = Ok offset /\
    length offset = 3%nat /\
    offset !! 2%nat = Some 0.
Proof.
  intros space.
  assert (Hspace : Driver.valid_space space).
  { intros n. apply reverse_Permutation. }
  destruct (query_init_zeroes_empty_view space 2 Hspace
              ltac:(vm_compute; discriminate))
    as (offset & Hinit & Hlen & Hzero & _).
  exists offset. split; [exact Hinit|]. split; [exact Hlen|].
  exact (Hzero 2%nat ltac:(lia)).
Defined.

(** The scan completes exactly when every running sum it forms is an
    [int]. *)
Lemma query_scan_Ok (Q : nat) (offset offset' : list Z) :
  length offset = S Q ->
  Driver.query_scan (Z.of_nat Q) offset = Ok offset' ->
  Z.of_nat Q + 1 <= Driver.INT_MAX /\
  (forall q, (1 <= q <= S Q)%nat ->
     Driver.INT_MIN <= Driver.sumZ (take q offset) <= Driver.INT_MAX) /\
  length offset' = S Q /\
  (forall q, (q <= Q)%nat -> offset' !! q = Some (Driver.sumZ (take q offset))).
Proof.
  intros Hlen H.
  assert (HQ : Z.of_nat Q + 1 <= Driver.INT_MAX).
  { unfold Driver.query_scan in H.
    apply bind_Ok_inv in H as (n1 & [-> Hr]%int_of_Ok & _). lia. }
  rewrite query_scan_unfold in H by done.
  apply fmap_Ok_inv in H as ([u s] & Hloop & ->).
  destruct (scan_loop_Ok offset (S Q) (u, s) ltac:(lia) Hloop)
    as [(_ & Hl & Hlo & _) Hrange].
  simpl in *. repeat split; try done; try lia.
  - apply Hrange. lia.
  - apply Hrange. lia.
  - intros q Hq. apply Hlo. lia.
Qed.

Lemma query_scan_total (Q : nat) (offset : list Z) :
  length offset = S Q ->
  Z.of_nat Q + 1 <= Driver.INT_MAX ->
  (forall q, (1 <= q <= S Q)%nat ->
     Driver.INT_MIN <= Driver.sumZ (take q offset) <= Driver.INT_MAX) ->
  exists offset',
    Driver.query_scan (Z.of_nat Q) offset = Ok offset' /\
    length offset' = S Q /\
    (forall q, (q <= Q)%nat -> offset' !! q = Some (Driver.sumZ (take q offset))).
Proof.
  intros Hlen HQ Hrange.
  destruct (scan_loop_total offset (S Q) ltac:(lia) Hrange)
    as ([u s] & Hloop & (_ & Hl & Hlo & _)).
  exists s. rewrite query_scan_unfold, Hloop by done. simpl in *.
  split; [done|]. split; [lia|]. intros q Hq. apply Hlo. lia.
Qed.

(** C2, amended.  On a view of [Q + 1] entries whose running sums (the
    successive values of [update]) all fit in an [int], the scan turns
    the view into its exclusive prefix sum: entry [q], for every
    [q <= Q], becomes the sum of the entries strictly before [q], and
    entry [Q] the total of the [Q] counts. *)
Theorem query_scan_exclusive_prefix_sum (Q : nat) (offset : list Z)
    (Hlen : length offset = S Q)
    (HQ : Z.of_nat Q + 1 <= Driver.INT_MAX)
    (Hrange : forall q, (1 <= q <= S Q)%nat ->
       Driver.INT_MIN <= Driver.sumZ (take q offset) <= Driver.INT_MAX) :
  exists offset',
    Driver.query_scan (Z.of_nat Q) offset = Ok offset' /\
    length offset' = S Q /\
    (forall q, (q <= Q)%nat -> offset' !! q = Some (Driver.sumZ (take q offset))).
Proof. by apply query_scan_total. Qed.

(** Counts 2, 0, 3 and a stale last entry 77. *)
Lemma query_scan_exclusive_prefix_sum_witness :
  exists offset',
    Driver.query_scan 3 [2; 0; 3; 77] = Ok offset' /\
    length offset' = 4%nat /\
    offset' !! 0%nat = Some 0 /\ offset' !! 1%nat = Some 2 /\
    offset' !! 2%nat = Some 2 /\ offset' !! 3%nat = Some 5.
Proof.
  assert (Hrange : forall q, (1 <= q <= 4)%nat ->
            Driver.INT_MIN <= Driver.sumZ (take q [2; 0; 3; 77]) <= Driver.INT_MAX).
  { intros q Hq.
    assert (q = 1 \/ q = 2 \/ q = 3 \/ q = 4)%nat as [-> | [-> | [-> | ->]]] by lia;
      vm_compute; split; discriminate. }
  destruct (query_scan_exclusive_prefix_sum 3 [2; 0; 3; 77] eq_refl
              ltac:(vm_compute; discriminate) Hrange) as (offset' & Hs & Hl & Hq).
  exists offset'. split; [exact Hs|]. split; [exact Hl|].
  split; [apply (Hq 0%nat); lia|]. split; [apply (Hq 1%nat); lia|].
  split; [apply (Hq 2%nat); lia | apply (Hq 3%nat); lia].
Defined.

(** C2 as stated fails on counts whose sum leaves the range of [int]:
    three queries with 2^30 matches each.  The second addition to
    [update], 2^30 + 2^30, overflows, and no view with
    [offset[3] = 3 * 2^30] comes out. *)
Lemma query_scan_overflow :
  let offset := [2 ^ 30; 2 ^ 30; 2 ^ 30; 0] in
  Driver.query_scan 3 offset = Undefined /\
  ~ (exists offset',
       Driver.query_scan 3 offset = Ok offset' /\
       forall q, (q <= 3)%nat -> offset' !! q = Some (Driver.sumZ (take q offset))).
Proof.
  intros offset.
  assert (H : Driver.query_scan 3 offset = Undefined) by (vm_compute; reflexivity).
  split; [exact H|]. intros (offset' & H' & _). rewrite H in H'. discriminate.
Qed.

(** ** The driver: batched query *)

Section QueryFacts.
Import Driver.
Context {BVH Query : Type}.
Variable matches : BVH -> Query -> list Z.
Variable space : ExecutionSpace.
Hypothesis Hspace : valid_space space.
Variable bvh : BVH.

Local Abbreviation traverse := (TreeTraversal_query BVH Query matches).
Local Abbreviation counts := (match_counts BVH Query matches bvh).
Local Abbreviation hits := (all_matches BVH Query matches bvh).

Lemma traverse_Ok {S} q (visit : Z -> S -> result S) (s : S) count r :
  traverse bvh q visit s = Ok (count, r) ->
  foldl (fun r index => s ← r; visit index s) (Ok s) (matches bvh q) = Ok r /\
  count = Z.of_nat (length (matches bvh q)) /\
  Z.of_nat (length (matches bvh q)) <= INT_MAX.
Proof.
  unfold TreeTraversal_query. intros H.
  apply bind_Ok_inv in H as (s1 & Hfold & H).
  apply bind_Ok_inv in H as (c & [-> Hr]%int_of_Ok & H).
  inversion H; subst. split; [done|]. split; [done | lia].
Qed.

Lemma traverse_total {S} (P : list Z -> S -> Prop) q (visit : Z -> S -> result S) (s : S) :
  Z.of_nat (length (matches bvh q)) <= INT_MAX ->
  P [] s ->
  (forall seen x s, (exists rest, matches bvh q = seen ++ x :: rest) -> P seen s ->
     exists s', visit x s = Ok s' /\ P (seen ++ [x]) s') ->
  exists r, traverse bvh q visit s = Ok (Z.of_nat (length (matches bvh q)), r) /\
            P (matches bvh q) r.
Proof.
  intros Hmax H0 Hstep.
  destruct (fold_total P visit (matches bvh q) s H0 Hstep) as (r & Hr & HP).
  exists r. split; [|done]. unfold TreeTraversal_query. rewrite Hr. simpl.
  rewrite int_of_in by (unfold INT_MIN; lia). done.
Qed.

(** *** The rows of the result *)

Lemma length_counts queries : length (counts queries) = length queries.
Proof. unfold match_counts. by rewrite length_fmap. Qed.

Lemma sumZ_counts queries :
  sumZ (counts queries) = Z.of_nat (length (hits queries)).
Proof.
  induction queries as [|q queries IH]; [done|].
  change (sumZ (counts (q :: queries)))
    with (Z.of_nat (length (matches bvh q)) + sumZ (counts queries)).
  change (hits (q :: queries)) with (matches bvh q ++ hits queries).
  rewrite IH, length_app. lia.
Qed.

Lemma take_counts i queries : take i (counts queries) = counts (take i queries).
Proof. unfold match_counts. by rewrite fmap_take. Qed.

Lemma hits_app qs1 qs2 : hits (qs1 ++ qs2) = hits qs1 ++ hits qs2.
Proof. unfold all_matches. by rewrite fmap_app, concat_app. Qed.

Lemma hits_take_S i q queries :
  queries !! i = Some q ->
  hits (take (S i) queries) = hits (take i queries) ++ matches bvh q.
Proof.
  intros Hq. rewrite (take_S_r _ _ _ Hq), hits_app.
  unfold all_matches at 2. simpl. by rewrite app_nil_r.
Qed.

Lemma hits_take_le i queries :
  (length (hits (take i queries)) <= length (hits queries))%nat.
Proof. rewrite <- (take_drop i queries) at 2. rewrite hits_app, length_app. lia. Qed.

(** Row starts grow with the query index. *)
Lemma hits_take_mono i j queries :
  (i <= j)%nat ->
  (length (hits (take i queries)) <= length (hits (take j queries)))%nat.
Proof.
  intros Hij. replace (take i queries) with (take i (take j queries)).
  - apply hits_take_le.
  - rewrite take_take. f_equal. lia.
Qed.

Lemma count_le_hits queries i q :
  queries !! i = Some q -> (length (matches bvh q) <= length (hits queries))%nat.
Proof.
  intros Hq. pose proof (hits_take_le (S i) queries) as Hle.
  rewrite (hits_take_S _ _ _ Hq), length_app in Hle. lia.
Qed.

(** Every position of the concatenated matches lies in the row of some
    query. *)
Lemma hits_lookup queries p v :
  hits queries !! p = Some v ->
  exists i q k, queries !! i = Some q /\ matches bvh q !! k = Some v /\
                p = (length (hits (take i queries)) + k)%nat.
Proof.
  induction queries as [|q queries IH] using rev_ind; [done|].
  rewrite hits_app. unfold all_matches at 2. simpl. rewrite app_nil_r.
  destruct (decide (p < length (hits queries))%nat) as [Hp|Hp].
  - rewrite lookup_app_l by done. intros (i & q' & k & Hi & Hk & ->)%IH.
    pose proof (lookup_lt_Some _ _ _ Hi) as Hlt.
    exists i, q', k. rewrite lookup_app_l by done.
    rewrite take_app_le by lia. done.
  - rewrite lookup_app_r by lia. intros Hk.
    exists (length queries), q, (p - length (hits queries))%nat.
    rewrite list_lookup_middle by done.
    rewrite take_app_length. split; [done|]. split; [done | lia].
Qed.

(** *** Count pass *)

Lemma query_count_Ok (queries : list Query) (Q : nat) offset r :
  query_count BVH Query matches space bvh queries (Z.of_nat Q) offset = Ok r ->
  length r = length offset /\
  (forall i c, (i < Q)%nat -> counts queries !! i = Some c -> r !! i = Some c) /\
  (forall i, (Q <= i)%nat -> r !! i = offset !! i).
Proof.
  unfold query_count, RangePolicy, parallel_for. rewrite Nat2Z.id. intros H.
  apply (fold_inv (fun seen s =>
    length s = length offset /\
    (forall j c, j ∈ seen -> counts queries !! j = Some c -> s !! j = Some c) /\
    (forall j, j ∉ seen -> s !! j = offset !! j))
    (fun (i : nat) offset =>
       q ← deref (queries !! Z.to_nat (Z.of_nat i));
       '(count, _) ← traverse bvh q (fun _ u => Ok u) tt;
       view_set offset (Z.of_nat i) count)) in H.
  - destruct H as (Hlen & Hin & Hout). split; [done|]. split.
    + intros i c Hi. apply Hin. by apply valid_space_elem.
    + intros i Hi. apply Hout. rewrite valid_space_elem by done. lia.
  - split; [done|]. split; [|done]. intros j c Hj. by apply elem_of_nil in Hj.
  - intros seen x s s' _ (Hlen & Hin & Hout) Hbody.
    apply bind_Ok_inv in Hbody as (q & Hq%deref_Ok_inv & Hbody).
    rewrite Nat2Z.id in Hq.
    apply bind_Ok_inv in Hbody as ([count u] & (_ & -> & _)%traverse_Ok & Hbody).
    rewrite view_set_nat in Hbody. apply store_Ok_inv in Hbody as [Hlt ->].
    split; [by rewrite length_insert|]. split.
    + intros j c Hj Hc. destruct (decide (j = x)) as [->|Hne].
      * rewrite list_lookup_insert_eq by done.
        unfold match_counts in Hc. rewrite list_lookup_fmap, Hq in Hc. done.
      * rewrite list_lookup_insert_ne by done. apply Hin; [|done].
        apply elem_of_app in Hj as [Hj|Hj%list_elem_of_singleton]; done.
    + intros j Hj. rewrite elem_of_app, list_elem_of_singleton in Hj.
      rewrite list_lookup_insert_ne by (intros ->; tauto). apply Hout. tauto.
Qed.

Lemma query_count_total (queries : list Query) offset :
  (length queries <= length offset)%nat ->
  Z.of_nat (length (hits queries)) <= INT_MAX ->
  exists r, query_count BVH Query matches space bvh queries
              (Z.of_nat (length queries)) offset = Ok r.
Proof.
  intros Hlen Hmax. unfold query_count, RangePolicy, parallel_for. rewrite Nat2Z.id.
  destruct (fold_total (fun _ s => length s = length offset)
    (fun (i : nat) offset =>
       q ← deref (queries !! Z.to_nat (Z.of_nat i));
       '(count, _) ← traverse bvh q (fun _ u => Ok u) tt;
       view_set offset (Z.of_nat i) count)
    (space (length queries)) offset) as (r & Hr & _); [done | | by exists r].
  intros seen x s [rest Hx] Hs. rewrite Nat2Z.id.
  assert (Hlt : (x < length queries)%nat).
  { apply (valid_space_elem space _ _ Hspace). rewrite Hx.
    apply elem_of_app. right. apply elem_of_cons. by left. }
  destruct (lookup_lt_is_Some_2 queries x) as [q Hq]; [done|].
  rewrite Hq. simpl.
  destruct (traverse_total (fun _ _ => True) q (fun _ u => Ok u) tt)
    as (u & -> & _); [|done|by eauto|].
  { pose proof (count_le_hits _ _ _ Hq). lia. }
  simpl. rewrite view_set_nat, store_in_range by lia.
  eexists. split; [done|]. by rewrite length_insert.
Qed.

(** *** Fill pass *)

(** The appending visitor of the second pass, for the query whose row
    starts at [start]. *)
Lemma fill_visit_Ok offset (i : nat) start index count indices count' indices' :
  offset !! i = Some start ->
  (offset_i ← view_get offset (Z.of_nat i);
   pos ← int_add offset_i count;
   indices ← view_set indices pos index;
   count ← int_add count 1;
   Ok (count, indices)) = Ok (count', indices') ->
  0 <= start + count /\ (Z.to_nat (start + count) < length indices)%nat /\
  indices' = <[Z.to_nat (start + count) := index]> indices /\
  count' = count + 1.
Proof.
  intros Hstart H. rewrite view_get_nat, Hstart in H. simpl in H.
  apply bind_Ok_inv in H as (pos & [-> _]%int_of_Ok & H).
  apply bind_Ok_inv in H as (ind & (Hpos & Hlt & ->)%view_set_Ok & H).
  apply bind_Ok_inv in H as (c & [-> _]%int_of_Ok & H).
  inversion H; subst. done.
Qed.

(** One traversal of the second pass writes the matches of its query
    into its own row and nothing else. *)
Lemma fill_row_Ok offset (i start : nat) q indices n count' indices' :
  offset !! i = Some (Z.of_nat start) ->
  traverse bvh q
    (fun index '(count, indices) =>
       offset_i ← view_get offset (Z.of_nat i);
       pos ← int_add offset_i count;
       indices ← view_set indices pos index;
       count ← int_add count 1;
       Ok (count, indices)) (0, indices) = Ok (n, (count', indices')) ->
  length indices' = length indices /\
  (forall k v, matches bvh q !! k = Some v -> indices' !! (start + k)%nat = Some v) /\
  (forall p, (p < start \/ start + length (matches bvh q) <= p)%nat ->
     indices' !! p = indices !! p).
Proof.
  intros Hstart [Hfold _]%traverse_Ok.
  apply (fold_inv (fun seen st =>
    st.1 = Z.of_nat (length seen) /\
    length st.2 = length indices /\
    (forall k v, seen !! k = Some v -> st.2 !! (start + k)%nat = Some v) /\
    (forall p, (p < start \/ start + length seen <= p)%nat -> st.2 !! p = indices !! p))
    (fun index '(count, indices) =>
       offset_i ← view_get offset (Z.of_nat i);
       pos ← int_add offset_i count;
       indices ← view_set indices pos index;
       count ← int_add count 1;
       Ok (count, indices))) in Hfold.
  - destruct Hfold as (_ & ? & ? & ?). done.
  - simpl. split; [done|]. split; [done|]. split; [|done].
    intros k v Hk. by rewrite lookup_nil in Hk.
  - intros seen x [c ind] [c' ind'] _ (Hc & Hlen & Hrow & Hout) Hv. simpl in *.
    apply (fill_visit_Ok offset i (Z.of_nat start) x c ind c' ind' Hstart) in Hv
      as (_ & Hlt & -> & ->).
    subst c. replace (Z.to_nat (Z.of_nat start + Z.of_nat (length seen)))
      with (start + length seen)%nat in * by lia.
    rewrite length_app, length_insert. simpl.
    split; [lia|]. split; [done|]. split.
    + intros k v Hk. destruct (decide (k = length seen)) as [->|Hne].
      * rewrite list_lookup_middle in Hk by done. inversion Hk; subst.
        by rewrite list_lookup_insert_eq.
      * pose proof (lookup_lt_Some _ _ _ Hk) as Hkl.
        rewrite length_app in Hkl. simpl in Hkl.
        rewrite lookup_app_l in Hk by lia.
        rewrite list_lookup_insert_ne by lia. by apply Hrow.
    + intros p Hp. rewrite list_lookup_insert_ne by lia. apply Hout. lia.
Qed.

Lemma query_fill_Ok (queries : list Query) indices offset r :
  (forall i, (i <= length queries)%nat ->
     offset !! i = Some (sumZ (take i (counts queries)))) ->
  query_fill BVH Query matches space bvh queries (Z.of_nat (length queries))
    indices offset = Ok r ->
  r = hits queries.
Proof.
  intros Hoff H. unfold query_fill in H.
  apply bind_Ok_inv in H as (total & Htotal & H).
  rewrite view_get_nat, Hoff in Htotal by done. inversion Htotal as [Ht]. clear Htotal.
  rewrite firstn_all2 in Ht by (rewrite length_counts; lia).
  rewrite sumZ_counts in Ht.
  apply bind_Ok_inv in H as (ind1 & [_ ->]%Kokkos_resize_Ok & H).
  unfold RangePolicy, parallel_for in H. rewrite Nat2Z.id in H.
  apply (fold_inv (fun seen s =>
    length s = length (hits queries) /\
    forall i q k v, i ∈ seen -> queries !! i = Some q -> matches bvh q !! k = Some v ->
      s !! (length (hits (take i queries)) + k)%nat = Some v)
    (fun (i : nat) indices =>
       q ← deref (queries !! Z.to_nat (Z.of_nat i));
       '(_, (_, indices)) ← traverse bvh q
         (fun index '(count, indices) =>
            offset_i ← view_get offset (Z.of_nat i);
            pos ← int_add offset_i count;
            indices ← view_set indices pos index;
            count ← int_add count 1;
            Ok (count, indices)) (0, indices);
       Ok indices)) in H.
  - destruct H as [Hlen Hrows]. apply list_eq. intros p.
    destruct (hits queries !! p) as [v|] eqn:Hp.
    + apply hits_lookup in Hp as (i & q & k & Hi & Hk & ->).
      apply (Hrows i q k v); [|done..].
      apply (valid_space_elem space _ _ Hspace). by eapply lookup_lt_Some.
    + apply lookup_ge_None in Hp. apply lookup_ge_None. lia.
  - split; [rewrite length_resize; lia|]. intros i q k v Hi. by apply elem_of_nil in Hi.
  - intros seen x s s' _ [Hlen Hrows] Hbody.
    apply bind_Ok_inv in Hbody as (qx & Hqx%deref_Ok_inv & Hbody).
    rewrite Nat2Z.id in Hqx. pose proof (lookup_lt_Some _ _ _ Hqx) as Hx.
    apply bind_Ok_inv in Hbody as ([c [c' ind']] & Hrow & Hbody).
    inversion Hbody; subst s'. clear Hbody.
    apply (fill_row_Ok offset x (length (hits (take x queries)))) in Hrow
      as (Hlen' & Hin & Hout);
      [|by rewrite Hoff, take_counts, sumZ_counts by lia].
    split; [lia|]. intros i q k v Hi Hq Hk.
    destruct (decide (i = x)) as [->|Hne].
    + assert (q = qx) as -> by congruence. by apply Hin.
    + rewrite Hout.
      * apply (Hrows i q k v); [|done..].
        apply elem_of_app in Hi as [Hi|Hi%list_elem_of_singleton]; done.
      * pose proof (lookup_lt_Some _ _ _ Hk) as Hkl.
        destruct (decide (i < x)%nat) as [Hlt|Hgt].
        -- left. pose proof (hits_take_mono (S i) x queries ltac:(lia)) as Hm.
           rewrite (hits_take_S _ _ _ Hq), length_app in Hm. lia.
        -- right. pose proof (hits_take_mono (S x) i queries ltac:(lia)) as Hm.
           rewrite (hits_take_S _ _ _ Hqx), length_app in Hm. lia.
Qed.

Lemma query_fill_total (queries : list Query) indices offset :
  (forall i, (i <= length queries)%nat ->
     offset !! i = Some (sumZ (take i (counts queries)))) ->
  Z.of_nat (length (hits queries)) <= INT_MAX ->
  exists r, query_fill BVH Query matches space bvh queries
              (Z.of_nat (length queries)) indices offset = Ok r.
Proof.
  intros Hoff Hmax. unfold query_fill.
  rewrite view_get_nat, Hoff by done. simpl.
  rewrite firstn_all2 by (rewrite length_counts; lia).
  rewrite sumZ_counts. unfold Kokkos_resize.
  destruct (Z.leb_spec 0 (Z.of_nat (length (hits queries)))); [|lia]. simpl.
  rewrite Nat2Z.id. unfold RangePolicy, parallel_for. rewrite Nat2Z.id.
  destruct (fold_total (fun _ s => length s = length (hits queries))
    (fun (i : nat) indices =>
       q ← deref (queries !! Z.to_nat (Z.of_nat i));
       '(_, (_, indices)) ← traverse bvh q
         (fun index '(count, indices) =>
            offset_i ← view_get offset (Z.of_nat i);
            pos ← int_add offset_i count;
            indices ← view_set indices pos index;
            count ← int_add count 1;
            Ok (count, indices)) (0, indices);
       Ok indices)
    (space (length queries)) (resize (length (hits queries)) 0 indices))
    as (r & Hr & _); [by rewrite length_resize | | by exists r].
  intros seen x s [rest Hx] Hs. rewrite Nat2Z.id.
  assert (Hlt : (x < length queries)%nat).
  { apply (valid_space_elem space _ _ Hspace). rewrite Hx.
    apply elem_of_app. right. apply elem_of_cons. by left. }
  destruct (lookup_lt_is_Some_2 queries x) as [q Hq]; [done|].
  rewrite Hq. simpl.
  pose proof (hits_take_le (S x) queries) as Hle.
  rewrite (hits_take_S _ _ _ Hq), length_app in Hle.
  match goal with |- context [traverse bvh q ?visit (0, s)] =>
    destruct (traverse_total
      (fun seen st => st.1 = Z.of_nat (length seen) /\
                      length st.2 = length (hits queries))
      q visit (0, s)) as ([c ind] & -> & _ & Hind)
  end; [lia | done | | ].
  - intros done_ y [c ind] [rest' Hy] [Hc Hind]. simpl in *. subst c.
    assert (Hk : (length done_ < length (matches bvh q))%nat).
    { rewrite Hy, length_app. simpl. lia. }
    rewrite view_get_nat, Hoff by lia. simpl.
    rewrite take_counts, sumZ_counts. unfold int_add.
    rewrite (int_of_in (Z.of_nat (length (hits (take x queries)))
                        + Z.of_nat (length done_))) by (unfold INT_MIN; lia).
    rewrite (int_of_in (Z.of_nat (length done_) + 1)) by (unfold INT_MIN; lia).
    simpl. unfold view_set.
    destruct (Z.leb_spec 0 (Z.of_nat (length (hits (take x queries)))
                            + Z.of_nat (length done_))); [|lia].
    rewrite store_in_range by lia. simpl.
    eexists. split; [done|]. simpl. rewrite length_app, length_insert. simpl.
    split; [lia | done].
  - simpl. eexists. split; [done|]. done.
Qed.
End QueryFacts.

Section QueryContract.
Import Driver.
Context {BVH Query : Type}.
Variable matches : BVH -> Query -> list Z.
Variable space : ExecutionSpace.
Hypothesis Hspace : valid_space space.
Variable bvh : BVH.

Local Abbreviation counts := (match_counts BVH Query matches bvh).
Local Abbreviation hits := (all_matches BVH Query matches bvh).
Local Abbreviation starts := (row_starts BVH Query matches bvh).

Lemma row_starts_lookup queries q :
  (q <= length queries)%nat ->
  starts queries !! q = Some (sumZ (take q (counts queries))).
Proof.
  intros Hq. unfold row_starts. rewrite list_lookup_fmap, lookup_seq_lt by lia. done.
Qed.

Lemma length_row_starts queries : length (starts queries) = S (length queries).
Proof. unfold row_starts. by rewrite length_fmap, length_seq. Qed.

(** After the count pass the first [Q] entries are the counts. *)
Lemma counted_prefix queries (off2 : list Z) i :
  (forall j c, (j < length queries)%nat ->
     counts queries !! j = Some c -> off2 !! j = Some c) ->
  (i <= length queries)%nat ->
  take i off2 = take i (counts queries).
Proof.
  intros Hlo Hi. apply list_eq. intros j.
  destruct (decide (j < i)%nat) as [Hj|Hj].
  - rewrite !lookup_take_lt by done.
    destruct (lookup_lt_is_Some_2 (counts queries) j) as [c Hc];
      [rewrite length_counts; lia|].
    rewrite Hc. apply Hlo; [lia | done].
  - by rewrite !lookup_take_ge by lia.
Qed.

(** A successful call returns the compressed-row form of the matches,
    whatever the two views held on entry and whatever the order in which
    the execution space ran the iterations. *)
Lemma query_Ok queries indices0 offset0 indices offset :
  query BVH Query matches space bvh queries indices0 offset0 = Ok (indices, offset) ->
  indices = hits queries /\ offset = starts queries.
Proof.
  unfold query. intros H. set (Q := length queries) in *.
  apply bind_Ok_inv in H as (n & [-> HQ]%int_of_Ok & H).
  apply bind_Ok_inv in H as (off1 & (_ & HQ1 & ->)%query_init_Ok & H); [|done].
  replace (Z.to_nat (Z.of_nat Q + 1)) with (S Q) in H by lia.
  apply bind_Ok_inv in H as (off2 & (Hlen2 & Hlo2 & _)%query_count_Ok & H); [|done].
  rewrite length_resize in Hlen2.
  apply bind_Ok_inv in H as (off3 & (_ & _ & Hlen3 & Hoff3)%query_scan_Ok & H);
    [|done].
  assert (Hstarts : forall i, (i <= Q)%nat ->
            off3 !! i = Some (sumZ (take i (counts queries)))).
  { intros i Hi. rewrite Hoff3 by done. by rewrite (counted_prefix queries). }
  apply bind_Ok_inv in H as (ind & Hfill & H).
  apply (query_fill_Ok matches space Hspace bvh queries) in Hfill; [|done].
  inversion H; subst. split; [done|].
  apply list_eq. intros j. destruct (decide (j <= Q)%nat) as [Hj|Hj].
  - rewrite Hstarts, row_starts_lookup by done. done.
  - rewrite !lookup_ge_None_2; [done | rewrite length_row_starts; fold Q; lia | lia].
Qed.

Lemma row_starts_S queries q pred :
  queries !! q = Some pred ->
  sumZ (take (S q) (counts queries))
    = sumZ (take q (counts queries)) + Z.of_nat (length (matches bvh pred)).
Proof.
  intros Hq. apply sumZ_take_S. unfold match_counts.
  by rewrite list_lookup_fmap, Hq.
Qed.

(** Row [q] of the concatenated matches is what the traversal reports
    for query [q]. *)
Lemma hits_slice queries q pred :
  queries !! q = Some pred ->
  slice (hits queries) (sumZ (take q (counts queries)))
        (sumZ (take (S q) (counts queries))) = matches bvh pred.
Proof.
  intros Hq. unfold slice. rewrite (row_starts_S _ _ _ Hq).
  rewrite take_counts, sumZ_counts.
  replace (Z.to_nat (_ + _ - _)) with (length (matches bvh pred)) by lia.
  rewrite Nat2Z.id.
  rewrite <- (take_drop_middle _ _ _ Hq) at 2.
  unfold all_matches. rewrite fmap_app, concat_app. simpl.
  rewrite drop_app_length, take_app_length. done.
Qed.

(** The call succeeds whenever the sizes involved fit in an [int]: the
    number of queries plus one, the total number of matches, and the
    last running sum of the scan, which adds the entry the view held at
    index [Q] on entry (0 for a view shorter than that). *)
Lemma query_succeeds queries indices0 offset0 :
  Z.of_nat (length queries) + 1 <= INT_MAX ->
  Z.of_nat (length (hits queries)) <= INT_MAX ->
  INT_MIN <= Z.of_nat (length (hits queries)) + default 0 (offset0 !! length queries)
          <= INT_MAX ->
  query BVH Query matches space bvh queries indices0 offset0
    = Ok (hits queries, starts queries).
Proof.
  intros HQ Hmax Hstale. set (Q := length queries) in *.
  assert (exists r, query BVH Query matches space bvh queries indices0 offset0 = Ok r)
    as ([indices offset] & Hr).
  { unfold query, to_int. rewrite int_of_in by (unfold INT_MIN; lia). simpl. fold Q.
    rewrite query_init_eq by (done || lia). simpl.
    replace (Z.to_nat (Z.of_nat Q + 1)) with (S Q) by lia.
    destruct (query_count_total matches space Hspace bvh queries
                (resize (S Q) 0 offset0))
      as (off2 & Hoff2); [rewrite length_resize; lia | done |].
    fold Q in Hoff2. rewrite Hoff2. simpl.
    apply query_count_Ok in Hoff2 as (Hlen2 & Hlo2 & Hhi2); [|done].
    rewrite length_resize in Hlen2.
    pose proof (counted_prefix queries off2) as Htake.
    destruct (query_scan_total Q off2 Hlen2 HQ)
      as (off3 & Hoff3 & Hlen3 & Hq3).
    { intros q Hq. destruct (decide (q <= Q)%nat) as [Hle|Hgt].
      - rewrite Htake, take_counts, sumZ_counts by done.
        pose proof (hits_take_le matches bvh q queries). unfold INT_MIN. lia.
      - replace q with (S Q) by lia.
        destruct (lookup_lt_is_Some_2 off2 Q) as [x Hx]; [lia|].
        rewrite (sumZ_take_S _ _ _ Hx), Htake by (done || lia).
        rewrite firstn_all2 by (rewrite length_counts; fold Q; lia).
        rewrite sumZ_counts.
        rewrite Hhi2 in Hx by lia.
        destruct (decide (Q < length offset0)%nat) as [Hold|Hnew].
        + rewrite lookup_resize in Hx by lia. rewrite Hx in Hstale. done.
        + rewrite lookup_resize_new in Hx by lia. inversion Hx; subst x.
          rewrite lookup_ge_None_2 in Hstale by lia. done. }
    rewrite Hoff3. simpl.
    destruct (query_fill_total matches space Hspace bvh queries indices0 off3)
      as (ind & Hind); [ | done | ].
    - intros i Hi. rewrite Hq3 by done. by rewrite Htake.
    - fold Q in Hind. rewrite Hind. simpl. eauto. }
  rewrite Hr. by apply query_Ok in Hr as [-> ->].
Qed.
End QueryContract.

(** C1.  For every hierarchy, every sequence of [Q] predicates and every
    order in which the execution space runs the parallel iterations, a
    call of [query] that succeeds leaves [offset] with [Q + 1] entries,
    first entry 0, entries non-decreasing, last entry the length of
    [indices], and row [q] of [indices], from [offset[q]] up to
    [offset[q+1]], equal to the primitive indices the traversal reports
    for predicate [q], in the order it reports them. *)
Theorem query_csr_contract {BVH Query : Type} (matches : BVH -> Query -> list Z)
    (space : Driver.ExecutionSpace) (bvh : BVH) (queries : list Query)
    (indices0 offset0 indices offset : list Z)
    (Hspace : Driver.valid_space space)
    (Hok : Driver.query BVH Query matches space bvh queries indices0 offset0
             = Ok (indices, offset)) :
  length offset = S (length queries) /\
  offset !! 0%nat = Some 0 /\
  (forall q a b, offset !! q = Some a -> offset !! S q = Some b -> a <= b) /\
  offset !! length queries = Some (Z.of_nat (length indices)) /\
  (forall q pred, queries !! q = Some pred ->
     exists a b, offset !! q = Some a /\ offset !! S q = Some b /\
                 Driver.slice indices a b = matches bvh pred).
Proof.
  apply query_Ok in Hok as [-> ->]; [|done].
  split; [apply length_row_starts|].
  split; [by rewrite row_starts_lookup by lia|].
  split; [|split].
  - intros q a b Ha Hb.
    assert (Hq : (S q <= length queries)%nat).
    { apply lookup_lt_Some in Hb. rewrite length_row_starts in Hb. lia. }
    rewrite row_starts_lookup in Ha, Hb by lia.
    destruct (lookup_lt_is_Some_2 queries q) as [pred Hpred]; [lia|].
    rewrite (row_starts_S _ _ _ _ _ Hpred) in Hb. inversion Ha. inversion Hb. lia.
  - rewrite row_starts_lookup by lia.
    rewrite firstn_all2 by (rewrite length_counts; lia).
    by rewrite sumZ_counts.
  - intros q pred Hpred. pose proof (lookup_lt_Some _ _ _ Hpred) as Hq.
    eexists _, _. rewrite !row_starts_lookup by lia.
    split; [done|]. split; [done|]. by apply hits_slice.
Qed.

(** Three predicates matching [3, 1], nothing, and [7, 8, 9]; both views
    hold stale data on entry and the iterations run last index first. *)
Lemma query_csr_contract_witness :
  let matches := fun (_ : unit) (q : list Z) => q in
  let queries := [[3; 1]; []; [7; 8; 9]] in
  let space : Driver.ExecutionSpace := fun n => reverse (seq 0 n) in
  exists indices offset,
    Driver.query unit (list Z) matches space tt queries [4; 4] [5; 5; 5; 5; 5; 5]
      = Ok (indices, offset) /\
    length offset = 4%nat /\
    offset !! 0%nat = Some 0 /\
    offset !! 3%nat = Some (Z.of_nat (length indices)) /\
    (exists a b, offset !! 2%nat = Some a /\ offset !! 3%nat = Some b /\
                 Driver.slice indices a b = [7; 8; 9]).
Proof.
  intros matches queries space.
  assert (Hspace : Driver.valid_space space).
  { intros n. apply reverse_Permutation. }
  assert (Hok : Driver.query unit (list Z) matches space tt queries
                  [4; 4] [5; 5; 5; 5; 5; 5]
                = Ok ([3; 1; 7; 8; 9], [0; 2; 2; 5])) by (vm_compute; reflexivity).
  destruct (query_csr_contract matches space tt queries _ _ _ _ Hspace Hok)
    as (Hlen & H0 & _ & Hlast & Hrows).
  exists [3; 1; 7; 8; 9], [0; 2; 2; 5].
  split; [exact Hok|]. split; [exact Hlen|]. split; [exact H0|].
  split; [exact Hlast|]. exact (Hrows 2%nat [7; 8; 9] eq_refl).
Defined.

(** ** The driver: structured cloud *)

Section CloudFacts.
Import Driver.
Variables Lx Ly Lz : double.
Variables NX NY NZ : nat.
Hypothesis HNX : (1 <= NX)%nat.
Hypothesis HNY : (1 <= NY)%nat.
Hypothesis HNZ : (1 <= NZ)%nat.
Hypothesis Hfits : Z.of_nat (NX * NY * NZ) <= INT_MAX.

Local Abbreviation pos := (cloud_pos NX NY).
Local Abbreviation pt := (cloud_pt Lx Ly Lz NX NY NZ).
Local Abbreviation inv := (cloud_inv Lx Ly Lz NX NY NZ).

Lemma cloud_pos_lt i j k :
  (i < NX)%nat -> (j < NY)%nat -> (k < NZ)%nat ->
  (pos i j k < NX * NY * NZ)%nat.
Proof.
  intros Hi Hj Hk. unfold cloud_pos.
  pose proof (Nat.mul_le_mono_r (S j) NY NX ltac:(lia)) as H1.
  pose proof (Nat.mul_le_mono_r (S k) NZ (NX * NY) ltac:(lia)) as H2.
  simpl in H1, H2. rewrite (Nat.mul_comm NY NX) in H1.
  rewrite (Nat.mul_comm NZ) in H2. lia.
Qed.

Lemma cloud_pos_inj i j k i' j' k' :
  (i < NX)%nat -> (j < NY)%nat -> (i' < NX)%nat -> (j' < NY)%nat ->
  pos i j k = pos i' j' k' -> i = i' /\ j = j' /\ k = k'.
Proof.
  unfold cloud_pos. intros Hi Hj Hi' Hj' Heq.
  assert (H1 : (NX * (j + NY * k) + i = NX * (j' + NY * k') + i')%nat) by lia.
  apply Nat.div_mod_unique in H1 as [H2 ->]; [|lia..].
  assert (H3 : (NY * k + j = NY * k' + j')%nat) by lia.
  apply Nat.div_mod_unique in H3 as [-> ->]; [|lia..]. done.
Qed.

Lemma ind_eq (i j k : nat) :
  (i < NX)%nat -> (j < NY)%nat -> (k < NZ)%nat ->
  ind (Z.of_nat NX) (Z.of_nat NY) (Z.of_nat NZ) (Z.of_nat i) (Z.of_nat j) (Z.of_nat k)
    = Ok (Z.of_nat (pos i j k)).
Proof.
  intros Hi Hj Hk. pose proof (cloud_pos_lt i j k Hi Hj Hk) as Hlt.
  unfold cloud_pos in *. unfold ind, int_mul, int_add.
  rewrite (int_of_in (Z.of_nat j * Z.of_nat NX)) by (unfold INT_MIN; nia). simpl.
  rewrite (int_of_in (Z.of_nat i + _)) by (unfold INT_MIN; nia). simpl.
  rewrite (int_of_in (Z.of_nat NX * Z.of_nat NY)) by (unfold INT_MIN; nia). simpl.
  rewrite (int_of_in (Z.of_nat k * _)) by (unfold INT_MIN; nia). simpl.
  rewrite int_of_in by (unfold INT_MIN; nia). f_equal. lia.
Qed.

Lemma coordinate_eq (i : nat) L (n : nat) :
  (1 <= n)%nat -> Z.of_nat n <= INT_MAX ->
  coordinate (Z.of_nat i) L (Z.of_nat n)
    = Ok (ddiv (dmul (double_of_int (Z.of_nat i)) L) (double_of_int (Z.of_nat n - 1))).
Proof.
  intros Hn Hmax. unfold coordinate, int_sub.
  rewrite int_of_in by (unfold INT_MIN; lia). done.
Qed.

Lemma cloud_inv_store i j k cloud :
  (i < NX)%nat -> (j < NY)%nat -> (k < NZ)%nat ->
  inv i j k cloud ->
  inv i j (S k) (<[pos i j k := pt i j k]> cloud).
Proof.
  intros Hi Hj Hk [Hlen Hc]. split; [by rewrite length_insert|].
  intros i' j' k' Hi' Hj' Hk' Hv.
  destruct (decide (pos i' j' k' = pos i j k)) as [Heq|Hne].
  - apply cloud_pos_inj in Heq as (-> & -> & ->); [|done..].
    rewrite list_lookup_insert_eq; [done|].
    rewrite Hlen. by apply cloud_pos_lt.
  - rewrite list_lookup_insert_ne by done. apply Hc; [done..|].
    unfold visited in *.
    destruct (decide (i' = i /\ j' = j /\ k' = k)) as [(-> & -> & ->)|?]; [done | lia].
Qed.

Lemma cloud_fits : Z.of_nat NX <= INT_MAX /\ Z.of_nat NY <= INT_MAX /\ Z.of_nat NZ <= INT_MAX.
Proof.
  pose proof (Nat.mul_le_mono NX NX 1 NY ltac:(lia) ltac:(lia)) as H1.
  pose proof (Nat.mul_le_mono 1 NX NY NY ltac:(lia) ltac:(lia)) as H2.
  pose proof (Nat.mul_le_mono (NX * NY) (NX * NY) 1 NZ ltac:(lia) ltac:(lia)) as H3.
  pose proof (Nat.mul_le_mono 1 (NX * NY) NZ NZ ltac:(lia) ltac:(lia)) as H4.
  lia.
Qed.

(** The three nested loops complete and leave every grid point at its
    linear index. *)
Lemma make_stuctured_cloud_total :
  exists cloud,
    make_stuctured_cloud Lx Ly Lz (Z.of_nat NX) (Z.of_nat NY) (Z.of_nat NZ) = Ok cloud /\
    inv NX 0 0 cloud.
Proof.
  destruct cloud_fits as (HfX & HfY & HfZ).
  unfold make_stuctured_cloud, int_mul.
  rewrite (int_of_in (Z.of_nat NX * Z.of_nat NY)) by (unfold INT_MIN; nia). simpl.
  rewrite int_of_in by (unfold INT_MIN; nia). simpl.
  unfold vector_of_size.
  destruct (Z.leb_spec 0 (Z.of_nat NX * Z.of_nat NY * Z.of_nat NZ)); [|nia]. simpl.
  unfold for_int. rewrite !Nat2Z.id.
  apply (for_loop_total (fun i c => inv i 0 0 c)).
  { split; [rewrite length_replicate; lia|]. unfold visited. intros; lia. }
  intros i c Hi Hinv.
  match goal with |- exists s', for_loop _ ?body _ = _ /\ _ =>
    destruct (for_loop_total (fun j c => inv i j 0 c) NY body c)
      as (c' & Hc' & Hinv')
  end; [done | | ].
  - intros j cj Hj Hinvj.
    match goal with |- exists s', for_loop _ ?body _ = _ /\ _ =>
      destruct (for_loop_total (fun k c => inv i j k c) NZ body cj)
        as (ck & Hck & Hinvk)
    end; [done | | ].
    + intros k c0 Hk Hinv0.
      rewrite !coordinate_eq by (done || lia). simpl.
      rewrite ind_eq by done. simpl.
      destruct (Z.leb_spec 0 (Z.of_nat (pos i j k))); [|lia].
      rewrite Nat2Z.id. eexists. split.
      * apply store_in_range. destruct Hinv0 as [-> _]. by apply cloud_pos_lt.
      * by apply cloud_inv_store.
    + exists ck. split; [done|]. destruct Hinvk as [Hlen Hc]. split; [done|].
      intros i' j' k' Hi' Hj' Hk' Hv. apply Hc; [done..|]. unfold visited in *. lia.
  - exists c'. split; [done|]. destruct Hinv' as [Hlen Hc]. split; [done|].
    intros i' j' k' Hi' Hj' Hk' Hv. apply Hc; [done..|]. unfold visited in *. lia.
Qed.

(** The loop of [main_] that turns the points into boxes. *)
Lemma boxes_loop (cloud : list point) (boxes0 : list Box) :
  length boxes0 = length cloud ->
  for_loop (length cloud) (fun i boxes =>
      '(x, y, z) ← deref (cloud !! Z.to_nat (Z.of_nat i));
      store boxes (Z.to_nat (Z.of_nat i)) (Box_of x x y y z z)) boxes0
    = Ok (box_at <$> cloud).
Proof.
  intros Hlen.
  match goal with |- for_loop _ ?body _ = _ =>
    destruct (for_loop_total
      (fun i s => s = (box_at <$> take i cloud) ++ drop i boxes0)
      (length cloud) body boxes0) as (r & Hr & ->); [reflexivity | | ]
  end.
  - intros i s Hi ->. rewrite Nat2Z.id.
    destruct (lookup_lt_is_Some_2 cloud i) as [[[x y] z] Hp]; [lia|].
    destruct (lookup_lt_is_Some_2 boxes0 i) as [b Hb]; [lia|].
    assert (Hl : length (box_at <$> take i cloud) = i)
      by (rewrite length_fmap, length_take; lia).
    unfold point in *. rewrite Hp. simpl. eexists. split.
    + apply store_in_range. rewrite length_app, length_drop. lia.
    + rewrite (take_S_r _ _ _ Hp), fmap_app, <- (assoc_L (++)). simpl.
      rewrite insert_app_r_alt by lia. rewrite Hl, Nat.sub_diag.
      rewrite (drop_S _ _ _ Hb). done.
  - rewrite Hr, take_ge, drop_ge by lia. by rewrite app_nil_r.
Qed.

Lemma bounding_boxes_total :
  exists cloud,
    bounding_boxes Lx Ly Lz (Z.of_nat NX) (Z.of_nat NY) (Z.of_nat NZ)
      = Ok (box_at <$> cloud) /\
    inv NX 0 0 cloud.
Proof.
  destruct make_stuctured_cloud_total as (cloud & Hcloud & Hinv).
  exists cloud. split; [|done]. unfold bounding_boxes. rewrite Hcloud. simpl.
  destruct Hinv as [Hlen _]. unfold to_int.
  rewrite int_of_in by (unfold INT_MIN; lia). simpl.
  unfold vector_of_size. destruct (Z.leb_spec 0 (Z.of_nat (length cloud))); [|lia].
  simpl. unfold for_int. rewrite Nat2Z.id. apply boxes_loop.
  by rewrite length_replicate.
Qed.
End CloudFacts.

(** C7, amended.  For [nx, ny, nz >= 2] whose product [nx * ny * nz] fits
    in an [int], and any extents: the boxes the hierarchy is built over
    are exactly [nx * ny * nz], every one has its min corner equal to its
    max corner, and the box at linear index [i + j*nx + k*nx*ny] sits at
    the grid point [(i*Lx/(nx-1), j*Ly/(ny-1), k*Lz/(nz-1))]; [main_]
    builds over these boxes for the settings it parsed; without
    arguments that is the 11 x 11 x 11 cloud spanning [0,100]^3. *)
Theorem structured_cloud_boxes (Lx Ly Lz : Driver.double) (nx ny nz : Z)
    (Hnx : 2 <= nx) (Hny : 2 <= ny) (Hnz : 2 <= nz)
    (Hfits : nx * ny * nz <= Driver.INT_MAX) :
  (exists boxes,
     Driver.bounding_boxes Lx Ly Lz nx ny nz = Ok boxes /\
     Z.of_nat (length boxes) = nx * ny * nz /\
     (forall b, b ∈ boxes -> Driver.min_corner b = Driver.max_corner b) /\
     (forall i j k, 0 <= i < nx -> 0 <= j < ny -> 0 <= k < nz ->
        boxes !! Z.to_nat (i + j * nx + k * (nx * ny))
          = Some (Driver.box_at (Driver.grid_point Lx Ly Lz nx ny nz i j k)))) /\
  (forall clp argv s,
     Driver.main_settings clp argv = (Driver.PARSE_SUCCESSFUL, s) ->
     Driver.main_ clp argv
       = Driver.Build <$> Driver.bounding_boxes (Driver.Lx s) (Driver.Ly s) (Driver.Lz s)
                            (Driver.nx s) (Driver.ny s) (Driver.nz s)) /\
  Driver.main_ Driver.main_clp []
    = Ok (Driver.Build (Driver.box_at <$> Driver.default_cloud)).
Proof.
  split; [|split].
  - destruct (bounding_boxes_total Lx Ly Lz (Z.to_nat nx) (Z.to_nat ny) (Z.to_nat nz))
      as (cloud & Hb & Hlen & Hc); [lia.. | |].
    { rewrite !Nat2Z.inj_mul, !Z2Nat.id by lia. done. }
    rewrite !Z2Nat.id in Hb by lia.
    exists (Driver.box_at <$> cloud). split; [done|]. split; [|split].
    + rewrite length_fmap, Hlen, !Nat2Z.inj_mul, !Z2Nat.id by lia. done.
    + intros b (p & -> & _)%list_elem_of_fmap. done.
    + intros i j k Hi Hj Hk.
      specialize (Hc (Z.to_nat i) (Z.to_nat j) (Z.to_nat k)
                    ltac:(lia) ltac:(lia) ltac:(lia)).
      unfold Driver.cloud_pos, Driver.cloud_pt in Hc. rewrite !Z2Nat.id in Hc by lia.
      rewrite list_lookup_fmap.
      replace (Z.to_nat (i + j * nx + k * (nx * ny)))
        with (Z.to_nat i + Z.to_nat j * Z.to_nat nx
              + Z.to_nat k * (Z.to_nat nx * Z.to_nat ny))%nat by nia.
      rewrite Hc; [done|]. unfold Driver.visited. lia.
  - intros clp argv s Hs. unfold Driver.main_. by rewrite Hs.
  - vm_compute. reflexivity.
Qed.

(** The 2 x 2 x 2 cloud on [0,100]^3: eight boxes, the last at
    (100, 100, 100). *)
Lemma structured_cloud_boxes_witness :
  let L := Driver.double_of_int 100 in
  exists boxes,
    Driver.bounding_boxes L L L 2 2 2 = Ok boxes /\
    Z.of_nat (length boxes) = 8 /\
    boxes !! 7%nat = Some (Driver.box_at (L, L, L)).
Proof.
  intros L.
  destruct (structured_cloud_boxes L L L 2 2 2 ltac:(lia) ltac:(lia) ltac:(lia)
              ltac:(vm_compute; discriminate)) as [(boxes & Hb & Hlen & _ & Hat) _].
  exists boxes. split; [exact Hb|]. split; [exact Hlen|].
  exact (Hat 1 1 1 ltac:(lia) ltac:(lia) ltac:(lia)).
Defined.

(** C7 as stated fails for dimensions whose product leaves the range of
    [int]: with [--nx=1291 --ny=1291 --nz=1291] the size
    [nx * ny * nz] = 2151685171 of the cloud overflows and no cloud of
    that many points is built. *)
Lemma structured_cloud_overflow :
  let L := Driver.double_of_int 100 in
  let argv := [Driver.Option_ "nx" (Driver.IntValue 1291);
               Driver.Option_ "ny" (Driver.IntValue 1291);
               Driver.Option_ "nz" (Driver.IntValue 1291)] in
  Driver.main_ Driver.main_clp argv = Undefined /\
  ~ (exists boxes,
       Driver.bounding_boxes L L L 1291 1291 1291 = Ok boxes /\
       Z.of_nat (length boxes) = 1291 * 1291 * 1291).
Proof.
  intros L argv. split; [vm_compute; reflexivity|].
  assert (H : Driver.bounding_boxes L L L 1291 1291 1291 = Undefined)
    by (vm_compute; reflexivity).
  intros (boxes & H' & _). rewrite H in H'. discriminate.
Qed.

(** * Further properties *)

(** ** Small containers as bounded stacks *)

Lemma stack_run_None {T} (N : nat) (ops : list (stack_op T)) :
  foldl (fun r o => l ← r; stack_apply N o l) None ops = None.
Proof. induction ops as [|o ops IH]; [done | apply IH]. Qed.

Lemma removelast_take {T} (k : nat) (d : list T) :
  (k < length d)%nat -> removelast (take (S k) d) = take k d.
Proof. intros Hk. by apply removelast_firstn. Qed.

Section OwnedStack.
Context {T : Type} {N : nat}.
Implicit Type v : StaticVector.t T N.
Import StaticVector.

Lemma owned_run_failed (ops : list (stack_op T)) :
  foldl (fun r o => v ← r; apply o v) (AssertionFailed : result (t T N)) ops
    = AssertionFailed.
Proof. induction ops as [|o ops IH]; [done | apply IH]. Qed.

Lemma owned_length_contents v : wf v -> length (contents v) = _size v.
Proof. intros [Hlen Hle]. unfold contents. rewrite length_take. lia. Qed.

Lemma owned_apply_refines (o : stack_op T) v :
  wf v ->
  match stack_apply N o (contents v) with
  | Some l => exists v', apply o v = Ok v' /\ contents v' = l /\ wf v'
  | None => apply o v = AssertionFailed
  end.
Proof.
  intros Hwf. pose proof (owned_length_contents v Hwf) as Hc.
  destruct Hwf as [Hlen Hle]. destruct o as [value| |]; simpl.
  - rewrite Hc. unfold pushBack, size, maxSize.
    destruct (Nat.ltb_spec (_size v) N) as [Hlt|Hge]; simpl; [|done].
    rewrite store_in_range by lia. simpl. eexists. split; [done|].
    unfold contents, wf. simpl. rewrite length_insert. split; [|lia].
    erewrite take_S_r by (apply list_lookup_insert_eq; lia).
    by rewrite take_insert_ge by lia.
  - unfold popBack, size.
    destruct (contents v) as [|x l] eqn:Hl; simpl in Hc.
    + rewrite <- Hc. done.
    + destruct (Nat.ltb_spec 0 (_size v)) as [Hlt|Hge]; [|lia]. simpl.
      eexists. split; [done|]. unfold contents, wf in *. simpl. split; [|lia].
      change (take (_size v - 1) (_data v) = removelast (x :: l)).
      rewrite <- Hl. replace (_size v) with (S (_size v - 1)) at 2 by lia.
      rewrite removelast_take by lia. done.
  - eexists. split; [done|]. unfold contents, clear, wf. simpl.
    split; [done | lia].
Qed.

Lemma owned_run_refines (ops : list (stack_op T)) v :
  wf v ->
  match stack_run N ops (contents v) with
  | Some l => exists v', run ops v = Ok v' /\ contents v' = l /\ wf v'
  | None => run ops v = AssertionFailed
  end.
Proof.
  unfold stack_run, run. revert v. induction ops as [|o ops IH]; intros v Hwf.
  - simpl. by exists v.
  - simpl. pose proof (owned_apply_refines o v Hwf) as Hstep.
    destruct (stack_apply N o (contents v)) as [l|].
    + destruct Hstep as (v' & -> & <- & Hwf'). by apply IH.
    + rewrite Hstep, stack_run_None. apply owned_run_failed.
Qed.

Lemma owned_reads v (pos : nat) :
  wf v ->
  at_ v pos = from_option Ok AssertionFailed (contents v !! pos) /\
  front v = from_option Ok AssertionFailed (head (contents v)) /\
  back v = from_option Ok AssertionFailed (last (contents v)).
Proof.
  intros Hwf. pose proof (owned_length_contents v Hwf) as Hc.
  destruct Hwf as [Hlen Hle]. unfold at_, front, back, size, contents in *.
  split; [|split].
  - destruct (Nat.ltb_spec pos (_size v)) as [Hlt|Hge]; simpl.
    + rewrite lookup_take_lt by done.
      destruct (lookup_lt_is_Some_2 (_data v) pos) as [x ->]; [lia | done].
    + by rewrite lookup_take_ge by done.
  - rewrite head_lookup. destruct (Nat.ltb_spec 0 (_size v)) as [Hlt|Hge]; simpl.
    + rewrite lookup_take_lt by done.
      destruct (lookup_lt_is_Some_2 (_data v) 0) as [x ->]; [lia | done].
    + by rewrite lookup_take_ge by done.
  - rewrite last_lookup, Hc. destruct (Nat.ltb_spec 0 (_size v)) as [Hlt|Hge]; simpl.
    + replace (Init.Nat.pred (_size v)) with (_size v - 1)%nat by lia.
      rewrite lookup_take_lt by lia.
      destruct (lookup_lt_is_Some_2 (_data v) (_size v - 1)) as [x ->]; [lia | done].
    + by rewrite lookup_take_ge by lia.
Qed.

Lemma owned_push_all (xs : list T) v :
  wf v ->
  ((_size v + length xs <= N)%nat ->
     run (Push <$> xs) v
       = Ok {| _data := take (_size v) (_data v) ++ xs
                          ++ drop (_size v + length xs) (_data v);
               _size := (_size v + length xs)%nat |}) /\
  ((N < _size v + length xs)%nat -> run (Push <$> xs) v = AssertionFailed).
Proof.
  unfold run. revert v. induction xs as [|x xs IH]; intros v [Hlen Hle].
  - simpl. split; [|lia]. intros _. rewrite Nat.add_0_r, take_drop.
    by destruct v.
  - simpl. unfold pushBack, size, maxSize.
    destruct (Nat.ltb_spec (_size v) N) as [Hlt|Hge]; simpl.
    + rewrite store_in_range by lia. simpl.
      destruct (IH {| _data := <[_size v:=x]> (_data v); _size := S (_size v) |})
        as [Hok Hfail].
      { split; simpl; [by rewrite length_insert | lia]. }
      simpl in *. split.
      * intros Hroom. etrans; [apply Hok; lia|]. f_equal. f_equal; [|lia].
        erewrite take_S_r by (apply list_lookup_insert_eq; lia).
        rewrite take_insert_ge by lia. rewrite <- (assoc_L (++)). simpl.
        rewrite drop_insert_lt by lia. do 3 f_equal. by rewrite Nat.add_succ_r.
      * intros Hover. apply Hfail. lia.
    + split; [lia|]. intros _. apply owned_run_failed.
Qed.
End OwnedStack.

(** X1.  A well-formed [StaticVector] is a stack of at most [N]
    elements: any run of [pushBack], [popBack] and [clear] either stops
    on an assertion, exactly where the bounded stack has no move (a push
    on [N] elements, a pop on none), or returns a well-formed vector
    whose elements in use are those of the stack.  In particular no run
    leaves the array. *)
Theorem StaticVector_refines_stack {T : Type} {N : nat}
    (ops : list (stack_op T)) (v : StaticVector.t T N)
    (Hwf : StaticVector.wf v) :
  match stack_run N ops (StaticVector.contents v) with
  | Some l => exists v', StaticVector.run ops v = Ok v' /\
                         StaticVector.contents v' = l /\ StaticVector.wf v'
  | None => StaticVector.run ops v = AssertionFailed
  end.
Proof. by apply owned_run_refines. Qed.

(** Capacity 2: push, push, pop, push is fine, a third element is not. *)
Lemma StaticVector_refines_stack_witness :
  let v : StaticVector.t Z 2 := StaticVector.default [0; 0] in
  (exists v', StaticVector.run [Push 1; Push 2; Pop; Push 3] v = Ok v' /\
              StaticVector.contents v' = [1; 3] /\ StaticVector.wf v') /\
  StaticVector.run [Push 1; Push 2; Push 3] v = AssertionFailed.
Proof.
  intros v. assert (Hwf : StaticVector.wf v) by (split; simpl; lia).
  split.
  - exact (StaticVector_refines_stack [Push 1; Push 2; Pop; Push 3] v Hwf).
  - exact (StaticVector_refines_stack [Push 1; Push 2; Push 3] v Hwf).
Defined.

(** X2.  On a well-formed [StaticVector], [operator[]], [front] and
    [back] read the elements in use: position [pos] of them, the first
    and the last, and stop on the assertion when there is none. *)
Theorem StaticVector_reads_contents {T : Type} {N : nat}
    (v : StaticVector.t T N) (pos : nat) (Hwf : StaticVector.wf v) :
  StaticVector.at_ v pos
    = from_option Ok AssertionFailed (StaticVector.contents v !! pos) /\
  StaticVector.front v
    = from_option Ok AssertionFailed (head (StaticVector.contents v)) /\
  StaticVector.back v
    = from_option Ok AssertionFailed (last (StaticVector.contents v)).
Proof. by apply owned_reads. Qed.

Lemma StaticVector_reads_contents_witness :
  let v : StaticVector.t Z 4 := StaticVector.Build [7; 8; 9; 0] 3 in
  StaticVector.at_ v 1 = Ok 8 /\ StaticVector.front v = Ok 7 /\
  StaticVector.back v = Ok 9.
Proof.
  intros v. assert (Hwf : StaticVector.wf v) by (split; simpl; lia).
  exact (StaticVector_reads_contents v 1 Hwf).
Defined.

(** X3.  Pushing the values [xs] one after the other onto a well-formed
    [StaticVector] succeeds exactly when they fit in the capacity left;
    the values then lie in the array right after the old elements, in
    order, and the slots behind them are left as they were. *)
Theorem StaticVector_push_all {T : Type} {N : nat}
    (xs : list T) (v : StaticVector.t T N) (Hwf : StaticVector.wf v) :
  ((StaticVector._size v + length xs <= N)%nat ->
     StaticVector.run (Push <$> xs) v
       = Ok (StaticVector.Build
               (take (StaticVector._size v) (StaticVector._data v) ++ xs
                  ++ drop (StaticVector._size v + length xs) (StaticVector._data v))
               (StaticVector._size v + length xs))) /\
  ((N < StaticVector._size v + length xs)%nat ->
     StaticVector.run (Push <$> xs) v = AssertionFailed).
Proof. by apply owned_push_all. Qed.

Lemma StaticVector_push_all_witness :
  let v : StaticVector.t Z 4 := StaticVector.Build [7; 0; 5; 6] 1 in
  StaticVector.run (Push <$> [8; 9]) v = Ok (StaticVector.Build [7; 8; 9; 6] 3) /\
  StaticVector.run (Push <$> [1; 2; 3; 4]) v = AssertionFailed.
Proof.
  intros v. assert (Hwf : StaticVector.wf v) by (split; simpl; lia).
  split.
  - apply (proj1 (StaticVector_push_all [8; 9] v Hwf)). simpl. lia.
  - apply (proj2 (StaticVector_push_all [1; 2; 3; 4] v Hwf)). simpl. lia.
Defined.

Section BorrowedStack.
Context {T : Type}.
Implicit Type v : UnmanagedStaticVector.t T.
Import UnmanagedStaticVector.

Lemma borrowed_run_failed (ops : list (stack_op T)) :
  foldl (fun r o => v ← r; apply o v) (AssertionFailed : result (t T)) ops
    = AssertionFailed.
Proof. induction ops as [|o ops IH]; [done | apply IH]. Qed.

Lemma borrowed_length_contents v : wf v -> length (contents v) = _size v.
Proof. intros [Hlen Hle]. unfold contents. rewrite length_take. lia. Qed.

Lemma same_frame_refl v : same_frame v v.
Proof. by repeat split. Qed.

Lemma same_frame_trans v1 v2 v3 :
  same_frame v1 v2 -> same_frame v2 v3 -> same_frame v1 v3.
Proof.
  intros (Hm & Hl & Hd) (Hm' & Hl' & Hd'). rewrite Hm in Hd'.
  repeat split; congruence.
Qed.

Lemma borrowed_apply_refines (o : stack_op T) v :
  wf v ->
  match stack_apply (_max_size v) o (contents v) with
  | Some l => exists v', apply o v = Ok v' /\ contents v' = l /\ wf v' /\
                         same_frame v v'
  | None => apply o v = AssertionFailed
  end.
Proof.
  intros Hwf. pose proof (borrowed_length_contents v Hwf) as Hc.
  destruct Hwf as [Hlen Hle]. destruct o as [value| |]; simpl.
  - rewrite Hc. unfold pushBack, size, maxSize.
    destruct (Nat.ltb_spec (_size v) (_max_size v)) as [Hlt|Hge]; simpl; [|done].
    rewrite store_in_range by lia. simpl. eexists. split; [done|].
    unfold contents, wf, same_frame. simpl. rewrite length_insert.
    split; [|repeat split; try lia; by rewrite drop_insert_lt by lia].
    erewrite take_S_r by (apply list_lookup_insert_eq; lia).
    by rewrite take_insert_ge by lia.
  - unfold popBack, size.
    destruct (contents v) as [|x l] eqn:Hl; simpl in Hc.
    + rewrite <- Hc. done.
    + destruct (Nat.ltb_spec 0 (_size v)) as [Hlt|Hge]; [|lia]. simpl.
      eexists. split; [done|]. unfold contents, wf, same_frame in *. simpl.
      split; [|repeat split; lia].
      change (take (_size v - 1) (_ptr v) = removelast (x :: l)).
      rewrite <- Hl. replace (_size v) with (S (_size v - 1)) at 2 by lia.
      rewrite removelast_take by lia. done.
  - eexists. split; [done|]. unfold contents, clear, wf, same_frame. simpl.
    repeat split; lia.
Qed.

Lemma borrowed_run_refines (ops : list (stack_op T)) v :
  wf v ->
  match stack_run (_max_size v) ops (contents v) with
  | Some l => exists v', run ops v = Ok v' /\ contents v' = l /\ wf v' /\
                         same_frame v v'
  | None => run ops v = AssertionFailed
  end.
Proof.
  unfold stack_run, run. revert v. induction ops as [|o ops IH]; intros v Hwf.
  - simpl. exists v. repeat split; try apply Hwf; done.
  - simpl. pose proof (borrowed_apply_refines o v Hwf) as Hstep.
    destruct (stack_apply (_max_size v) o (contents v)) as [l|].
    + destruct Hstep as (v' & -> & <- & Hwf' & Hfr).
      specialize (IH v' Hwf'). destruct Hfr as (Hm & Hfr). rewrite Hm in IH.
      simpl. destruct (foldl _ (Some (contents v')) ops) as [l|].
      * destruct IH as (v'' & Hrun & Hc & Hwf'' & Hfr'). exists v''.
        repeat split; try done; try apply Hwf'';
          eapply (same_frame_trans v v' v''); try done; by split.
      * done.
    + rewrite Hstep, stack_run_None. apply borrowed_run_failed.
Qed.

Lemma borrowed_reads v (pos : nat) :
  wf v ->
  at_ v pos = from_option Ok AssertionFailed (contents v !! pos) /\
  front v = from_option Ok AssertionFailed (head (contents v)) /\
  back v = from_option Ok AssertionFailed (last (contents v)).
Proof.
  intros Hwf. pose proof (borrowed_length_contents v Hwf) as Hc.
  destruct Hwf as [Hlen Hle]. unfold at_, front, back, size, contents in *.
  split; [|split].
  - destruct (Nat.ltb_spec pos (_size v)) as [Hlt|Hge]; simpl.
    + rewrite lookup_take_lt by done.
      destruct (lookup_lt_is_Some_2 (_ptr v) pos) as [x ->]; [lia | done].
    + by rewrite lookup_take_ge by done.
  - rewrite head_lookup. destruct (Nat.ltb_spec 0 (_size v)) as [Hlt|Hge]; simpl.
    + rewrite lookup_take_lt by done.
      destruct (lookup_lt_is_Some_2 (_ptr v) 0) as [x ->]; [lia | done].
    + by rewrite lookup_take_ge by done.
  - rewrite last_lookup, Hc. destruct (Nat.ltb_spec 0 (_size v)) as [Hlt|Hge]; simpl.
    + replace (Init.Nat.pred (_size v)) with (_size v - 1)%nat by lia.
      rewrite lookup_take_lt by lia.
      destruct (lookup_lt_is_Some_2 (_ptr v) (_size v - 1)) as [x ->]; [lia | done].
    + by rewrite lookup_take_ge by lia.
Qed.

Lemma borrowed_push_all (xs : list T) v :
  wf v ->
  ((_size v + length xs <= _max_size v)%nat ->
     run (Push <$> xs) v
       = Ok {| _ptr := take (_size v) (_ptr v) ++ xs
                         ++ drop (_size v + length xs) (_ptr v);
               _max_size := _max_size v;
               _size := (_size v + length xs)%nat |}) /\
  ((_max_size v < _size v + length xs)%nat ->
     run (Push <$> xs) v = AssertionFailed).
Proof.
  unfold run. revert v. induction xs as [|x xs IH]; intros v [Hlen Hle].
  - simpl. split; [|lia]. intros _. rewrite Nat.add_0_r, take_drop.
    by destruct v.
  - simpl. unfold pushBack, size, maxSize.
    destruct (Nat.ltb_spec (_size v) (_max_size v)) as [Hlt|Hge]; simpl.
    + rewrite store_in_range by lia. simpl.
      destruct (IH {| _ptr := <[_size v:=x]> (_ptr v); _max_size := _max_size v;
                      _size := S (_size v) |}) as [Hok Hfail].
      { split; simpl; [rewrite length_insert |]; lia. }
      simpl in *. split.
      * intros Hroom. etrans; [apply Hok; lia|]. f_equal. f_equal; [|lia].
        erewrite take_S_r by (apply list_lookup_insert_eq; lia).
        rewrite take_insert_ge by lia. rewrite <- (assoc_L (++)). simpl.
        rewrite drop_insert_lt by lia. do 3 f_equal. by rewrite Nat.add_succ_r.
      * intros Hover. apply Hfail. lia.
    + split; [lia|]. intros _. apply borrowed_run_failed.
Qed.

Lemma borrowed_make_push_all (ptr : option (list T)) (max_size : nat) (xs : list T) :
  match ptr with
  | None => make ptr max_size = AssertionFailed
  | Some storage =>
      (max_size <= length storage)%nat ->
      (v ← make ptr max_size; run (Push <$> xs) v)
        = if (length xs <=? max_size)%nat
          then Ok {| _ptr := xs ++ drop (length xs) storage;
                     _max_size := max_size; _size := length xs |}
          else AssertionFailed
  end.
Proof.
  destruct ptr as [storage|]; [|done]. intros Hlen. simpl.
  destruct (borrowed_push_all xs {| _ptr := storage; _max_size := max_size; _size := 0 |})
    as [Hok Hfail].
  { split; simpl; lia. }
  simpl in *. destruct (Nat.leb_spec (length xs) max_size) as [Hle|Hgt].
  - by apply Hok.
  - by apply Hfail.
Qed.
End BorrowedStack.

(** X4.  A well-formed [UnmanagedStaticVector] is a stack of at most
    [_max_size] elements kept in the caller's storage: a run of
    [pushBack], [popBack] and [clear] stops on an assertion exactly
    where the bounded stack has no move, and otherwise returns a
    well-formed vector holding the stack's elements, with the same
    capacity, and with every slot of the caller's storage from the
    capacity on left as it was. *)
Theorem UnmanagedStaticVector_refines_stack {T : Type}
    (ops : list (stack_op T)) (v : UnmanagedStaticVector.t T)
    (Hwf : UnmanagedStaticVector.wf v) :
  match stack_run (UnmanagedStaticVector._max_size v) ops
          (UnmanagedStaticVector.contents v) with
  | Some l => exists v', UnmanagedStaticVector.run ops v = Ok v' /\
                         UnmanagedStaticVector.contents v' = l /\
                         UnmanagedStaticVector.wf v' /\
                         UnmanagedStaticVector.same_frame v v'
  | None => UnmanagedStaticVector.run ops v = AssertionFailed
  end.
Proof. by apply borrowed_run_refines. Qed.

(** Capacity 2 inside a storage of three slots. *)
Lemma UnmanagedStaticVector_refines_stack_witness :
  let v : UnmanagedStaticVector.t Z := UnmanagedStaticVector.Build [0; 0; 42] 2 0 in
  (exists v', UnmanagedStaticVector.run [Push 1; Push 2; Pop; Push 3] v = Ok v' /\
              UnmanagedStaticVector.contents v' = [1; 3] /\
              UnmanagedStaticVector.wf v' /\
                         UnmanagedStaticVector.same_frame v v') /\
  UnmanagedStaticVector.run [Push 1; Push 2; Push 3] v = AssertionFailed.
Proof.
  intros v. assert (Hwf : UnmanagedStaticVector.wf v) by (split; simpl; lia).
  split.
  - exact (UnmanagedStaticVector_refines_stack [Push 1; Push 2; Pop; Push 3] v Hwf).
  - exact (UnmanagedStaticVector_refines_stack [Push 1; Push 2; Push 3] v Hwf).
Defined.

(** X5.  On a well-formed [UnmanagedStaticVector], [operator[]],
    [front] and [back] read the elements in use, and stop on the
    assertion when there is none at the position asked for. *)
Theorem UnmanagedStaticVector_reads_contents {T : Type}
    (v : UnmanagedStaticVector.t T) (pos : nat)
    (Hwf : UnmanagedStaticVector.wf v) :
  UnmanagedStaticVector.at_ v pos
    = from_option Ok AssertionFailed (UnmanagedStaticVector.contents v !! pos) /\
  UnmanagedStaticVector.front v
    = from_option Ok AssertionFailed (head (UnmanagedStaticVector.contents v)) /\
  UnmanagedStaticVector.back v
    = from_option Ok AssertionFailed (last (UnmanagedStaticVector.contents v)).
Proof. by apply borrowed_reads. Qed.

Lemma UnmanagedStaticVector_reads_contents_witness :
  let v : UnmanagedStaticVector.t Z := UnmanagedStaticVector.Build [7; 8; 9; 0] 4 3 in
  UnmanagedStaticVector.at_ v 3 = AssertionFailed /\
  UnmanagedStaticVector.front v = Ok 7 /\
  UnmanagedStaticVector.back v = Ok 9.
Proof.
  intros v. assert (Hwf : UnmanagedStaticVector.wf v) by (split; simpl; lia).
  exact (UnmanagedStaticVector_reads_contents v 3 Hwf).
Defined.

(** X6.  The constructor of [UnmanagedStaticVector] stops on its
    assertion for a null pointer.  Over a storage of at least
    [max_size] elements it gives an empty vector, and pushing the values
    [xs] onto it succeeds exactly when there are at most [max_size] of
    them; they are then written through to the first slots of the
    caller's storage, in order, the other slots keeping their
    values. *)
Theorem UnmanagedStaticVector_make_push_all {T : Type}
    (ptr : option (list T)) (max_size : nat) (xs : list T) :
  match ptr with
  | None => UnmanagedStaticVector.make ptr max_size = AssertionFailed
  | Some storage =>
      (max_size <= length storage)%nat ->
      (v ← UnmanagedStaticVector.make ptr max_size;
       UnmanagedStaticVector.run (Push <$> xs) v)
        = if (length xs <=? max_size)%nat
          then Ok (UnmanagedStaticVector.Build
                     (xs ++ drop (length xs) storage) max_size (length xs))
          else AssertionFailed
  end.
Proof. by apply borrowed_make_push_all. Qed.

Lemma UnmanagedStaticVector_make_push_all_witness :
  (v ← UnmanagedStaticVector.make (Some [0; 0; 0; 42]) 3;
   UnmanagedStaticVector.run (Push <$> [1; 2]) v)
    = Ok (UnmanagedStaticVector.Build [1; 2; 0; 42] 3 2) /\
  (v ← UnmanagedStaticVector.make (Some [0; 0; 0; 42]) 3;
   UnmanagedStaticVector.run (Push <$> [1; 2; 3; 4]) v) = AssertionFailed.
Proof.
  split.
  - apply (UnmanagedStaticVector_make_push_all (Some [0; 0; 0; 42]) 3 [1; 2]).
    simpl. lia.
  - apply (UnmanagedStaticVector_make_push_all (Some [0; 0; 0; 42]) 3 [1; 2; 3; 4]).
    simpl. lia.
Defined.

(** ** The cartesian grid: construction and cell numbering *)

Section GridCells.
Import CartesianGrid.
Variable DIM : nat.

Lemma axis_counts_length bounds h k cs :
  axis_counts bounds h k = Ok cs -> length cs = k.
Proof.
  revert cs. induction k as [|k IH]; intros cs Hcs; simpl in Hcs.
  - by inversion Hcs.
  - apply bind_Ok_inv in Hcs as (cs' & Hcs' & Hcs).
    apply bind_Ok_inv in Hcs as (c & Hc & Hcs). inversion Hcs; subst cs.
    rewrite length_app, (IH cs' Hcs'). simpl. lia.
Qed.

Lemma axis_counts_lookup bounds h k cs d :
  axis_counts bounds h k = Ok cs -> (d < k)%nat ->
  exists c, cs !! d = Some c /\ axis_count bounds h d = Ok c.
Proof.
  revert cs. induction k as [|k IH]; intros cs Hcs Hd; [lia|]. simpl in Hcs.
  apply bind_Ok_inv in Hcs as (cs' & Hcs' & Hcs).
  apply bind_Ok_inv in Hcs as (c & Hc & Hcs). inversion Hcs; subst cs.
  pose proof (axis_counts_length _ _ _ _ Hcs') as Hlen.
  destruct (decide (d = k)) as [->|Hne].
  - exists c. split; [|done]. rewrite lookup_app_r by lia.
    by rewrite Hlen, Nat.sub_diag.
  - destruct (IH cs' Hcs') as (c' & Hc' & Hax); [lia|].
    exists c'. split; [|done]. by rewrite lookup_app_l by lia.
Qed.

(** The first loop of [buildGrid] writes the counts of the axes below
    [k] over the first [k] entries of [_n] and reads none of them
    before it has written it. *)
Lemma buildGrid_counts_loop bounds h n k :
  (k <= length n)%nat ->
  for_loop k (fun d _n =>
    hi ← deref (maxCorner bounds !! d);
    lo ← deref (minCorner bounds !! d);
    let delta := fsub hi lo in
    if fne delta fzero then
      hd ← deref (h !! d);
      c ← float_to_size_t (ceil (fdiv delta hd));
      _n ← store _n d c;
      nd ← deref (_n !! d);
      _ ← assert_ (0 <? nd);
      Ok _n
    else
      store _n d 1) n
  = (cs ← axis_counts bounds h k; Ok (cs ++ drop k n)).
Proof.
  induction k as [|k IH]; intros Hk; [done|].
  rewrite for_loop_S, IH by lia. simpl.
  destruct (axis_counts bounds h k) as [cs| | |] eqn:Hcs; simpl; try done.
  pose proof (axis_counts_length _ _ _ _ Hcs) as Hlen.
  assert (Hst : forall c, store (cs ++ drop k n) k c = Ok ((cs ++ [c]) ++ drop (S k) n)).
  { intros c. rewrite store_in_range by (rewrite length_app, length_drop; lia).
    f_equal. rewrite insert_app_r_alt by lia. rewrite Hlen, Nat.sub_diag.
    rewrite <- (assoc_L (++)). f_equal.
    destruct (lookup_lt_is_Some_2 n k) as [x Hx]; [lia|].
    by rewrite (drop_S _ _ _ Hx). }
  unfold axis_count.
  destruct (maxCorner bounds !! k) as [hi|]; simpl; [|done].
  destruct (minCorner bounds !! k) as [lo|]; simpl; [|done].
  destruct (fne (fsub hi lo) fzero); [|by rewrite Hst].
  destruct (h !! k) as [hd|]; simpl; [|done].
  destruct (float_to_size_t (ceil (fdiv (fsub hi lo) hd))) as [c| | |]; simpl;
    try done.
  rewrite Hst. simpl. rewrite lookup_app_l by (rewrite length_app; simpl; lia).
  rewrite lookup_app_r by lia. rewrite Hlen, Nat.sub_diag. simpl.
  by destruct (0 <? c).
Qed.

Lemma buildGrid_counts_eq bounds h n :
  (DIM <= length n)%nat ->
  buildGrid_counts DIM bounds h n
    = (cs ← axis_counts bounds h DIM; Ok (cs ++ drop DIM n)).
Proof. apply buildGrid_counts_loop. Qed.

Lemma fill_loop {A} (x : A) (l : list A) k :
  (k <= length l)%nat ->
  for_loop k (fun d a => store a d x) l = Ok (replicate k x ++ drop k l).
Proof.
  induction k as [|k IH]; intros Hk; [done|].
  rewrite for_loop_S, IH by lia. simpl.
  rewrite store_in_range by (rewrite length_app, length_replicate, length_drop; lia).
  f_equal. rewrite insert_app_r_alt by (rewrite length_replicate; lia).
  rewrite length_replicate, Nat.sub_diag.
  destruct (lookup_lt_is_Some_2 l k) as [y Hy]; [lia|].
  rewrite (drop_S _ _ _ Hy). simpl.
  change (replicate k x ++ [x] ++ drop (S k) l
          = (x :: replicate k x) ++ drop (S k) l).
  by rewrite replicate_cons_app, <- (assoc_L (++)).
Qed.

(** The uniform constructor as a function of its arguments alone. *)
Lemma make_uniform_eq bounds h raw :
  length (_h raw) = DIM -> length (_n raw) = DIM ->
  make_uniform DIM bounds h raw
    = (_ ← assert_ (fgt h fzero);
       n ← axis_counts bounds (replicate DIM h) DIM;
       _ ← buildGrid_check DIM n;
       Ok {| _bounds := bounds; _h := replicate DIM h; _n := n |}).
Proof.
  intros Hh Hn. unfold make_uniform. destruct (fgt h fzero); simpl; [|done].
  rewrite fill_loop by lia. simpl. unfold buildGrid. simpl.
  rewrite buildGrid_counts_eq by lia.
  rewrite (drop_ge (_h raw)), (drop_ge (_n raw)), app_nil_r by lia.
  destruct (axis_counts bounds (replicate DIM h) DIM) as [cs| | |]; simpl; try done.
  by rewrite app_nil_r.
Qed.

Lemma make_uniform_fields bounds h raw g :
  length (_h raw) = DIM -> length (_n raw) = DIM ->
  make_uniform DIM bounds h raw = Ok g ->
  fgt h fzero = true /\ _bounds g = bounds /\ _h g = replicate DIM h /\
  length (_n g) = DIM /\
  (forall d, (d < DIM)%nat ->
     exists c, _n g !! d = Some c /\ axis_count bounds (replicate DIM h) d = Ok c).
Proof.
  intros Hh Hn. rewrite make_uniform_eq by done. intros Hg.
  apply bind_Ok_inv in Hg as (u & Hu & Hg). apply assert_Ok_inv in Hu.
  apply bind_Ok_inv in Hg as (n & Hcs & Hg).
  apply bind_Ok_inv in Hg as (m & Hm & Hg). inversion Hg; subst g. simpl.
  repeat split; try done.
  - by apply (axis_counts_length bounds (replicate DIM h)).
  - intros d Hd. by apply (axis_counts_lookup bounds (replicate DIM h) DIM).
Qed.

(** The second loop of [buildGrid], round by round. *)
Lemma buildGrid_check_loop bounds n k :
  counted bounds DIM n -> (1 <= DIM)%nat -> (k <= DIM - 1)%nat ->
  for_loop k (fun (i : nat) (m : Z) =>
    prev ← deref (n !! (S i - 1)%nat);
    m ← (if prev =? 0 then Undefined else Ok (m / prev));
    nd ← deref (n !! S i);
    _ ← assert_ (nd <? m);
    Ok m) max_size_t
  = if forallb (fun d => default 0 (n !! d) <? max_size_t / cell_count (take d n))
               (seq 1 k)
    then Ok (max_size_t / cell_count (take k n)) else AssertionFailed.
Proof.
  intros Hn HDIM. induction k as [|k IH]; intros Hk.
  - cbn [for_loop seq forallb]. rewrite take_0. unfold cell_count.
    cbn [foldr]. by rewrite Z.div_1_r.
  - rewrite for_loop_S, IH by lia. rewrite seq_S, forallb_app. simpl.
    destruct (forallb _ (seq 1 k)); simpl; [|done].
    replace (k - 0)%nat with k by lia.
    destruct (Hn k) as (prev & Hprev & Hrp & _); [lia|].
    destruct (Hn (S k)) as (c & Hc & Hrc & _); [lia|].
    rewrite Hprev. simpl.
    destruct (Z.eqb_spec prev 0) as [?|_]; [lia|]. simpl. rewrite Hc. simpl.
    rewrite (cell_count_take_S _ _ _ Hprev).
    pose proof (cell_count_pos DIM bounds n k Hn ltac:(lia)).
    rewrite Z.div_div by lia.
    by destruct (c <? max_size_t / (cell_count (take k n) * prev)).
Qed.

Lemma buildGrid_check_eq bounds n :
  counted bounds DIM n ->
  buildGrid_check DIM n
    = if accepted DIM n then Ok (max_size_t / cell_count (take (DIM - 1) n))
      else AssertionFailed.
Proof.
  intros Hn. unfold accepted. destruct DIM as [|D] eqn:HD.
  - cbn [buildGrid_check for_loop Nat.sub seq forallb]. rewrite take_0.
    unfold cell_count. cbn [foldr]. by rewrite Z.div_1_r.
  - rewrite <- HD in *. apply (buildGrid_check_loop bounds); [done | lia | lia].
Qed.

Lemma buildGrid_eq g n :
  buildGrid_counts DIM (_bounds g) (_h g) (_n g) = Ok n ->
  buildGrid DIM g
    = if accepted DIM n
      then Ok {| _bounds := _bounds g; _h := _h g; _n := n |}
      else AssertionFailed.
Proof.
  intros Hcounts. unfold buildGrid. rewrite Hcounts. simpl.
  destruct (buildGrid_counts_spec DIM _ _ _ _ Hcounts) as [_ Hn].
  rewrite (buildGrid_check_eq _ _ Hn). by destruct (accepted DIM n).
Qed.
End GridCells.

(** X7.  The overflow check of [buildGrid] is this test and no other:
    with the counts [n] of the first loop, a grid is built exactly when
    every axis after the first has fewer cells than [max_size_t]
    divided (rounding down) by the number of cells of the axes before
    it, and the assertion stops the constructor otherwise.  The test is
    stricter than the product of the counts fitting in [size_t]. *)
Theorem buildGrid_accepts_exactly (DIM : nat) (g : CartesianGrid.t) (n : list Z)
    (Hcounts : CartesianGrid.buildGrid_counts DIM (CartesianGrid._bounds g)
                 (CartesianGrid._h g) (CartesianGrid._n g) = Ok n) :
  CartesianGrid.buildGrid DIM g
    = if CartesianGrid.accepted DIM n
      then Ok (CartesianGrid.Build (CartesianGrid._bounds g) (CartesianGrid._h g) n)
      else AssertionFailed.
Proof. by apply buildGrid_eq. Qed.

(** 2^40 by 2^24 - 1 cells are fewer than 2^64 and are refused. *)
Lemma buildGrid_accepts_exactly_witness :
  let f := CartesianGrid.float_of_Z in
  let bounds := {| CartesianGrid.minCorner := [f 0; f 0];
                   CartesianGrid.maxCorner := [f (2 ^ 40); f (2 ^ 24 - 1)] |} in
  let g := CartesianGrid.Build bounds [f 1; f 1] [0; 0] in
  CartesianGrid.buildGrid_counts 2 bounds [f 1; f 1] [0; 0]
    = Ok [2 ^ 40; 2 ^ 24 - 1] /\
  CartesianGrid.cell_count [2 ^ 40; 2 ^ 24 - 1] <= CartesianGrid.max_size_t /\
  CartesianGrid.buildGrid 2 g = AssertionFailed.
Proof.
  intros f bounds g.
  assert (Hcounts : CartesianGrid.buildGrid_counts 2 bounds [f 1; f 1] [0; 0]
                    = Ok [2 ^ 40; 2 ^ 24 - 1]) by (vm_compute; reflexivity).
  split; [exact Hcounts|]. split; [vm_compute; discriminate|].
  exact (buildGrid_accepts_exactly 2 g [2 ^ 40; 2 ^ 24 - 1] Hcounts).
Defined.

(** X8.  The uniform constructor reads nothing of the storage it is
    given: whatever the members [_h] and [_n] hold before it runs, it
    returns the same grid or stops in the same way.  (The per-axis
    constructor does not have this property.) *)
Theorem make_uniform_ignores_storage (DIM : nat) (bounds : CartesianGrid.Box)
    (h : CartesianGrid.float) (raw raw' : CartesianGrid.t)
    (Hh : length (CartesianGrid._h raw) = DIM)
    (Hn : length (CartesianGrid._n raw) = DIM)
    (Hh' : length (CartesianGrid._h raw') = DIM)
    (Hn' : length (CartesianGrid._n raw') = DIM) :
  CartesianGrid.make_uniform DIM bounds h raw
    = CartesianGrid.make_uniform DIM bounds h raw'.
Proof. by rewrite !make_uniform_eq. Qed.

Lemma make_uniform_ignores_storage_witness :
  let f := CartesianGrid.float_of_Z in
  let bounds := {| CartesianGrid.minCorner := [f 0; f 5];
                   CartesianGrid.maxCorner := [f 2; f 5] |} in
  CartesianGrid.make_uniform 2 bounds (f 1)
      (CartesianGrid.Build bounds [f 0; f (-3)] [7; 0])
    = CartesianGrid.make_uniform 2 bounds (f 1)
      (CartesianGrid.Build bounds [f 1; f 1] [0; 0]).
Proof.
  intros f bounds.
  apply (make_uniform_ignores_storage 2 bounds (f 1)
           (CartesianGrid.Build bounds [f 0; f (-3)] [7; 0])
           (CartesianGrid.Build bounds [f 1; f 1] [0; 0])); reflexivity.
Defined.

(** X9.  A grid returned by the uniform constructor keeps the bounds it
    was given and the spacing [h > 0] on every axis, and has on every
    axis the count of [buildGrid]: one cell where the corners compare
    equal, and otherwise the ceiling of the extent divided by [h],
    which is then at least one. *)
Theorem make_uniform_grid (DIM : nat) (bounds : CartesianGrid.Box)
    (h : CartesianGrid.float) (raw g : CartesianGrid.t)
    (Hh : length (CartesianGrid._h raw) = DIM)
    (Hn : length (CartesianGrid._n raw) = DIM)
    (Hg : CartesianGrid.make_uniform DIM bounds h raw = Ok g) :
  CartesianGrid.fgt h CartesianGrid.fzero = true /\
  CartesianGrid._bounds g = bounds /\
  CartesianGrid._h g = replicate DIM h /\
  length (CartesianGrid._n g) = DIM /\
  (forall d, (d < DIM)%nat ->
     exists c, CartesianGrid._n g !! d = Some c /\
               CartesianGrid.axis_count bounds (replicate DIM h) d = Ok c).
Proof. by apply (make_uniform_fields DIM bounds h raw). Qed.

Lemma make_uniform_grid_witness :
  let f := CartesianGrid.float_of_Z in
  let bounds := {| CartesianGrid.minCorner := [f 0; f 5];
                   CartesianGrid.maxCorner := [f 7; f 5] |} in
  let h := CartesianGrid.fdiv (f 1) (f 2) in
  let g := CartesianGrid.Build bounds [h; h] [14; 1] in
  CartesianGrid.make_uniform 2 bounds h (CartesianGrid.Build bounds [f 0; f 0] [0; 0])
    = Ok g /\
  CartesianGrid._h g = replicate 2 h /\
  (exists c, CartesianGrid._n g !! 0%nat = Some c /\
             CartesianGrid.axis_count bounds (replicate 2 h) 0 = Ok c).
Proof.
  intros f bounds h g.
  assert (Hg : CartesianGrid.make_uniform 2 bounds h
                 (CartesianGrid.Build bounds [f 0; f 0] [0; 0]) = Ok g)
    by (vm_compute; reflexivity).
  split; [exact Hg|].
  destruct (make_uniform_grid 2 bounds h
              (CartesianGrid.Build bounds [f 0; f 0] [0; 0]) g eq_refl eq_refl Hg)
    as (_ & _ & Hh & _ & Hax).
  split; [exact Hh|]. apply Hax. lia.
Defined.

Section GridNumbering.
Import CartesianGrid.
Variable DIM : nat.

Lemma cell_count_app a b : cell_count (a ++ b) = cell_count a * cell_count b.
Proof.
  unfold cell_count. induction a as [|x a IH]; simpl.
  - by destruct (foldr Z.mul 1 b).
  - rewrite IH. lia.
Qed.

Lemma cell_count_ge_1 n : Forall (fun c => 1 <= c) n -> 1 <= cell_count n.
Proof.
  unfold cell_count. induction 1 as [|c n Hc Hn IH]; simpl; [lia | nia].
Qed.

Lemma cell_count_drop_le n k :
  Forall (fun c => 1 <= c) n -> cell_count (drop k n) <= cell_count n.
Proof.
  intros Hn. rewrite <- (take_drop k n) at 2. rewrite cell_count_app.
  pose proof (cell_count_ge_1 (take k n) (Forall_take _ _ _ Hn)).
  pose proof (cell_count_ge_1 (drop k n) (Forall_drop _ _ _ Hn)). nia.
Qed.

Lemma inside_drop cells n k : inside cells n -> inside (drop k cells) (drop k n).
Proof.
  intros Hin d i. rewrite !lookup_drop. apply Hin.
Qed.

Lemma encode_bound cells n :
  inside cells n -> 0 <= encode cells n < cell_count (take (length cells) n).
Proof.
  revert n. induction cells as [|i cells IH]; intros n Hin.
  - simpl. unfold cell_count. simpl. lia.
  - destruct (Hin 0%nat i eq_refl) as (nd & Hnd & Hr).
    destruct n as [|nd' n]; [done|]. simpl in Hnd. inversion Hnd; subst nd'.
    assert (Hin' : inside cells n) by (intros d j Hj; apply (Hin (S d) j Hj)).
    specialize (IH n Hin'). simpl. unfold cell_count in *. simpl. nia.
Qed.

Lemma inside_counts cells n :
  inside cells n -> Forall (fun c => 1 <= c) (take (length cells) n).
Proof.
  intros Hin. apply Forall_lookup. intros d c Hc.
  apply lookup_take_Some in Hc as [Hc Hd].
  destruct (lookup_lt_is_Some_2 cells d Hd) as [i Hi].
  destruct (Hin d i Hi) as (nd & Hnd & Hr). rewrite Hc in Hnd.
  inversion Hnd; subst nd. lia.
Qed.

Lemma encode_drop_bound cells n k :
  inside cells n -> (k <= length cells)%nat ->
  0 <= encode (drop k cells) (drop k n)
    < cell_count (drop k (take (length cells) n)) /\
  cell_count (drop k (take (length cells) n))
    <= cell_count (take (length cells) n).
Proof.
  intros Hin Hk. split.
  - pose proof (encode_bound _ _ (inside_drop cells n k Hin)) as Hb.
    rewrite length_drop, take_drop_commute in Hb.
    by replace (k + (length cells - k))%nat with (length cells) in Hb by lia.
  - apply cell_count_drop_le. by apply inside_counts.
Qed.

Lemma wrap_size_t_small z : 0 <= z <= max_size_t -> wrap_size_t z = z.
Proof.
  intros Hz. unfold wrap_size_t, max_size_t in *. apply Z.mod_small. lia.
Qed.

(** [cellIndex] runs from the last axis down: after [k] rounds the
    accumulator holds the mixed-radix number of the last [k] axes. *)
Lemma cellIndex_loop g point cells k :
  length cells = DIM -> inside cells (_n g) ->
  cell_count (take DIM (_n g)) <= max_size_t ->
  (forall d, (d < DIM)%nat ->
     exists i, cells !! d = Some i /\ axis_cell g point d = Ok i) ->
  (k <= DIM)%nat ->
  for_loop k (fun k s =>
    let d := (DIM - 1 - k)%nat in
    p ← deref (point !! d);
    lo ← deref (minCorner (_bounds g) !! d);
    hd ← deref (_h g !! d);
    i ← float_to_int (floor (fdiv (fsub p lo) hd));
    nd ← deref (_n g !! d);
    Ok (wrap_size_t (wrap_size_t (s * nd) + i))) 0
  = Ok (encode (drop (DIM - k) cells) (drop (DIM - k) (_n g))).
Proof.
  intros Hlen Hin Hfit Hax. induction k as [|k IH]; intros Hk.
  - simpl. rewrite Nat.sub_0_r, drop_ge by lia. done.
  - rewrite for_loop_S, IH by lia. simpl.
    replace (DIM - k)%nat with (S (DIM - 1 - k)) by lia.
    replace (DIM - S k)%nat with (DIM - 1 - k)%nat by lia.
    set (d := (DIM - 1 - k)%nat).
    destruct (Hax d) as (i & Hi & Hcell); [lia|].
    destruct (Hin d i Hi) as (nd & Hnd & Hr).
    unfold axis_cell in Hcell.
    destruct (point !! d) as [p|]; simpl in Hcell; [|done].
    destruct (minCorner (_bounds g) !! d) as [lo|]; simpl in Hcell; [|done].
    destruct (_h g !! d) as [hd|]; simpl in Hcell; [|done].
    cbn [deref mbind result_bind]. rewrite Hcell, Hnd.
    cbn [deref mbind result_bind]. f_equal.
    rewrite (drop_S _ _ _ Hi), (drop_S _ _ _ Hnd).
    destruct (encode_drop_bound cells (_n g) (S d) Hin ltac:(lia)) as [Hs _].
    destruct (encode_drop_bound cells (_n g) d Hin ltac:(lia)) as [Hs' Hle].
    rewrite (drop_S _ _ _ Hi), (drop_S _ _ _ Hnd) in Hs'. simpl in Hs'.
    rewrite Hlen in *. simpl.
    set (s := encode (drop (S d) cells) (drop (S d) (_n g))) in *.
    rewrite (wrap_size_t_small (s * nd)) by nia.
    rewrite wrap_size_t_small by nia. lia.
Qed.

Lemma cellIndex_eq g point cells :
  length cells = DIM -> inside cells (_n g) ->
  cell_count (take DIM (_n g)) <= max_size_t ->
  (forall d, (d < DIM)%nat ->
     exists i, cells !! d = Some i /\ axis_cell g point d = Ok i) ->
  cellIndex DIM g point = Ok (encode cells (_n g)).
Proof.
  intros Hlen Hin Hfit Hax. unfold cellIndex.
  etrans; [apply (cellIndex_loop g point cells DIM); done || lia|].
  by rewrite Nat.sub_diag.
Qed.

Lemma constructed_fits g :
  constructed DIM g ->
  counted (_bounds g) DIM (_n g) /\ cell_count (take DIM (_n g)) <= max_size_t.
Proof.
  intros Hg. destruct (constructed_buildGrid DIM g Hg) as (g0 & Hg0).
  destruct (buildGrid_Ok DIM _ _ Hg0) as (Hb & _ & _ & Hc & Hfit).
  rewrite <- Hb in Hc. done.
Qed.

Lemma counts_corner_length bounds h n0 n :
  buildGrid_counts DIM bounds h n0 = Ok n -> (DIM <= length (minCorner bounds))%nat.
Proof.
  unfold buildGrid_counts. cbv zeta.
  apply (for_loop_inv (fun k _ => (k <= length (minCorner bounds))%nat)); [lia|].
  intros i s s' Hi _ Hbody.
  apply bind_Ok_inv in Hbody as (hi & _ & Hbody).
  apply bind_Ok_inv in Hbody as (lo & Hlo & _).
  apply deref_Ok_inv, lookup_lt_Some in Hlo. lia.
Qed.

Lemma constructed_lengths g :
  constructed DIM g ->
  (DIM <= length (minCorner (_bounds g)))%nat /\ (DIM <= length (_h g))%nat.
Proof.
  intros (bounds & raw & [[h Hg]|[h Hg]]).
  - unfold make_uniform in Hg. apply bind_Ok_inv in Hg as (u & _ & Hg).
    apply bind_Ok_inv in Hg as (hs & Hhs & Hg).
    destruct (buildGrid_Ok DIM _ _ Hg) as (Hb & Hh & Hc & _). simpl in *.
    rewrite Hb, Hh. split; [by apply (counts_corner_length _ _ _ _ Hc)|].
    revert Hhs. apply (for_loop_inv (fun k a => (k <= length a)%nat)); [lia|].
    intros i a a' Hi _ Hst. apply store_Ok_inv in Hst as [Hlt ->].
    rewrite length_insert. lia.
  - unfold make_array in Hg. apply bind_Ok_inv in Hg as (hs & Hhs & Hg).
    destruct (buildGrid_Ok DIM _ _ Hg) as (Hb & Hh & Hc & _). simpl in *.
    rewrite Hb, Hh. split; [by apply (counts_corner_length _ _ _ _ Hc)|].
    revert Hhs. apply (for_loop_inv (fun k a => (k <= length a)%nat)); [lia|].
    intros i a a' Hi _ Hbody.
    apply bind_Ok_inv in Hbody as (member & _ & Hbody).
    apply bind_Ok_inv in Hbody as (u & _ & Hbody).
    apply bind_Ok_inv in Hbody as (hd & _ & Hst).
    apply store_Ok_inv in Hst as [Hlt ->]. rewrite length_insert. lia.
Qed.

(** [cellBox] peels one axis off the index per round. *)
Lemma cellBox_loop g cells :
  length cells = DIM -> inside cells (_n g) ->
  counted (_bounds g) DIM (_n g) ->
  (DIM <= length (minCorner (_bounds g)))%nat -> (DIM <= length (_h g))%nat ->
  exists r,
    for_loop DIM (fun d '(cell_index, min, max) =>
      nd ← deref (_n g !! d);
      _ ← (if nd =? 0 then Undefined else Ok tt);
      let i := cell_index mod nd in
      let cell_index := cell_index / nd in
      md ← deref (min !! d);
      hd ← deref (_h g !! d);
      max ← store max d (fadd md (fmul (float_of_Z (wrap_size_t (i + 1))) hd));
      min ← store min d (fadd md (fmul (float_of_Z i) hd));
      Ok (cell_index, min, max))
      (encode cells (_n g), minCorner (_bounds g), minCorner (_bounds g)) = Ok r /\
    cellBox_inv g cells DIM r.
Proof.
  intros Hlen Hin Hn Hmin Hh. apply (for_loop_total (cellBox_inv g cells)).
  { repeat split; try done. intros d Hd. lia. }
  intros k [[ci mn] mx] Hk (Hci & Hlmn & Hlmx & Hrest & Hdone).
  destruct (lookup_lt_is_Some_2 cells k) as [i Hi]; [lia|].
  destruct (Hin k i Hi) as (nd & Hnd & Hr).
  destruct (Hn k Hk) as (nd' & Hnd' & Hmax & _).
  rewrite Hnd in Hnd'. inversion Hnd'; subst nd'.
  destruct (lookup_lt_is_Some_2 (minCorner (_bounds g)) k) as [lo Hlo]; [lia|].
  destruct (lookup_lt_is_Some_2 (_h g) k) as [hd Hhd]; [lia|].
  rewrite (drop_S _ _ _ Hi), (drop_S _ _ _ Hnd) in Hci. simpl in Hci.
  set (rest := encode (drop (S k) cells) (drop (S k) (_n g))) in *.
  assert (Hmod : ci mod nd = i).
  { subst ci. rewrite (Z.mul_comm nd), Z_mod_plus_full. apply Z.mod_small. lia. }
  assert (Hdiv : ci / nd = rest).
  { subst ci. rewrite (Z.mul_comm nd), Z_div_plus_full by lia.
    rewrite Z.div_small by lia. lia. }
  cbn beta iota. rewrite Hnd. cbn [deref mbind result_bind].
  destruct (Z.eqb_spec nd 0) as [?|_]; [lia|]. cbn [mbind result_bind].
  rewrite (Hrest k) by lia. rewrite Hlo, Hhd. cbn [deref mbind result_bind].
  rewrite !store_in_range by lia. cbn [mbind result_bind].
  eexists. split; [reflexivity|].
  rewrite Hmod, Hdiv, wrap_size_t_small by lia.
  repeat split.
  - by rewrite length_insert.
  - by rewrite length_insert.
  - intros d Hd. rewrite list_lookup_insert_ne by lia. apply Hrest. lia.
  - intros d Hd. destruct (decide (d = k)) as [->|Hne].
    + exists lo, hd, i. rewrite !list_lookup_insert_eq by lia. done.
    + destruct (Hdone d) as (lo' & hd' & i' & ? & ? & ? & ? & ?); [lia|].
      exists lo', hd', i'. rewrite !list_lookup_insert_ne by lia. done.
Qed.

Lemma cellBox_eq g cells :
  constructed DIM g -> length cells = DIM -> inside cells (_n g) ->
  exists box,
    cellBox DIM g (encode cells (_n g)) = Ok box /\
    (forall d, (d < DIM)%nat ->
       exists lo hd i,
         minCorner (_bounds g) !! d = Some lo /\ _h g !! d = Some hd /\
         cells !! d = Some i /\
         minCorner box !! d = Some (cell_lo lo hd i) /\
         maxCorner box !! d = Some (cell_hi lo hd i)).
Proof.
  intros Hg Hlen Hin. destruct (constructed_fits g Hg) as [Hn _].
  destruct (constructed_lengths g Hg) as [Hmin Hh].
  destruct (cellBox_loop g cells Hlen Hin Hn Hmin Hh)
    as ([[ci mn] mx] & Hloop & Hinv).
  exists {| minCorner := mn; maxCorner := mx |}. split.
  - change (Ok {| minCorner := mn; maxCorner := mx |})
      with ('(_, lo, hi) ← Ok (ci, mn, mx);
            (Ok {| minCorner := lo; maxCorner := hi |} : result Box)).
    rewrite <- Hloop. reflexivity.
  - by destruct Hinv as (_ & _ & _ & _ & Hdone).
Qed.
End GridNumbering.

(** X10.  On a grid that a constructor returned, a point whose cell
    along every axis, as the loop computes it, is an [int] [i_d] (the
    floor of the quotient converts to [int]) that lies inside the grid,
    [0 <= i_d < n_d], has as its [cellIndex] the mixed-radix number
    [i_0 + n_0 * (i_1 + n_1 * (i_2 + ...))]: the [size_t] arithmetic
    of the loop does not wrap, and the index is below the number of
    cells.  A cell beyond [INT_MAX], on an axis with more cells than
    that, is not covered: its conversion to [int] is undefined. *)
Theorem cellIndex_mixed_radix (DIM : nat) (g : CartesianGrid.t)
    (point : list CartesianGrid.float) (cells : list Z)
    (Hg : CartesianGrid.constructed DIM g)
    (Hlen : length cells = DIM)
    (Hin : CartesianGrid.inside cells (CartesianGrid._n g))
    (Hax : forall d, (d < DIM)%nat ->
       exists i, cells !! d = Some i /\
                 CartesianGrid.axis_cell g point d = Ok i) :
  CartesianGrid.cellIndex DIM g point
    = Ok (CartesianGrid.encode cells (CartesianGrid._n g)) /\
  0 <= CartesianGrid.encode cells (CartesianGrid._n g)
    < CartesianGrid.cell_count (take DIM (CartesianGrid._n g)) /\
  CartesianGrid.cell_count (take DIM (CartesianGrid._n g))
    <= CartesianGrid.max_size_t.
Proof.
  destruct (constructed_fits DIM g Hg) as [_ Hfit]. split; [|split; [|done]].
  - by apply cellIndex_eq.
  - rewrite <- Hlen. by apply encode_bound.
Qed.

(** The point (2.5, 1.25) of the 4 x 3 grid over [0,4] x [0,3] lies in
    cell (2, 1), which has index 2 + 4 * 1. *)
Lemma cellIndex_mixed_radix_witness :
  let f := CartesianGrid.float_of_Z in
  let bounds := {| CartesianGrid.minCorner := [f 0; f 0];
                   CartesianGrid.maxCorner := [f 4; f 3] |} in
  let g := CartesianGrid.Build bounds [f 1; f 1] [4; 3] in
  let point := [CartesianGrid.fdiv (f 5) (f 2); CartesianGrid.fdiv (f 5) (f 4)] in
  CartesianGrid.constructed 2 g /\
  CartesianGrid.cellIndex 2 g point = Ok 6.
Proof.
  intros f bounds g point.
  assert (Hg : CartesianGrid.constructed 2 g).
  { exists bounds, (CartesianGrid.Build bounds [f 0; f 0] [0; 0]).
    left. exists (f 1). reflexivity. }
  split; [exact Hg|].
  refine (proj1 (cellIndex_mixed_radix 2 g point [2; 1] Hg eq_refl _ _)).
  - intros [|[|d]] i Hi; inversion Hi; subst i; eexists; (split; [reflexivity|lia]).
  - intros [|[|d]] Hd; [exists 2 | exists 1 | lia]; (split; reflexivity).
Defined.

(** X11.  [cellBox] undoes the numbering of [cellIndex]: on a grid that
    a constructor returned, for cells inside the grid, the box of the
    index [i_0 + n_0 * (i_1 + ...)] has along every axis [d] the min
    corner [min_corner[d] + i_d * h_d] and the max corner
    [min_corner[d] + (i_d + 1) * h_d], computed in [float]; no division
    by zero and no access outside an array occurs. *)
Theorem cellBox_decodes_index (DIM : nat) (g : CartesianGrid.t) (cells : list Z)
    (Hg : CartesianGrid.constructed DIM g)
    (Hlen : length cells = DIM)
    (Hin : CartesianGrid.inside cells (CartesianGrid._n g)) :
  exists box,
    CartesianGrid.cellBox DIM g (CartesianGrid.encode cells (CartesianGrid._n g))
      = Ok box /\
    (forall d, (d < DIM)%nat ->
       exists lo hd i,
         CartesianGrid.minCorner (CartesianGrid._bounds g) !! d = Some lo /\
         CartesianGrid._h g !! d = Some hd /\
         cells !! d = Some i /\
         CartesianGrid.minCorner box !! d = Some (CartesianGrid.cell_lo lo hd i) /\
         CartesianGrid.maxCorner box !! d = Some (CartesianGrid.cell_hi lo hd i)).
Proof. by apply cellBox_eq. Qed.

(** Cell (2, 1) of the same grid, index 6, is the box [2,3] x [1,2]. *)
Lemma cellBox_decodes_index_witness :
  let f := CartesianGrid.float_of_Z in
  let bounds := {| CartesianGrid.minCorner := [f 0; f 0];
                   CartesianGrid.maxCorner := [f 4; f 3] |} in
  let g := CartesianGrid.Build bounds [f 1; f 1] [4; 3] in
  CartesianGrid.constructed 2 g /\
  exists box, CartesianGrid.cellBox 2 g 6 = Ok box /\
    CartesianGrid.minCorner box !! 0%nat = Some (f 2) /\
    CartesianGrid.maxCorner box !! 0%nat = Some (f 3).
Proof.
  intros f bounds g.
  assert (Hg : CartesianGrid.constructed 2 g).
  { exists bounds, (CartesianGrid.Build bounds [f 0; f 0] [0; 0]).
    left. exists (f 1). reflexivity. }
  split; [exact Hg|].
  assert (Hin : CartesianGrid.inside [2; 1] (CartesianGrid._n g)).
  { intros [|[|d]] i Hi; inversion Hi; subst i; eexists; (split; [reflexivity|lia]). }
  destruct (cellBox_decodes_index 2 g [2; 1] Hg eq_refl Hin) as (box & Hbox & Hc).
  exists box. split; [exact Hbox|].
  destruct (Hc 0%nat ltac:(lia)) as (lo & hd & i & Hlo & Hhd & Hi & Hmn & Hmx).
  inversion Hlo; subst lo. inversion Hhd; subst hd. inversion Hi; subst i.
  split; [exact Hmn | exact Hmx].
Defined.

(** ** The batched query: when it succeeds *)

Section QueryExact.
Import Driver.
Context {BVH Query : Type}.
Variable matches : BVH -> Query -> list Z.
Variable space : ExecutionSpace.
Hypothesis Hspace : valid_space space.
Variable bvh : BVH.

Local Abbreviation counts := (match_counts BVH Query matches bvh).
Local Abbreviation hits := (all_matches BVH Query matches bvh).

(** A call that succeeded kept every [int] it computed in range. *)
Lemma query_Ok_fits queries indices0 offset0 r :
  query BVH Query matches space bvh queries indices0 offset0 = Ok r ->
  Z.of_nat (length queries) + 1 <= INT_MAX /\
  Z.of_nat (length (hits queries)) <= INT_MAX /\
  INT_MIN <= Z.of_nat (length (hits queries)) + default 0 (offset0 !! length queries)
          <= INT_MAX.
Proof.
  unfold query. intros H. set (Q := length queries) in *.
  apply bind_Ok_inv in H as (n & [-> HQ]%int_of_Ok & H).
  apply bind_Ok_inv in H as (off1 & (_ & HQ1 & ->)%query_init_Ok & H); [|done].
  replace (Z.to_nat (Z.of_nat Q + 1)) with (S Q) in H by lia.
  apply bind_Ok_inv in H as (off2 & Hcount & H).
  apply (query_count_Ok matches space Hspace bvh) in Hcount as (Hlen2 & Hlo2 & Hhi2).
  rewrite length_resize in Hlen2.
  apply bind_Ok_inv in H as (off3 & (_ & Hsums & _ & _)%query_scan_Ok & _); [|done].
  pose proof (counted_prefix matches bvh queries off2 Q Hlo2 ltac:(done)) as Htake.
  rewrite (firstn_all2 (counts queries)) in Htake
    by (rewrite length_counts; fold Q; lia).
  destruct (lookup_lt_is_Some_2 off2 Q) as [x Hx]; [lia|].
  pose proof (Hsums (S Q) ltac:(lia)) as Hlast.
  rewrite (sumZ_take_S _ _ _ Hx), Htake, sumZ_counts in Hlast.
  assert (Hstale : default 0 (offset0 !! Q) = x).
  { rewrite Hhi2 in Hx by lia.
    destruct (decide (Q < length offset0)%nat) as [Hold|Hnew].
    - rewrite lookup_resize in Hx by lia. by rewrite Hx.
    - rewrite lookup_resize_new in Hx by lia. inversion Hx; subst x.
      by rewrite lookup_ge_None_2 by lia. }
  rewrite Hstale. split; [done|]. split; [|done].
  destruct (decide (Q = 0)%nat) as [HQ0|HQ0].
  - assert (queries = []) as -> by (by apply nil_length_inv). simpl. unfold INT_MAX. lia.
  - pose proof (Hsums Q ltac:(lia)) as HQs. rewrite Htake, sumZ_counts in HQs. lia.
Qed.

Lemma query_exact queries indices0 offset0 :
  ((exists r, query BVH Query matches space bvh queries indices0 offset0 = Ok r) <->
   Z.of_nat (length queries) + 1 <= INT_MAX /\
   Z.of_nat (length (hits queries)) <= INT_MAX /\
   INT_MIN <= Z.of_nat (length (hits queries))
                + default 0 (offset0 !! length queries) <= INT_MAX) /\
  (forall r, query BVH Query matches space bvh queries indices0 offset0 = Ok r ->
     r = (hits queries, row_starts BVH Query matches bvh queries)).
Proof.
  split; [split|].
  - intros [r Hr]. by apply (query_Ok_fits _ _ _ _ Hr).
  - intros (HQ & Hmax & Hstale). eexists.
    by apply (query_succeeds matches space Hspace bvh).
  - intros [indices offset] Hr.
    by apply (query_Ok matches space Hspace bvh) in Hr as [-> ->].
Qed.
End QueryExact.

(** X12.  [query] succeeds exactly when three numbers fit in an [int]:
    the number of queries plus one, the total number of matches, and
    that total plus the entry the [offset] view held at index [Q] when
    the call was made (nothing for a shorter view).  The last condition
    comes from the scan, whose final addition reads the entry that the
    initialisation loop left as it was.  When the call succeeds its
    result is the concatenation of the matches and the row starts,
    whatever the views held and in whatever order the execution space
    ran the iterations. *)
Theorem query_succeeds_exactly {BVH Query : Type} (matches : BVH -> Query -> list Z)
    (space : Driver.ExecutionSpace) (bvh : BVH) (queries : list Query)
    (indices0 offset0 : list Z) (Hspace : Driver.valid_space space) :
  let total := Z.of_nat (length (Driver.all_matches BVH Query matches bvh queries)) in
  let stale := default 0 (offset0 !! length queries) in
  ((exists r, Driver.query BVH Query matches space bvh queries indices0 offset0 = Ok r)
   <-> Z.of_nat (length queries) + 1 <= Driver.INT_MAX /\
       total <= Driver.INT_MAX /\
       Driver.INT_MIN <= total + stale <= Driver.INT_MAX) /\
  (forall r, Driver.query BVH Query matches space bvh queries indices0 offset0 = Ok r ->
     r = (Driver.all_matches BVH Query matches bvh queries,
          Driver.row_starts BVH Query matches bvh queries)).
Proof. by apply query_exact. Qed.

(** One query with two matches: the call fails on an [offset] view that
    holds [INT_MAX] at index 1, and succeeds on an empty one. *)
Lemma query_succeeds_exactly_witness :
  let matches := fun (_ : unit) (q : list Z) => q in
  ~ (exists r, Driver.query unit (list Z) matches Driver.Serial tt [[3; 1]]
                 [] [0; 2147483647] = Ok r) /\
  (exists r, Driver.query unit (list Z) matches Driver.Serial tt [[3; 1]] [] [] = Ok r).
Proof.
  intros matches. split.
  - intros Hr.
    apply (proj1 (query_succeeds_exactly matches Driver.Serial tt [[3; 1]]
                    [] [0; 2147483647] Serial_valid)) in Hr.
    destruct Hr as (_ & _ & _ & Hr). vm_compute in Hr. by apply Hr.
  - apply (proj1 (query_succeeds_exactly matches Driver.Serial tt [[3; 1]]
                    [] [] Serial_valid)).
    vm_compute. repeat split; discriminate.
Defined.

(** ** The driver: random cloud *)

Section RandomCloudFacts.
Import Driver.
Variable Engine : Type.
Variable default_random_engine : Engine.
Variable uniform_real_distribution : double -> double -> Engine -> double * Engine.
Variables Lx Ly Lz : double.
Hypothesis Hy : forall g,
  in_interval (S754_zero false) Ly (uniform_real_distribution (S754_zero false) Ly g).1
    = true.
Hypothesis Hz : forall g,
  in_interval (S754_zero false) Lz (uniform_real_distribution (S754_zero false) Lz g).1
    = true.

Lemma make_random_cloud_Ok (n : nat) :
  exists cloud,
    make_random_cloud Engine default_random_engine uniform_real_distribution
      Lx Ly Lz (Z.of_nat n) = Ok cloud /\
    length cloud = n /\
    Forall (in_box Lz Ly Lz) cloud.
Proof.
  unfold make_random_cloud, vector_of_size.
  destruct (Z.leb_spec 0 (Z.of_nat n)) as [_|?]; [|lia]. simpl.
  unfold for_int. rewrite Nat2Z.id.
  match goal with |- context [for_loop n ?body ?s0] =>
    destruct (for_loop_total
      (fun i (st : list point * Engine) =>
         length st.1 = n /\ Forall (in_box Lz Ly Lz) (take i st.1))
      n body s0) as ([cloud g] & Hloop & Hlen & Hall)
  end.
  - simpl. split; [by rewrite length_replicate | done].
  - intros i [c g] Hi [Hlen Hall]. simpl in Hlen, Hall.
    pose proof (Hz g) as Hx.
    destruct (uniform_real_distribution (S754_zero false) Lz g) as [x g1].
    pose proof (Hy g1) as Hy1.
    destruct (uniform_real_distribution (S754_zero false) Ly g1) as [y g2].
    pose proof (Hz g2) as Hz2.
    destruct (uniform_real_distribution (S754_zero false) Lz g2) as [z g3].
    destruct (Z.leb_spec 0 (Z.of_nat i)) as [_|?]; [|lia].
    unfold point in *. rewrite Nat2Z.id, store_in_range by lia. simpl.
    eexists. split; [done|]. simpl. split; [by rewrite length_insert|].
    erewrite take_S_r by (apply list_lookup_insert_eq; lia).
    rewrite take_insert_ge by lia. apply Forall_app. split; [done|].
    by apply Forall_singleton.
  - exists cloud. simpl in *. split; [|split; [done|]].
    + etrans; [exact (f_equal (fmap fst) Hloop) | done].
    + by rewrite take_ge in Hall by lia.
Qed.
End RandomCloudFacts.

(** X13.  [make_random_cloud( Lx, Ly, Lz, n )] with [n >= 0] returns
    [n] points, drawn from one default-seeded engine.  When the two
    distributions it draws from keep to their intervals [0, Ly) and
    [0, Lz), every point has its y in [0, Ly) and both its x and its z
    in [0, Lz): the x coordinate is drawn from ( 0.0, Lz ), and [Lx] is
    not used. *)
Theorem make_random_cloud_in_box (Engine : Type) (default_random_engine : Engine)
    (uniform_real_distribution :
       Driver.double -> Driver.double -> Engine -> Driver.double * Engine)
    (Lx Ly Lz : Driver.double) (n : Z) (Hn : 0 <= n)
    (Hy : forall g, Driver.in_interval (S754_zero false) Ly
            (uniform_real_distribution (S754_zero false) Ly g).1 = true)
    (Hz : forall g, Driver.in_interval (S754_zero false) Lz
            (uniform_real_distribution (S754_zero false) Lz g).1 = true) :
  exists cloud,
    Driver.make_random_cloud Engine default_random_engine uniform_real_distribution
      Lx Ly Lz n = Ok cloud /\
    Z.of_nat (length cloud) = n /\
    Forall (Driver.in_box Lz Ly Lz) cloud.
Proof.
  destruct (make_random_cloud_Ok Engine default_random_engine
              uniform_real_distribution Lx Ly Lz Hy Hz (Z.to_nat n))
    as (cloud & Hcloud & Hlen & Hall).
  rewrite Z2Nat.id in Hcloud by done.
  exists cloud. split; [done|]. split; [lia | done].
Qed.

(** Three points from a linear congruential engine whose draws are the
    state modulo 100, on the box [0, 100)^3. *)
Lemma make_random_cloud_in_box_witness :
  let L := Driver.double_of_int 100 in
  let draw := fun (a b : Driver.double) (g : Z) =>
    (Driver.double_of_int (g mod 100), (16807 * g) mod 2147483647) in
  exists cloud,
    Driver.make_random_cloud Z 1 draw L L L 3 = Ok cloud /\
    Z.of_nat (length cloud) = 3 /\
    Forall (Driver.in_box L L L) cloud.
Proof.
  intros L draw.
  assert (Hdraw : forall g, Driver.in_interval (S754_zero false) L
                              (draw (S754_zero false) L g).1 = true).
  { intros g. simpl.
    assert (Hall : forallb (fun k => Driver.in_interval (S754_zero false) L
                                       (Driver.double_of_int k)) (seqZ 0 100) = true)
      by (vm_compute; reflexivity).
    apply (proj1 (forallb_forall _ _) Hall), list_elem_of_In, elem_of_seqZ.
    pose proof (Z.mod_pos_bound g 100). lia. }
  apply (make_random_cloud_in_box Z 1 draw L L L 3); [lia | exact Hdraw | exact Hdraw].
Defined.

(** ** The driver: structured cloud with a degenerate dimension *)

Lemma for_loop_skip {S} n (body : nat -> S -> result S) s :
  (forall i s, (i < n)%nat -> body i s = Ok s) -> for_loop n body s = Ok s.
Proof.
  intros Hbody. induction n as [|n IH]; [done|].
  rewrite for_loop_S, IH by (intros; apply Hbody; lia). simpl. apply Hbody. lia.
Qed.

Section CloudEdges.
Import Driver.
Variables Lx Ly Lz : double.

Lemma cloud_not_written nx ny nz (cloud : list point) :
  nx <= 0 \/ ny <= 0 \/ nz <= 0 ->
  for_int nx (fun i cloud =>
    for_int ny (fun j cloud =>
      for_int nz (fun k cloud =>
        x ← coordinate i Lx nx;
        y ← coordinate j Ly ny;
        z ← coordinate k Lz nz;
        pos ← ind nx ny nz i j k;
        if 0 <=? pos then store cloud (Z.to_nat pos) (x, y, z) else Undefined)
      cloud) cloud) cloud = Ok cloud.
Proof.
  intros Hdeg. unfold for_int.
  apply for_loop_skip. intros i c Hi.
  apply for_loop_skip. intros j c' Hj.
  replace (Z.to_nat nz) with 0%nat by lia. done.
Qed.

Lemma make_stuctured_cloud_degenerate nx ny nz :
  nx <= 0 \/ ny <= 0 \/ nz <= 0 ->
  INT_MIN <= nx * ny <= INT_MAX -> INT_MIN <= nx * ny * nz <= INT_MAX ->
  make_stuctured_cloud Lx Ly Lz nx ny nz
    = if 0 <=? nx * ny * nz
      then Ok (replicate (Z.to_nat (nx * ny * nz)) zero_point)
      else Raised.
Proof.
  intros Hdeg Hxy Hxyz. unfold make_stuctured_cloud, int_mul.
  rewrite (int_of_in (nx * ny)) by done. simpl.
  rewrite int_of_in by done. simpl. unfold vector_of_size.
  destruct (0 <=? nx * ny * nz); simpl; [|done].
  by apply cloud_not_written.
Qed.

Lemma nan_coordinate (L : double) :
  ddiv (dmul (double_of_int 0) L) (double_of_int 0) = S754_nan.
Proof. by destruct L as [s|s| |s m e]. Qed.

Lemma cloud_pos_decode (NX NY NZ p : nat) :
  (1 <= NX)%nat -> (1 <= NY)%nat -> (p < NX * NY * NZ)%nat ->
  exists i j k, (i < NX)%nat /\ (j < NY)%nat /\ (k < NZ)%nat /\
                p = cloud_pos NX NY i j k.
Proof.
  intros HNX HNY Hp.
  exists (p mod NX)%nat, ((p / NX) mod NY)%nat, (p / NX / NY)%nat.
  split; [apply Nat.mod_upper_bound; lia|].
  split; [apply Nat.mod_upper_bound; lia|].
  split.
  - apply Nat.Div0.div_lt_upper_bound, Nat.Div0.div_lt_upper_bound. lia.
  - unfold cloud_pos.
    pose proof (Nat.div_mod_eq p NX) as H1.
    pose proof (Nat.div_mod_eq (p / NX) NY) as H2. nia.
Qed.

Lemma make_stuctured_cloud_points (NX NY NZ : nat) :
  (1 <= NX)%nat -> (1 <= NY)%nat -> (1 <= NZ)%nat ->
  Z.of_nat (NX * NY * NZ) <= INT_MAX ->
  exists cloud,
    make_stuctured_cloud Lx Ly Lz (Z.of_nat NX) (Z.of_nat NY) (Z.of_nat NZ) = Ok cloud /\
    length cloud = (NX * NY * NZ)%nat /\
    forall p, p ∈ cloud ->
      exists i j k, (i < NX)%nat /\ (j < NY)%nat /\ (k < NZ)%nat /\
                    p = cloud_pt Lx Ly Lz NX NY NZ i j k.
Proof.
  intros HNX HNY HNZ Hfits.
  destruct (make_stuctured_cloud_total Lx Ly Lz NX NY NZ HNX HNY HNZ Hfits)
    as (cloud & Hcloud & Hlen & Hat).
  exists cloud. split; [done|]. split; [done|].
  intros p (q & Hq)%list_elem_of_lookup.
  pose proof (lookup_lt_Some _ _ _ Hq) as Hlt. rewrite Hlen in Hlt.
  destruct (cloud_pos_decode NX NY NZ q HNX HNY Hlt) as (i & j & k & Hi & Hj & Hk & ->).
  exists i, j, k. repeat split; try done.
  rewrite Hat in Hq; [by inversion Hq | done.. |]. unfold visited. lia.
Qed.
End CloudEdges.

(** X14.  When one of [nx], [ny], [nz] is not positive (and the
    products [nx * ny] and [nx * ny * nz] fit in an [int]), the loops
    of [make_stuctured_cloud] write no point: the cloud is
    [nx * ny * nz] points at the origin, none when the product is 0, and
    a negative product makes the vector constructor throw. *)
Theorem make_stuctured_cloud_without_points (Lx Ly Lz : Driver.double) (nx ny nz : Z)
    (Hdeg : nx <= 0 \/ ny <= 0 \/ nz <= 0)
    (Hxy : Driver.INT_MIN <= nx * ny <= Driver.INT_MAX)
    (Hxyz : Driver.INT_MIN <= nx * ny * nz <= Driver.INT_MAX) :
  Driver.make_stuctured_cloud Lx Ly Lz nx ny nz
    = if 0 <=? nx * ny * nz
      then Ok (replicate (Z.to_nat (nx * ny * nz)) Driver.zero_point)
      else Raised.
Proof. by apply make_stuctured_cloud_degenerate. Qed.

Lemma make_stuctured_cloud_without_points_witness :
  let L := Driver.double_of_int 100 in
  Driver.make_stuctured_cloud L L L 11 0 11 = Ok [] /\
  Driver.make_stuctured_cloud L L L (-1) (-2) 1
    = Ok [Driver.zero_point; Driver.zero_point] /\
  Driver.make_stuctured_cloud L L L 11 (-1) 11 = Raised.
Proof.
  intros L. split; [|split].
  - apply (make_stuctured_cloud_without_points L L L 11 0 11);
      [lia | vm_compute; split; discriminate..].
  - apply (make_stuctured_cloud_without_points L L L (-1) (-2) 1);
      [lia | vm_compute; split; discriminate..].
  - apply (make_stuctured_cloud_without_points L L L 11 (-1) 11);
      [lia | vm_compute; split; discriminate..].
Defined.

(** X15.  With [nx], [ny], [nz] at least 1 and a product that fits in
    an [int], [make_stuctured_cloud] returns [nx * ny * nz] points, each
    of them a grid point; along an axis with a single layer ([n = 1])
    the coordinate [i * L / ( n - 1 )] is 0 * L / 0, so every point of
    the cloud has a NaN there, whatever the extent [L]. *)
Theorem single_layer_coordinate_nan (Lx Ly Lz : Driver.double) (nx ny nz : Z)
    (Hnx : 1 <= nx) (Hny : 1 <= ny) (Hnz : 1 <= nz)
    (Hfits : nx * ny * nz <= Driver.INT_MAX) :
  exists cloud,
    Driver.make_stuctured_cloud Lx Ly Lz nx ny nz = Ok cloud /\
    Z.of_nat (length cloud) = nx * ny * nz /\
    (forall x y z, (x, y, z) ∈ cloud ->
       (nx = 1 -> x = S754_nan) /\ (ny = 1 -> y = S754_nan) /\
       (nz = 1 -> z = S754_nan)).
Proof.
  destruct (make_stuctured_cloud_points Lx Ly Lz
              (Z.to_nat nx) (Z.to_nat ny) (Z.to_nat nz))
    as (cloud & Hcloud & Hlen & Hpts); [lia.. | |].
  { rewrite !Nat2Z.inj_mul, !Z2Nat.id by lia. done. }
  rewrite !Z2Nat.id in Hcloud by lia.
  exists cloud. split; [done|]. split.
  { rewrite Hlen, !Nat2Z.inj_mul, !Z2Nat.id by lia. done. }
  intros x y z (i & j & k & Hi & Hj & Hk & Hp)%Hpts.
  unfold Driver.cloud_pt, Driver.grid_point in Hp. rewrite !Z2Nat.id in Hp by lia.
  inversion Hp; subst x y z. clear Hp.
  split; [|split]; intros ->.
  - replace i with 0%nat by lia. apply nan_coordinate.
  - replace j with 0%nat by lia. apply nan_coordinate.
  - replace k with 0%nat by lia. apply nan_coordinate.
Qed.

(** A single layer in x: 1 x 2 x 2 points, all with NaN as x. *)
Lemma single_layer_coordinate_nan_witness :
  let L := Driver.double_of_int 100 in
  exists cloud,
    Driver.make_stuctured_cloud L L L 1 2 2 = Ok cloud /\
    Z.of_nat (length cloud) = 4 /\
    (forall x y z, (x, y, z) ∈ cloud -> x = S754_nan).
Proof.
  intros L.
  destruct (single_layer_coordinate_nan L L L 1 2 2 ltac:(lia) ltac:(lia) ltac:(lia)
              ltac:(vm_compute; discriminate)) as (cloud & Hcloud & Hlen & Hnan).
  exists cloud. split; [exact Hcloud|]. split; [exact Hlen|].
  intros x y z Hin. exact (proj1 (Hnan x y z Hin) eq_refl).
Defined.

(** ** The cartesian grid: bounds and points it does not check *)

Section GridUnchecked.
Import CartesianGrid.
Variable DIM : nat.









End GridUnchecked.




